(** * pyphi/visualize.py: the Q-structure layout and grouping pipeline

    A shallow embedding of the helper functions of [visualize.py] and of
    the relation stages of [plot_ces], with the properties of the
    specification stated over them.

    Conventions.
    - Python floats (phi values, marker sizes, coordinates) are binary64
      numbers, kept as the rationals [Q] they stand for. An arithmetic
      operation on floats returns the exact result rounded to the nearest
      binary64 number, comparisons are exact, and results are stated up
      to [Qeq]. The values stay below the overflow threshold.
    - Python exceptions are values of [exn]; a function that can raise
      returns a [result].
    - numpy vectors are lists; a two-dimensional array keeps its shape
      next to its columns. *)

From Stdlib Require Import QArith Qminmax Qabs Qpower Qround Lia Lqa String.
From stdpp Require Import base list gmap strings.

(** ** Exceptions *)

Inductive exn := ValueError | KeyError | IndexError.

Inductive result (A : Type) :=
| Ok (a : A)
| Raise (e : exn).
Arguments Ok {A} a.
Arguments Raise {A} e.

#[global] Instance result_ret : MRet result := λ A a, Ok a.
#[global] Instance result_bind : MBind result := λ A B k m,
  match m with
  | Ok a => k a
  | Raise e => Raise e
  end.

(** [l[i]] on a Python list. *)
Definition getitem {A} (l : list A) (i : nat) : result A :=
  match l !! i with
  | Some a => Ok a
  | None => Raise IndexError
  end.

(** A [for] loop threading a state, stopped by the first exception. *)
Fixpoint for_each {A S} (body : S → A → result S) (s : S) (l : list A)
  : result S :=
  match l with
  | [] => Ok s
  | a :: l' => s' ← body s a; for_each body s' l'
  end.

(** [enumerate(l)]. *)
Definition enumerate {A} (l : list A) : list (nat * A) := imap pair l.

(** ** Floating point numbers

    The arithmetic of numpy and of Python floats: binary64, rounding to
    the nearest number, a tie going to the even mantissa. *)

(** [floor (log2 q)] for [q > 0]. *)
Definition ilog2 (q : Q) : Z :=
  let k := (Z.log2 (Qnum q) - Z.log2 (Zpos (Qden q)))%Z in
  if Qle_bool (2 ^ k) q then k else (k - 1)%Z.

(** The nearest integer, a tie going to the even one. *)
Definition rne (x : Q) : Z :=
  let f := Qfloor x in
  match ((x - inject_Z f) ?= (1 # 2))%Q with
  | Lt => f
  | Gt => (f + 1)%Z
  | Eq => if Z.even f then f else (f + 1)%Z
  end.

(** The nearest multiple of [2 ^ e]. *)
Definition round_to (e : Z) (q : Q) : Q :=
  (inject_Z (rne (q / 2 ^ e)) * 2 ^ e)%Q.

(** The exponent of the last bit of the binary64 numbers around [q]:
    53 bits of mantissa, and never below [2 ^ -1074]. *)
Definition exponent (q : Q) : Z := Z.max (ilog2 (Qabs q) - 52) (-1074).

Definition binary64 (q : Q) : Q :=
  let q := Qred q in
  if Qeq_bool q 0 then 0%Q else Qred (round_to (exponent q) q).

Definition float_add (x y : Q) : Q := binary64 (x + y).
Definition float_sub (x y : Q) : Q := binary64 (x - y).
Definition float_mul (x y : Q) : Q := binary64 (x * y).
Definition float_div (x y : Q) : Q := binary64 (x / y).

(** The rationals that are binary64 numbers. *)
Definition is_float (q : Q) : Prop := (binary64 q == q)%Q.

(** The rounding of [binary64], on any representation of a rational. *)
Definition round64 (q : Q) : Q :=
  if Qeq_bool q 0 then 0%Q else round_to (exponent q) q.

(** ** Data model

    Modelled from the spec: the classes of [pyphi.models] and
    [pyphi.relations] that [visualize.py] reads (MICE, distinction,
    relation) are not part of the source file; they are records with the
    attributes the code accesses (section 3 of the specification).
    Elements are indices, purviews and mechanisms are tuples of
    indices, and two values are [==] when all their attributes are. *)

Inductive Direction := CAUSE | EFFECT.

Module MICE.
Record t := Build
  { mechanism : list nat; purview : list nat;
    direction : Direction; phi : Q }.
End MICE.

Module Distinction.
(** A distinction owns its cause and its effect: they carry its mechanism
    and their direction. *)
Record t := Build
  { mechanism : list nat;
    cause_purview : list nat; cause_phi : Q;
    effect_purview : list nat; effect_phi : Q }.
Definition cause (d : t) : MICE.t :=
  MICE.Build (mechanism d) (cause_purview d) CAUSE (cause_phi d).
Definition effect (d : t) : MICE.t :=
  MICE.Build (mechanism d) (effect_purview d) EFFECT (effect_phi d).
End Distinction.

Module Relation.
Record t := Build
  { relata : list MICE.t; purview : list nat; phi : Q }.
(** [relation.relata.purviews] and [relation.mechanisms]. *)
Definition purviews (r : t) : list (list nat) := MICE.purview <$> relata r.
Definition mechanisms (r : t) : list (list nat) :=
  MICE.mechanism <$> relata r.
End Relation.

#[global] Instance Q_eq_dec : EqDecision Q.
Proof. solve_decision. Defined.
#[global] Instance Q_countable : Countable Q.
Proof.
  refine (inj_countable' (λ q, (Qnum q, Qden q)) (λ p, Qmake p.1 p.2) _).
  by intros [].
Defined.

#[global] Instance Direction_eq_dec : EqDecision Direction.
Proof. solve_decision. Defined.
#[global] Instance Direction_countable : Countable Direction.
Proof.
  refine (inj_countable' (λ d, match d with CAUSE => false | EFFECT => true end)
            (λ b : bool, if b then EFFECT else CAUSE) _).
  by intros [].
Defined.

#[global] Instance MICE_eq_dec : EqDecision MICE.t.
Proof. solve_decision. Defined.
#[global] Instance MICE_countable : Countable MICE.t.
Proof.
  refine (inj_countable'
            (λ m, (MICE.mechanism m, MICE.purview m, MICE.direction m,
                   MICE.phi m))
            (λ p, MICE.Build p.1.1.1 p.1.1.2 p.1.2 p.2) _).
  by intros [].
Defined.

#[global] Instance Distinction_eq_dec : EqDecision Distinction.t.
Proof. solve_decision. Defined.
#[global] Instance Relation_eq_dec : EqDecision Relation.t.
Proof. solve_decision. Defined.

(** The objects [normalize_sizes] accepts expose a [phi] attribute. *)
Class HasPhi (A : Type) := phi_of : A → Q.
#[global] Instance MICE_phi : HasPhi MICE.t := MICE.phi.
#[global] Instance Relation_phi : HasPhi Relation.t := Relation.phi.

(** Modelled from the spec: [pyphi.relations.separate_ces] is not part of
    the source file. The Separated CES takes, for each distinction in CES
    order, its cause immediately followed by its effect. *)
Definition separate_ces (ces : list Distinction.t) : list MICE.t :=
  ces ≫= λ d, [Distinction.cause d; Distinction.effect d].

(** ** Helper functions of visualize.py *)

Definition flatten {A} (iterable : list (list A)) : list A := concat iterable.

(** [make_label(nodes, node_labels)] with the node labels given, as in
    every call of [plot_ces]: [indices2labels] turns each index into its
    label and the labels are joined without a separator. *)
Definition make_label (nodes : list nat) (node_labels : nat → string)
  : string :=
  foldr String.append EmptyString (node_labels <$> nodes).

(** [phis.min()] and [phis.max()] of a non-empty array. *)
Definition array_min (x : Q) (xs : list Q) : Q := foldl Qmin x xs.
Definition array_max (x : Q) (xs : list Q) : Q := foldl Qmax x xs.

Definition normalize_sizes `{HasPhi A} (min_size max_size : Q)
    (elements : list A) : result (list Q) :=
  let phis : list Q := phi_of <$> elements in
  match phis with
  | [] => Raise ValueError
  | p :: ps =>
      let min_phi := array_min p ps in
      let max_phi := array_max p ps in
      if Qeq_bool max_phi min_phi
      then Ok ((λ _, float_div (float_add min_size max_size) 2) <$> phis)
      else Ok ((λ x, float_add min_size
                       (float_div
                          (float_mul (float_sub x min_phi)
                                     (float_sub max_size min_size))
                          (float_sub max_phi min_phi))) <$> phis)
  end.

(** [range(0, len, n)] for [n > 0]: the multiples of [n] below [len]. *)
Definition range_step (len n : nat) : list nat :=
  (λ k, k * n) <$> seq 0 (Nat.div (len + n - 1) n).

(** [my_list[i : j]]. *)
Definition slice {A} (l : list A) (i j : nat) : list A :=
  take (j - i) (drop i l).

Definition chunk_list {A} (my_list : list A) (n : nat) : list (list A) :=
  (λ i, slice my_list i (i + n)) <$> range_step (length my_list) n.

Definition separate_cause_and_effect_purviews_for {A} (given_list : list A)
  : list A * list A :=
  foldl (λ '(causes, effects) '(i, x),
           if Nat.even i then (causes ++ [x], effects)
           else (causes, effects ++ [x]))
        ([], []) (enumerate given_list).

(** [all(n in q for n in p)] and [any(n in q for n in p)]. *)
Definition all_in (p q : list nat) : bool :=
  forallb (λ n, bool_decide (n ∈ q)) p.
Definition any_in (p q : list nat) : bool :=
  existsb (λ n, bool_decide (n ∈ q)) p.

Definition get_edge_color (relation : Relation.t)
    (colorcode_2_relations : bool) : result string :=
  if colorcode_2_relations then
    purview0 ← getitem (Relation.purviews relation) 0;
    purview1 ← getitem (Relation.purviews relation) 1;
    let relation_purview := Relation.purview relation in
    (* Isotext (mutual full-overlap) *)
    if bool_decide (purview0 = purview1)
       && bool_decide (purview1 = relation_purview)
    then Ok "fuchsia"
    (* Sub/Supertext (inclusion / full-overlap) *)
    else if bool_decide (purview0 ≠ purview1)
            && (all_in purview0 purview1 || all_in purview1 purview0)
    then Ok "indigo"
    (* Paratext (connection / partial-overlap) *)
    else if (bool_decide (purview0 = purview1)
             && bool_decide (purview1 ≠ relation_purview))
            || (any_in purview0 purview1 && negb (all_in purview0 purview1))
    then Ok "cyan"
    else Raise ValueError
  else Ok "teal".

(** [l.index(x)]: the first position holding a value equal to [x]. *)
Definition index `{EqDecision A} (l : list A) (x : A) : result nat :=
  match list_find (λ y, y = x) l with
  | Some (i, _) => Ok i
  | None => Raise ValueError
  end.

Module Chunker.
(** The local variables of [purview_chunker]. *)
Record state := Build
  { purview_chunked_list : list (list Relation.t);
    purview_chunk : list Relation.t;
    index_chunk_list : list (list nat);
    index_chunk : list nat;
    previous_relation : Relation.t }.
End Chunker.

Definition purview_chunker (relations_list : list Relation.t)
  : result (list (list Relation.t) * list (list nat)) :=
  previous_relation ← getitem relations_list 0;
  let init :=
    Chunker.Build [] [previous_relation] [] [0] previous_relation in
  final ← for_each
    (λ st relation,
       m ← getitem (Relation.mechanisms relation) 0;
       m' ← getitem (Relation.mechanisms (Chunker.previous_relation st)) 0;
       if bool_decide (m = m')
          && bool_decide (Relation.purview relation
                          = Relation.purview (Chunker.previous_relation st))
          && bool_decide (relation ≠ Chunker.previous_relation st)
       then
         i ← index relations_list relation;
         Ok (Chunker.Build
               (Chunker.purview_chunked_list st)
               (Chunker.purview_chunk st ++ [relation])
               (Chunker.index_chunk_list st)
               (Chunker.index_chunk st ++ [i])
               relation)
       else
         i ← index relations_list relation;
         Ok (Chunker.Build
               (Chunker.purview_chunked_list st ++ [Chunker.purview_chunk st])
               [relation]
               (Chunker.index_chunk_list st ++ [Chunker.index_chunk st])
               [i]
               relation))
    init relations_list;
  Ok (Chunker.purview_chunked_list final, Chunker.index_chunk_list final).

(** ** Feature matrix *)

(** A numpy array of shape [(N, M)], kept as its [M] columns of [N]
    cells each; [N] is kept too, for the arrays without columns. *)
Record matrix := Matrix { nrows : nat; columns : list (list nat) }.

Definition ncols (features : matrix) : nat := length (columns features).

(** [np.zeros([N, M])]. *)
Definition zeros (N M : nat) : matrix := Matrix N (replicate M (replicate N 0)).

(** [features[:, j]], for [j] below the number of columns. *)
Definition column (features : matrix) (j : nat) : list nat :=
  default [] (columns features !! j).

(** [features[:, j] = v]. *)
Definition set_column (features : matrix) (j : nat) (v : list nat) : matrix :=
  Matrix (nrows features) (<[j := v]> (columns features)).

(** [features[p, r]]. *)
Definition cell (features : matrix) (p r : nat) : option nat :=
  c ← columns features !! r; c !! p.

(** [{purview: i for i, purview in enumerate(ces)}]: a later entry equal
    to an earlier one takes its place. *)
Definition index_map (ces : list MICE.t) : gmap MICE.t nat :=
  foldl (λ m '(i, purview), <[purview := i]> m) ∅ (enumerate ces).

(** [index_map[relatum]]. *)
Definition dict_getitem (m : gmap MICE.t nat) (relatum : MICE.t)
  : result nat :=
  match m !! relatum with
  | Some i => Ok i
  | None => Raise KeyError
  end.

(** [relation_features[indices] = 1] on [np.zeros(N)]; the indices come
    from [index_map] and are below [N]. *)
Definition assign_ones (N : nat) (indices : list nat) : list nat :=
  foldl (λ v i, <[i := 1]> v) (replicate N 0) indices.

Definition feature_matrix (ces : list MICE.t) (relations : list Relation.t)
  : result matrix :=
  let N := length ces in
  let M := length relations in
  let index_map := index_map ces in
  let features := zeros N M in
  for_each
    (λ features '(j, relation),
       indices ← mapM (dict_getitem index_map) (Relation.relata relation);
       let relation_features := assign_ones N indices in
       Ok (set_column features j relation_features))
    features (enumerate relations).

(** [a.nonzero()[0]] of a vector. *)
Definition nonzero (a : list nat) : list nat :=
  (filter (λ ix, ix.2 ≠ 0) (enumerate a)).*1.

Definition relation_vertex_indices (features : matrix) (j : nat) : list nat :=
  nonzero (column features j).

(** ** Geometry extraction (plot_ces) *)

(** The columns [j in range(features.shape[1])] with
    [features[:, j].sum() == k]. *)
Definition columns_summing_to (features : matrix) (k : nat) : list nat :=
  filter (λ j, sum_list (column features j) = k) (seq 0 (ncols features)).

(** The flat list of edge end points, two for each column summing to 2. *)
Definition edges_of (features : matrix) : list nat :=
  flatten (relation_vertex_indices features <$> columns_summing_to features 2).

Definition triangles_of (features : matrix) : list (list nat) :=
  relation_vertex_indices features <$> columns_summing_to features 3.

(** ** Marker sizes (plot_ces) *)

(** [min(xs)] on a Python list: the first of the smallest values. *)
Definition py_min (xs : list Q) : result Q :=
  match xs with
  | [] => Raise ValueError
  | x :: xs' => Ok (foldl (λ m y, if Qlt_le_dec y m then y else m) x xs')
  end.

(** [mechanism_sizes = [min(phis) for phis in chunk_list(purview_sizes, 2)]]
    after [purview_sizes = normalize_sizes(..., separated_ces)]. *)
Definition marker_sizes (vertex_size_range : Q * Q)
    (separated_ces : list MICE.t) : result (list Q * list Q) :=
  purview_sizes ←
    normalize_sizes vertex_size_range.1 vertex_size_range.2 separated_ces;
  mechanism_sizes ← mapM py_min (chunk_list purview_sizes 2);
  Ok (purview_sizes, mechanism_sizes).

(** ** Embedding adapter (plot_ces) *)

(** [a[0::2]] and [a[1::2]]. *)
Definition evens {A} (a : list A) : list A :=
  (separate_cause_and_effect_purviews_for a).1.
Definition odds {A} (a : list A) : list A :=
  (separate_cause_and_effect_purviews_for a).2.

(** [features[0::2] + features[1::2]]: the cause row and the effect row of
    each distinction are added. *)
Definition collapse (features : matrix) : matrix :=
  Matrix (nrows features / 2)
         ((λ c, zip_with Nat.add (evens c) (odds c)) <$> columns features).

(** [coords[start::2] = src], on an array with enough rows. *)
Definition assign_every_other (start : nat) (src : list (list Q))
    (coords : list (list Q)) : list (list Q) :=
  foldl (λ c '(i, row), <[start + 2 * i := row]> c) coords (enumerate src).

(** numpy broadcasting of a vector against rows of [dim] cells. *)
Definition broadcast (dim : nat) (v : list Q) : result (list Q) :=
  if bool_decide (length v = dim) then Ok v
  else match v with
       | [c] => Ok (replicate dim c)
       | _ => Raise ValueError
       end.

(** The duplication of the embedded points, lines 401-408: an array of
    twice as many rows, the points on the even and on the odd rows, and
    the offset added to the odd rows. *)
Definition duplicate_coords (n_components : nat)
    (distinction_coords : list (list Q)) (cause_effect_offset : list Q)
  : result (list (list Q)) :=
  let coords :=
    replicate (length distinction_coords * 2) (replicate n_components 0%Q) in
  let coords := assign_every_other 0 distinction_coords coords in
  let coords := assign_every_other 1 distinction_coords coords in
  offset ← broadcast n_components cause_effect_offset;
  Ok (imap (λ i row, if Nat.odd i then zip_with float_add row offset
                     else row)
           coords).

Section Embedding.
(** The embedding service (UMAP) is external: any function that returns
    one point of [n_components] coordinates for each row of its data. *)
Variable get_coords : matrix → nat → list (list Q).

Definition embedding_adapter (order_on_z_axis : bool)
    (cause_effect_offset : list Q) (separated_ces : list MICE.t)
    (features : matrix) : result (list (list Q) * list Q) :=
  let umap_features := collapse features in
  coords ←
    (if order_on_z_axis
     then duplicate_coords 2 (get_coords umap_features 2)
                           (take 2 cause_effect_offset)
     else duplicate_coords 3 (get_coords umap_features 3)
                           cause_effect_offset);
  z ← (if order_on_z_axis
       then Ok ((λ c, inject_Z (Z.of_nat (length (MICE.mechanism c))))
                  <$> separated_ces)
       else mapM (λ row, getitem row 2) coords);
  Ok (coords, z).
End Embedding.

(** ** Q-fold grouping (plot_ces) *)

(** The values of the visibility options: [True], ["legendonly"] and
    [False]; only [False] is falsy. *)
Inductive flag := Shown | LegendOnly | Hidden.

Definition truthy (f : flag) : bool :=
  match f with Hidden => false | _ => true end.

(** The place of [plot_ces] that emits a trace: one of the five q-fold
    families, or the catch-all trace of a 2-relation or a 3-relation. *)
Inductive Family :=
| NodeQFold | MechanismQFold | CompoundPurviewQFold | RelationPurviewQFold
| MechanismCausePurviewQFold | All2Relations | All3Relations.

#[global] Instance Family_eq_dec : EqDecision Family.
Proof. solve_decision. Defined.

Inductive primitive :=
| Scatter3d (x y z : list Q) (line_width : Q) (line_color : string)
| Mesh3d (i j k : list nat) (opacity : Q).

(** A trace added to the figure; its [name] is its [legendgroup]. *)
Record trace := Trace
  { family : Family; visible : flag; legendgroup : string;
    showlegend : bool; shape : primitive }.

Module Scene.
(** The legend lists of one call of [plot_ces] and the traces added to
    the figure by its relation stages. *)
Record state := Build
  { legend_nodes : list nat;
    legend_mechanisms : list string;
    legend_purviews : list string;
    legend_relation_purviews : list string;
    legend_mechanism_cause_purviews : list string;
    fig : list trace }.

Definition init : state := Build [] [] [] [] [] [].

Definition add_trace (t : trace) (s : state) : state :=
  Build (legend_nodes s) (legend_mechanisms s) (legend_purviews s)
        (legend_relation_purviews s) (legend_mechanism_cause_purviews s)
        (fig s ++ [t]).

(** [if x not in legend: legend.append(x)] *)
Definition remember `{EqDecision A} (x : A) (legend : list A) : list A :=
  if bool_decide (x ∉ legend) then legend ++ [x] else legend.

Definition remember_node (node : nat) (s : state) : state :=
  Build (remember node (legend_nodes s)) (legend_mechanisms s)
        (legend_purviews s) (legend_relation_purviews s)
        (legend_mechanism_cause_purviews s) (fig s).
Definition remember_mechanism (label : string) (s : state) : state :=
  Build (legend_nodes s) (remember label (legend_mechanisms s))
        (legend_purviews s) (legend_relation_purviews s)
        (legend_mechanism_cause_purviews s) (fig s).
Definition remember_purview (label : string) (s : state) : state :=
  Build (legend_nodes s) (legend_mechanisms s)
        (remember label (legend_purviews s)) (legend_relation_purviews s)
        (legend_mechanism_cause_purviews s) (fig s).
Definition remember_relation_purview (label : string) (s : state) : state :=
  Build (legend_nodes s) (legend_mechanisms s) (legend_purviews s)
        (remember label (legend_relation_purviews s))
        (legend_mechanism_cause_purviews s) (fig s).
Definition remember_mechanism_cause_purview (label : string) (s : state)
  : state :=
  Build (legend_nodes s) (legend_mechanisms s) (legend_purviews s)
        (legend_relation_purviews s)
        (remember label (legend_mechanism_cause_purviews s)) (fig s).
End Scene.

(** The legend tags. *)
Definition node_tag (node_label : string) : string :=
  "Node " +:+ node_label +:+ " q-fold".
Definition mechanism_tag (mechanism_label : string) : string :=
  "Mechanism " +:+ mechanism_label +:+ " q-fold".
Definition compound_purview_tag (purview_label : string) : string :=
  "Compound Purview " +:+ purview_label +:+ " q-fold".
Definition relation_purview_tag (purview_label : string) : string :=
  "Relation Purview " +:+ purview_label +:+ " q-fold".
Definition mechanism_cause_purview_tag (mechanism_label purview_label : string)
  : string :=
  "Mechanism " +:+ mechanism_label +:+ " Cause Purview " +:+ purview_label
  +:+ " q-fold".

(** The unpacking of the zipped triangles into [i, j, k]: the transposed
    triangles, which must be exactly three tuples. *)
Definition unzip3 (triangles : list (list nat))
  : result (list nat * list nat * list nat) :=
  match triangles with
  | [] => Raise ValueError
  | t :: ts =>
      if bool_decide (foldr Nat.min (length t) (length <$> ts) = 3)
      then i ← mapM (λ t, getitem t 0) triangles;
           j ← mapM (λ t, getitem t 1) triangles;
           k ← mapM (λ t, getitem t 2) triangles;
           Ok (i, j, k)
      else Raise ValueError
  end.

(** The options of [plot_ces] read by its relation stages. *)
Record options := Options
  { edge_size_range : Q * Q;
    surface_size_range : Q * Q;
    show_edges : flag;
    show_mesh : flag;
    show_node_qfolds : flag;
    show_mechanism_qfolds : flag;
    show_compound_purview_qfolds : flag;
    show_relation_purview_qfolds : flag;
    show_cause_per_mechanism_purview_qfolds : flag;
    colorcode_2_relations : bool }.

Section Grouping.
(** [subsystem.node_labels] and [subsystem.node_indices]. *)
Variable node_labels : nat → string.
Variable node_indices : list nat.
Variable opts : options.
Variable ces : list Distinction.t.

(** The five sections of the loop body. The loop over the 2-relations
    and the loop over the 3-relations repeat them with a line and with a
    mesh trace; [mk] builds the trace of the current relation from the
    emitting place, the legend tag and [showlegend]. *)
Section Sections.
Variable mk : Family → string → bool → result trace.
Variable relation : Relation.t.

Definition node_qfolds (s : Scene.state) : result Scene.state :=
  let relation_nodes := flatten (Relation.mechanisms relation) in
  for_each
    (λ s node,
       let node_label := make_label [node] node_labels in
       if bool_decide (node ∈ relation_nodes) then
         t ← mk NodeQFold (node_tag node_label)
                (bool_decide (node ∉ Scene.legend_nodes s));
         Ok (Scene.remember_node node (Scene.add_trace t s))
       else Ok s)
    s node_indices.

Definition mechanism_qfolds (s : Scene.state) : result Scene.state :=
  let mechanisms_list := Distinction.mechanism <$> ces in
  for_each
    (λ s mechanism,
       let mechanism_label := make_label mechanism node_labels in
       if bool_decide (mechanism ∈ Relation.mechanisms relation) then
         t ← mk MechanismQFold (mechanism_tag mechanism_label)
                (bool_decide
                   (mechanism_label ∉ Scene.legend_mechanisms s));
         Ok (Scene.remember_mechanism mechanism_label
               (Scene.add_trace t s))
       else Ok s)
    s mechanisms_list.

Definition compound_purview_qfolds (s : Scene.state)
  : result Scene.state :=
  let purviews := Relation.purviews relation in
  for_each
    (λ s purview,
       let purview_label := make_label purview node_labels in
       t ← mk CompoundPurviewQFold (compound_purview_tag purview_label)
              (bool_decide (purview_label ∉ Scene.legend_purviews s));
       Ok (Scene.remember_purview purview_label (Scene.add_trace t s)))
    s purviews.

Definition relation_purview_qfold (s : Scene.state)
  : result Scene.state :=
  let purview := Relation.purview relation in
  let purview_label := make_label purview node_labels in
  t ← mk RelationPurviewQFold (relation_purview_tag purview_label)
         (bool_decide
            (purview_label ∉ Scene.legend_relation_purviews s));
  Ok (Scene.remember_relation_purview purview_label
        (Scene.add_trace t s)).

Definition mechanism_cause_purview_qfolds (s : Scene.state)
  : result Scene.state :=
  for_each
    (λ s distinction,
       let cause_purview := Distinction.cause_purview distinction in
       let mechanism := Distinction.mechanism distinction in
       let purview_label := make_label cause_purview node_labels in
       let mechanism_label := make_label mechanism node_labels in
       let mechanism_cause_purview_label :=
         mechanism_cause_purview_tag mechanism_label purview_label in
       if bool_decide (cause_purview ∈ Relation.purviews relation)
          && bool_decide (mechanism ∈ Relation.mechanisms relation)
       then
         t ← mk MechanismCausePurviewQFold mechanism_cause_purview_label
                (bool_decide
                   (mechanism_cause_purview_label
                    ∉ Scene.legend_mechanism_cause_purviews s));
         Ok (Scene.remember_mechanism_cause_purview
               mechanism_cause_purview_label (Scene.add_trace t s))
       else Ok s)
    s ces.
End Sections.

(** [s] when the option is falsy. *)
Definition when (option : flag)
    (section : Scene.state → result Scene.state) (s : Scene.state)
  : result Scene.state :=
  if truthy option then section s else Ok s.

(** The line trace of the 2-relation [r]. *)
Definition line (xs ys zs : list (list Q)) (two_relations_sizes : list Q)
    (relation_color : string) (r : nat)
    (place : Family) (tag : string) (show : bool) : result trace :=
  x ← getitem xs r;
  y ← getitem ys r;
  z ← getitem zs r;
  line_width ← getitem two_relations_sizes r;
  Ok (Trace place (show_edges opts) tag show
            (Scatter3d x y z line_width relation_color)).

(** The body of the loop over the 2-relations, lines 696-917. *)
Definition two_relation_traces (xs ys zs : list (list Q))
    (two_relations_sizes : list Q) (s : Scene.state)
    (item : nat * Relation.t) : result Scene.state :=
  let '(r, relation) := item in
  relation_color ← get_edge_color relation (colorcode_2_relations opts);
  let mk := line xs ys zs two_relations_sizes relation_color r in
  s ← when (show_node_qfolds opts) (node_qfolds mk relation) s;
  s ← when (show_mechanism_qfolds opts) (mechanism_qfolds mk relation) s;
  s ← when (show_compound_purview_qfolds opts)
           (compound_purview_qfolds mk relation) s;
  s ← when (show_relation_purview_qfolds opts)
           (relation_purview_qfold mk relation) s;
  s ← when (show_cause_per_mechanism_purview_qfolds opts)
           (mechanism_cause_purview_qfolds mk relation) s;
  t ← mk All2Relations "All 2-Relations" (bool_decide (r = 0));
  Ok (Scene.add_trace t s).

(** The 2-relations stage, lines 656-917. The data frame of the end
    points needs as many [x], [y] and [z] as line groups, an even
    number. *)
Definition two_relations_stage (features : matrix) (x y z : list Q)
    (relations : list Relation.t) (s : Scene.state)
  : result Scene.state :=
  if truthy (show_edges opts) then
    let edges := edges_of features in
    if bool_decide (edges ≠ []) then
      edges_x ← mapM (getitem x) edges;
      edges_y ← mapM (getitem y) edges;
      edges_z ← mapM (getitem z) edges;
      if Nat.even (length edges) then
        let two_relations :=
          filter (λ r, length (Relation.relata r) = 2) relations in
        _ ← purview_chunker two_relations;
        two_relations_sizes ←
          normalize_sizes (edge_size_range opts).1 (edge_size_range opts).2
                          two_relations;
        for_each
          (two_relation_traces (chunk_list edges_x 2) (chunk_list edges_y 2)
                               (chunk_list edges_z 2) two_relations_sizes)
          s (enumerate two_relations)
      else Raise ValueError
    else Ok s
  else Ok s.

(** The mesh trace of the triangle [r]; the traces of the compound
    purview and relation purview sections take [show_edges] as their
    visibility. *)
Definition mesh (i j k : list nat) (three_relations_sizes : list Q)
    (r : nat) (place : Family) (tag : string) (show : bool)
  : result trace :=
  ir ← getitem i r;
  jr ← getitem j r;
  kr ← getitem k r;
  opacity ← getitem three_relations_sizes r;
  let visible :=
    match place with
    | CompoundPurviewQFold | RelationPurviewQFold => show_edges opts
    | _ => show_mesh opts
    end in
  Ok (Trace place visible tag show (Mesh3d [ir] [jr] [kr] opacity)).

(** The body of the loop over the triangles, lines 936-1088. *)
Definition three_relation_traces (three_relations : list Relation.t)
    (i j k : list nat) (three_relations_sizes : list Q) (s : Scene.state)
    (item : nat * list nat) : result Scene.state :=
  let '(r, triangle) := item in
  relation ← getitem three_relations r;
  let mk := mesh i j k three_relations_sizes r in
  s ← when (show_node_qfolds opts) (node_qfolds mk relation) s;
  s ← when (show_mechanism_qfolds opts) (mechanism_qfolds mk relation) s;
  s ← when (show_compound_purview_qfolds opts)
           (compound_purview_qfolds mk relation) s;
  s ← when (show_relation_purview_qfolds opts)
           (relation_purview_qfold mk relation) s;
  t ← mk All3Relations "All 3-Relations" (bool_decide (r = 0));
  Ok (Scene.add_trace t s).

(** The 3-relations stage, lines 922-1088. *)
Definition three_relations_stage (features : matrix)
    (relations : list Relation.t) (s : Scene.state) : result Scene.state :=
  if truthy (show_mesh opts) then
    let triangles := triangles_of features in
    if bool_decide (triangles ≠ []) then
      let three_relations :=
        filter (λ r, length (Relation.relata r) = 3) relations in
      three_relations_sizes ←
        normalize_sizes (surface_size_range opts).1
                        (surface_size_range opts).2 three_relations;
      ijk ← unzip3 triangles;
      for_each
        (three_relation_traces three_relations ijk.1.1 ijk.1.2 ijk.2
                               three_relations_sizes)
        s (enumerate triangles)
    else Ok s
  else Ok s.

(** The relation stages of one call: the legend lists start empty, the
    two loops share them, and the traces they added are returned. *)
Definition relation_stages (features : matrix) (x y z : list Q)
    (relations : list Relation.t) : result (list trace) :=
  s ← two_relations_stage features x y z relations Scene.init;
  s ← three_relations_stage features relations s;
  Ok (Scene.fig s).
End Grouping.

(** ** plot_ces *)

(** What one call hands to the figure: the coordinates, the marker sizes
    and the traces of the relation stages. *)
Record scene := Scene
  { coords : list (list Q);
    z_coords : list Q;
    purview_sizes : list Q;
    mechanism_sizes : list Q;
    relation_traces : list trace }.

Section PlotCes.
Variable get_coords : matrix → nat → list (list Q).
Variable node_labels : nat → string.
Variable node_indices : list nat.

Definition plot_ces (ces : list Distinction.t) (relations : list Relation.t)
    (max_order : nat) (cause_effect_offset : list Q)
    (vertex_size_range : Q * Q) (order_on_z_axis : bool) (opts : options)
  : result scene :=
  (* Select only relations <= max_order *)
  let relations :=
    filter (λ r, length (Relation.relata r) ≤ max_order) relations in
  (* Separate CES into causes and effects *)
  let separated_ces := separate_ces ces in
  features ← feature_matrix separated_ces relations;
  cz ← embedding_adapter get_coords order_on_z_axis cause_effect_offset
                         separated_ces features;
  x ← mapM (λ row, getitem row 0) cz.1;
  y ← mapM (λ row, getitem row 1) cz.1;
  sizes ← marker_sizes vertex_size_range separated_ces;
  traces ← relation_stages node_labels node_indices opts ces features
                           x y cz.2 relations;
  Ok (Scene cz.1 cz.2 sizes.1 sizes.2 traces).
End PlotCes.

(** ** Notions used by the statements *)

(** The map that the second branch of [normalize_sizes] applies to each
    phi, [mn] and [mx] being the smallest and the largest phi. *)
Definition rescale (lo hi mn mx x : Q) : Q :=
  float_add lo
    (float_div (float_mul (float_sub x mn) (float_sub hi lo))
               (float_sub mx mn)).


(** The overlap categories of a 2-relation, from the purviews [p0] and
    [p1] of its relata and its own purview [pr]. *)
Definition isotext (p0 p1 pr : list nat) : Prop := p0 = p1 ∧ p1 = pr.
Definition sub_supertext (p0 p1 : list nat) : Prop :=
  p0 ≠ p1 ∧ (p0 ⊆ p1 ∨ p1 ⊆ p0).
Definition paratext (p0 p1 pr : list nat) : Prop :=
  (p0 = p1 ∧ p1 ≠ pr)
  ∨ ((∃ n, n ∈ p0 ∧ n ∈ p1) ∧ ¬ p0 ⊆ p1 ∧ ¬ p1 ⊆ p0).

(** The column that the loop of [feature_matrix] assigns for a relation. *)
Definition relation_column (ces : list MICE.t) (relation : Relation.t)
  : result (list nat) :=
  indices ← mapM (dict_getitem (index_map ces)) (Relation.relata relation);
  Ok (assign_ones (length ces) indices).

(** The cells of a matrix are 0 or 1. *)
Definition binary (features : matrix) : Prop :=
  ∀ p r x, cell features p r = Some x → x = 0 ∨ x = 1.

(** Membership in a list given by its elements. *)
Ltac elem_of_literal :=
  rewrite ?elem_of_cons, ?elem_of_nil; intuition congruence.



(** Two traces carry the same legend tag when the same place of the code
    emitted them under the same [legendgroup]. *)
Definition same_tag (t t' : trace) : Prop :=
  family t = family t' ∧ legendgroup t = legendgroup t'.

(** In a figure, the legend entry of a trace is shown exactly when no
    earlier trace carries its tag: the first trace of a tag shows it and
    the later ones do not. *)
Definition legend_shown_once (fig : list trace) : Prop :=
  ∀ before t after,
    fig = before ++ t :: after →
    (showlegend t = true ↔ ∀ t', t' ∈ before → ¬ same_tag t' t).

(** The tags that the legend lists of a state stand for. The catch-all
    traces have no list: their tags are read off the figure. *)
Definition seen (node_labels : nat → string) (s : Scene.state)
    (place : Family) (tag : string) : Prop :=
  match place with
  | NodeQFold =>
      ∃ node, node ∈ Scene.legend_nodes s
              ∧ node_tag (make_label [node] node_labels) = tag
  | MechanismQFold =>
      ∃ label, label ∈ Scene.legend_mechanisms s ∧ mechanism_tag label = tag
  | CompoundPurviewQFold =>
      ∃ label, label ∈ Scene.legend_purviews s
               ∧ compound_purview_tag label = tag
  | RelationPurviewQFold =>
      ∃ label, label ∈ Scene.legend_relation_purviews s
               ∧ relation_purview_tag label = tag
  | MechanismCausePurviewQFold =>
      tag ∈ Scene.legend_mechanism_cause_purviews s
  | All2Relations | All3Relations =>
      ∃ t, t ∈ Scene.fig s ∧ family t = place ∧ legendgroup t = tag
  end.

(** The invariant of the loops of the relation stages: the legend lists
    stand for the tags of the traces emitted so far, the legend of these
    traces is shown once, and the nodes remembered are nodes of the
    subsystem. *)
Record legend_invariant (node_labels : nat → string)
    (node_indices : list nat) (s : Scene.state) : Prop := LegendInvariant
  { seen_emitted :
      ∀ place tag,
        seen node_labels s place tag
        ↔ ∃ t, t ∈ Scene.fig s ∧ family t = place ∧ legendgroup t = tag;
    shown_once : legend_shown_once (Scene.fig s);
    known_nodes : ∀ node, node ∈ Scene.legend_nodes s → node ∈ node_indices }.

(** The invariant, with whether a catch-all trace of the 2-relations and
    of the 3-relations has been emitted. *)
Definition grouping_invariant (node_labels : nat → string)
    (node_indices : list nat) (any2 any3 : Prop) (s : Scene.state) : Prop :=
  legend_invariant node_labels node_indices s
  ∧ (seen node_labels s All2Relations "All 2-Relations" ↔ any2)
  ∧ (seen node_labels s All3Relations "All 3-Relations" ↔ any3).

(** A function that builds the trace it is asked for. *)
Definition builds (mk : Family → string → bool → result trace) : Prop :=
  ∀ place tag show t,
    mk place tag show = Ok t →
    family t = place ∧ legendgroup t = tag ∧ showlegend t = show.

(** A state that follows [s] by one more trace [t], emitted under a tag
    whose legend is shown when the tag was not seen, and seen from then
    on. *)
Definition emits (node_labels : nat → string) (node_indices : list nat)
    (s : Scene.state) (t : trace) (s' : Scene.state) : Prop :=
  Scene.fig s' = Scene.fig s ++ [t]
  ∧ (showlegend t = true
     ↔ ¬ seen node_labels s (family t) (legendgroup t))
  ∧ (∀ place tag,
       seen node_labels s' place tag
       ↔ seen node_labels s place tag
         ∨ (place = family t ∧ tag = legendgroup t))
  ∧ (∀ node, node ∈ Scene.legend_nodes s' → node ∈ node_indices).

(** ** A small structure

    Two distinctions over three nodes, with four relations among their
    causes and effects, on which the statements are exercised. *)
Module Example.
(** The float that a decimal literal stands for. *)
Definition float (q : Q) : Q := binary64 q.
Definition dA : Distinction.t :=
  Distinction.Build [0] [0; 1] (1 # 2) [0; 1] (1 # 4).
Definition dB : Distinction.t :=
  Distinction.Build [1] [1] (float (1 # 3)) [1; 2] (float (1 # 3)).
Definition cA : MICE.t := Distinction.cause dA.
Definition eA : MICE.t := Distinction.effect dA.
Definition cB : MICE.t := Distinction.cause dB.
Definition eB : MICE.t := Distinction.effect dB.
Definition ces : list Distinction.t := [dA; dB].
Definition r1 : Relation.t :=
  Relation.Build [cA; eA] [0; 1] (float (1 # 10)).
Definition r2 : Relation.t := Relation.Build [cA; cB] [1] (float (1 # 10)).
Definition r3 : Relation.t := Relation.Build [cB; eB] [1] (float (2 # 10)).
Definition r4 : Relation.t :=
  Relation.Build [cA; cB; eB] [1] (float (2 # 10)).
Definition relations : list Relation.t := [r1; r2; r3; r4].
(** A second relation of [cA] with the purview of [r1]. *)
Definition r1' : Relation.t :=
  Relation.Build [cA; cB] [0; 1] (float (1 # 10)).
(** A relation of [cA] with itself, and one of [cA] with [eB]. *)
Definition twice : Relation.t :=
  Relation.Build [cA; cA] [0] (float (1 # 10)).
Definition apart : Relation.t :=
  Relation.Build [cA; eB] [1] (float (1 # 10)).
(** The CES that lists both distinctions twice, separated. *)
Definition repeated : list MICE.t := [cA; eA; cA; eA].
Definition node_indices : list nat := [0; 1; 2].
Definition node_labels (node : nat) : string :=
  match node with 0 => "A" | 1 => "B" | _ => "C" end.
(** The default options of [plot_ces], with the node q-folds shown. *)
Definition opts : options :=
  Options (1 # 2, 4%Q) (float (5 # 1000), float (1 # 10))
          LegendOnly LegendOnly Shown
          LegendOnly Shown Shown Shown true.
Definition cause_effect_offset : list Q := [float (3 # 10); 0%Q; 0%Q].
Definition vertex_size_range : Q * Q := (10%Q, 40%Q).
(** An embedding that puts point [i] at [(i, ..., i)]. *)
Definition get_coords (data : matrix) (n_components : nat) : list (list Q) :=
  (λ i, replicate n_components (inject_Z (Z.of_nat i)))
    <$> seq 0 (nrows data).
End Example.

(** ** Further helpers of visualize.py *)

(** The four lists of [separate_cause_and_effect_for]. *)
Definition separate_cause_and_effect_for (coords : list (list Q))
  : result (list Q * list Q * list Q * list Q) :=
  for_each
    (λ '(causes_x, causes_y, effects_x, effects_y) '(i, row),
       x ← getitem row 0;
       y ← getitem row 1;
       if Nat.even i
       then Ok (causes_x ++ [x], causes_y ++ [y], effects_x, effects_y)
       else Ok (causes_x, causes_y, effects_x ++ [x], effects_y ++ [y]))
    ([], [], [], []) (enumerate coords).

(** The positions of the mechanism labels and markers, lines 453-458:
    [x[::2]] moved by half the first component of the offset, [y[::2]]
    and [z[::2]]. *)
Definition mechanism_positions (cause_effect_offset x y z : list Q)
  : result (list Q * list Q * list Q) :=
  xm ← mapM (λ c, o ← getitem cause_effect_offset 0;
                  Ok (float_add c (float_div o 2)))
            (evens x);
  Ok (xm, evens y, evens z).

(** [itertools.combinations(iterable, r)]: the subsequences of [r]
    entries, in the order of the positions. *)
Fixpoint combinations {A} (r : nat) (iterable : list A) : list (list A) :=
  match r, iterable with
  | 0, _ => [[]]
  | S _, [] => []
  | S r', x :: rest =>
      ((x ::.) <$> combinations r' rest) ++ combinations r rest
  end.

Definition all_triangles {A} (vertices : list A) : list (list A) :=
  combinations 3 vertices.

Definition all_edges {A} (vertices : list A) : list (list A) :=
  combinations 2 vertices.

(** ** Notions used by the further statements *)

(** The two kinds of trace of the relation stages. *)
Definition is_line (t : trace) : Prop :=
  match shape t with Scatter3d _ _ _ _ _ => True | Mesh3d _ _ _ _ => False end.
Definition is_mesh (t : trace) : Prop :=
  match shape t with Scatter3d _ _ _ _ _ => False | Mesh3d _ _ _ _ => True end.

(** The trace of a q-fold, as opposed to a catch-all trace. *)
Definition is_qfold (t : trace) : Prop :=
  family t ≠ All2Relations ∧ family t ≠ All3Relations.

(** A line of the 2-relations stage and a mesh of the 3-relations stage,
    with the visibility the code gives them. *)
Definition edge_trace (opts : options) (t : trace) : Prop :=
  is_line t ∧ visible t = show_edges opts ∧ family t ≠ All3Relations.
Definition triangle_trace (opts : options) (t : trace) : Prop :=
  is_mesh t
  ∧ family t ≠ All2Relations ∧ family t ≠ MechanismCausePurviewQFold
  ∧ visible t = match family t with
                | CompoundPurviewQFold | RelationPurviewQFold =>
                    show_edges opts
                | _ => show_mesh opts
                end.

(** The state [s] follows [s0] by traces that satisfy [T]. *)
Definition extends (T : trace → Prop) (s0 s : Scene.state) : Prop :=
  ∃ ts, Scene.fig s = Scene.fig s0 ++ ts ∧ Forall T ts.

(** The traces of one pass through a loop body: the q-fold traces of the
    relation, then its catch-all trace, emitted at [place]. *)
Definition relation_group (T : trace → Prop) (place : Family)
    (group : list trace) : Prop :=
  ∃ ts t, group = ts ++ [t]
          ∧ Forall (λ t, T t ∧ is_qfold t) ts
          ∧ T t ∧ family t = place.

(* ===================================================================== *)
(** * Properties *)
(* ===================================================================== *)

(** ** Floating point rounding *)

Section Rounding.
Local Open Scope Q_scope.

#[global] Instance rne_proper : Proper (Qeq ==> eq) rne.
Proof.
  intros x y Hxy. unfold rne. rewrite (Qfloor_comp x y Hxy).
  assert (x - inject_Z (Qfloor y) == y - inject_Z (Qfloor y)) as ->
    by (by rewrite Hxy).
  done.
Qed.

Lemma rne_bounds (x : Q) :
  (rne x = Qfloor x ∨ rne x = Qfloor x + 1)%Z.
Proof.
  unfold rne. destruct (_ ?= _); [destruct (Z.even _)|..]; auto.
Qed.

Lemma rne_Z (z : Z) : rne (inject_Z z) = z.
Proof.
  unfold rne. rewrite Qfloor_Z.
  destruct (Qcompare_spec (inject_Z z - inject_Z z) (1 # 2)); [lra|done|lra].
Qed.

Lemma rne_mono (x y : Q) : x <= y → (rne x <= rne y)%Z.
Proof.
  intros Hxy. pose proof (Qfloor_resp_le x y Hxy) as Hfloor.
  destruct (Z.eq_dec (Qfloor x) (Qfloor y)) as [Heq|Hne].
  - unfold rne. rewrite Heq.
    destruct (Qcompare_spec (y - inject_Z (Qfloor y)) (1 # 2));
      destruct (Qcompare_spec (x - inject_Z (Qfloor y)) (1 # 2));
      try (destruct (Z.even (Qfloor y))); try lia; lra.
  - destruct (rne_bounds x) as [-> | ->], (rne_bounds y) as [-> | ->]; lia.
Qed.
End Rounding.

Section Logarithm.
Local Open Scope Q_scope.

Lemma pow2_pos (e : Z) : 0 < 2 ^ e.
Proof. by apply Qpower_0_lt. Qed.

Lemma pow2_plus (a b : Z) : 2 ^ (a + b) == 2 ^ a * 2 ^ b.
Proof. by apply Qpower_plus. Qed.

Lemma pow2_succ (a : Z) : 2 ^ (a + 1) == 2 ^ a * 2.
Proof. by rewrite pow2_plus. Qed.

Lemma pow2_le (a b : Z) : (a <= b)%Z → 2 ^ a <= 2 ^ b.
Proof. intros. by apply Qpower_le_compat_l. Qed.

Lemma pow2_lt (a b : Z) : (a < b)%Z → 2 ^ a < 2 ^ b.
Proof. intros. by apply Qpower_lt_compat_l. Qed.

Lemma pow2_Z (a : Z) : (0 <= a)%Z → 2 ^ a == inject_Z (2 ^ a).
Proof. intros. by rewrite Zpower_Qpower. Qed.

Lemma log2_bounds (n : Z) :
  (0 < n)%Z → 2 ^ Z.log2 n <= inject_Z n ∧ inject_Z n < 2 ^ Z.log2 n * 2.
Proof.
  intros Hn. destruct (Z.log2_spec n Hn) as [Hlo Hhi].
  pose proof (Z.log2_nonneg n) as Hnn.
  rewrite <- pow2_succ, !pow2_Z by lia. split.
  - by rewrite <- Zle_Qle.
  - rewrite <- Zlt_Qlt. by rewrite Z.add_1_r.
Qed.

(** [ilog2 q] is the integer part of the binary logarithm of [q]. *)
Lemma ilog2_spec (q : Q) :
  0 < q → 2 ^ ilog2 q <= q ∧ q < 2 ^ ilog2 q * 2.
Proof.
  intros Hq. destruct q as [n d]. unfold ilog2. cbn [Qnum Qden].
  assert (Hn : (0 < n)%Z).
  { unfold Qlt in Hq. simpl in Hq. lia. }
  destruct (log2_bounds n Hn) as [Hn1 Hn2].
  destruct (log2_bounds (Zpos d) eq_refl) as [Hd1 Hd2].
  set (a := Z.log2 n) in *. set (b := Z.log2 (Zpos d)) in *.
  pose proof (pow2_pos a) as Ha. pose proof (pow2_pos b) as Hb.
  assert (Hk : 2 ^ (a - b) == 2 ^ a / 2 ^ b) by (by apply Qpower_minus).
  assert (Hk1 : 2 ^ (a - b - 1) * 2 == 2 ^ (a - b)).
  { rewrite <- pow2_succ. by replace (a - b - 1 + 1)%Z with (a - b)%Z by lia. }
  assert (Hnd : n # d == inject_Z n / inject_Z (Zpos d))
    by apply Qmake_Qdiv.
  assert (HD : 0 < inject_Z (Zpos d)) by (by rewrite <- (Zlt_Qlt 0)).
  assert (Hupper : n # d < 2 ^ (a - b) * 2).
  { rewrite Hnd, Hk. apply Qlt_shift_div_r; [done|].
    assert (2 ^ a / 2 ^ b * 2 * inject_Z (Z.pos d)
            == (2 ^ a * 2) * (inject_Z (Z.pos d) / 2 ^ b)) as ->
      by (field; lra).
    assert (1 <= inject_Z (Z.pos d) / 2 ^ b)
      by (apply Qle_shift_div_l; lra).
    nra. }
  assert (Hlower : 2 ^ (a - b - 1) < n # d).
  { assert (2 ^ (a - b - 1) == 2 ^ a / (2 ^ b * 2)) as ->.
    { rewrite <- (Qmult_inj_r _ _ 2) by lra. rewrite Hk1, Hk. field. lra. }
    rewrite Hnd. apply Qlt_shift_div_l; [done|].
    assert (2 ^ a / (2 ^ b * 2) * inject_Z (Z.pos d)
            == 2 ^ a * (inject_Z (Z.pos d) / (2 ^ b * 2))) as ->
      by (field; lra).
    assert (inject_Z (Z.pos d) / (2 ^ b * 2) < 1)
      by (apply Qlt_shift_div_r; lra).
    nra. }
  destruct (Qle_bool (2 ^ (a - b)) (n # d)) eqn:Hle.
  - apply Qle_bool_iff in Hle. done.
  - assert (Hlt : n # d < 2 ^ (a - b)).
    { apply Qnot_le_lt. intros Hc. apply Qle_bool_iff in Hc. congruence. }
    rewrite Hk1. split; [by apply Qlt_le_weak|done].
Qed.


Lemma ilog2_mono (p q : Q) : 0 < p → p <= q → (ilog2 p <= ilog2 q)%Z.
Proof.
  intros Hp Hpq. destruct (ilog2_spec p Hp) as [Hp1 _].
  destruct (ilog2_spec q) as [_ Hq2]; [lra|].
  rewrite <- pow2_succ in Hq2.
  assert (2 ^ ilog2 p < 2 ^ (ilog2 q + 1)) as H%Qpower_lt_compat_l_inv by lra;
    [lia|done].
Qed.
End Logarithm.

Section Binary64.
Local Open Scope Q_scope.

Lemma Qabs_nonzero (q : Q) : ¬ q == 0 → 0 < Qabs q.
Proof.
  intros Hq. destruct (Qlt_le_dec 0 (Qabs q)) as [|Hle]; [done|].
  apply Qabs_Qle_condition in Hle. destruct Hq. lra.
Qed.

Lemma round_to_mono (e : Z) (x y : Q) :
  x <= y → round_to e x <= round_to e y.
Proof.
  intros Hxy. unfold round_to. pose proof (pow2_pos e) as He.
  apply Qmult_le_compat_r; [|lra]. rewrite <- Zle_Qle. apply rne_mono.
  unfold Qdiv. apply Qmult_le_compat_r; [done|].
  apply Qlt_le_weak, Qinv_lt_0_compat, He.
Qed.

(** The multiples of [2 ^ e'] are multiples of [2 ^ e] for [e <= e']:
    rounding to the finer grid leaves them as they are. *)
Lemma round_to_multiple (e e' z : Z) :
  (e <= e')%Z → round_to e (inject_Z z * 2 ^ e') == inject_Z z * 2 ^ e'.
Proof.
  intros He. unfold round_to. pose proof (pow2_pos e) as Hpos.
  assert (He' : 2 ^ e' == 2 ^ (e' - e) * 2 ^ e).
  { rewrite <- pow2_plus. by replace (e' - e + e)%Z with e' by lia. }
  assert (Hq : inject_Z z * 2 ^ e' / 2 ^ e == inject_Z (z * 2 ^ (e' - e))).
  { rewrite inject_Z_mult, <- pow2_Z by lia. rewrite He'. field. lra. }
  rewrite Hq, rne_Z, inject_Z_mult, <- pow2_Z by lia. rewrite He'. ring.
Qed.

Lemma round_to_0 (e : Z) : round_to e 0 == 0.
Proof.
  pose proof (round_to_multiple e e 0 ltac:(lia)) as H.
  assert (0 == inject_Z 0 * 2 ^ e) as Hz by ring.
  unfold round_to in *. rewrite Hz at 1. rewrite H. ring.
Qed.

Lemma exponent_upper (q : Q) :
  ¬ q == 0 → Qabs q < 2 ^ (exponent q + 53).
Proof.
  intros Hq.
  pose proof (Qabs_nonzero q Hq) as Hpos.
  destruct (ilog2_spec (Qabs q) Hpos) as [_ Hhi].
  rewrite <- pow2_succ in Hhi.
  eapply Qlt_le_trans; [exact Hhi|]. apply pow2_le. unfold exponent. lia.
Qed.

Lemma exponent_lower (q : Q) :
  ¬ q == 0 → (-1074 < exponent q)%Z → 2 ^ (exponent q + 52) <= Qabs q.
Proof.
  intros Hq He.
  pose proof (Qabs_nonzero q Hq) as Hpos.
  destruct (ilog2_spec (Qabs q) Hpos) as [Hlo _].
  unfold exponent in *.
  replace (Z.max (ilog2 (Qabs q) - 52) (-1074) + 52)%Z with (ilog2 (Qabs q))
    by lia.
  done.
Qed.

Lemma exponent_mono (x y : Q) :
  ¬ x == 0 → Qabs x <= Qabs y → (exponent x <= exponent y)%Z.
Proof.
  intros Hx Hxy.
  pose proof (Qabs_nonzero x Hx) as Hpos.
  pose proof (ilog2_mono _ _ Hpos Hxy). unfold exponent. lia.
Qed.

Lemma binary64_round64 (q : Q) : binary64 q == round64 (Qred q).
Proof.
  unfold binary64, round64. destruct (Qeq_bool (Qred q) 0); [done|].
  apply Qred_correct.
Qed.

Lemma round64_sign (q : Q) :
  (0 <= q → 0 <= round64 q) ∧ (q <= 0 → round64 q <= 0).
Proof.
  unfold round64. destruct (Qeq_bool q 0); [split; intros; lra|].
  split; intros Hq.
  - rewrite <- (round_to_0 (exponent q)). by apply round_to_mono.
  - rewrite <- (round_to_0 (exponent q)). by apply round_to_mono.
Qed.

Lemma round64_mono (x y : Q) : x <= y → round64 x <= round64 y.
Proof.
  intros Hxy.
  destruct (Qlt_le_dec 0 x) as [Hx|Hx];
    [|destruct (Qlt_le_dec 0 y) as [Hy|Hy]].
  - (* 0 < x <= y *)
    assert (Hy : 0 < y) by lra.
    unfold round64.
    destruct (Qeq_bool x 0) eqn:Ex; [apply Qeq_bool_iff in Ex; lra|].
    destruct (Qeq_bool y 0) eqn:Ey; [apply Qeq_bool_iff in Ey; lra|].
    assert (Hnx : ¬ x == 0) by lra. assert (Hny : ¬ y == 0) by lra.
    assert (Hxy' : Qabs x <= Qabs y) by (rewrite !Qabs_pos; lra).
    pose proof (exponent_mono x y Hnx Hxy') as He.
    destruct (Z.eq_dec (exponent x) (exponent y)) as [Heq|Hne].
    { rewrite Heq. by apply round_to_mono. }
    pose proof (exponent_upper x Hnx) as Hux.
    pose proof (exponent_lower y Hny ltac:(unfold exponent in *; lia)) as Hly.
    rewrite Qabs_pos in Hux, Hly by lra.
    assert (Hgrid : 2 ^ (exponent x + 53) <= 2 ^ (exponent y + 52))
      by (apply pow2_le; lia).
    set (B := inject_Z 1 * 2 ^ (exponent y + 52)).
    assert (HB : B == 2 ^ (exponent y + 52)) by (unfold B; ring).
    eapply Qle_trans; [apply (round_to_mono _ x B); lra|].
    eapply Qle_trans; [|apply (round_to_mono _ B y); lra].
    unfold B. rewrite !round_to_multiple by lia. lra.
  - (* x <= 0 < y *)
    destruct (round64_sign x) as [_ Hsx], (round64_sign y) as [Hsy _].
    specialize (Hsx Hx). specialize (Hsy ltac:(lra)). lra.
  - (* x <= y <= 0 *)
    unfold round64.
    destruct (Qeq_bool y 0) eqn:Ey.
    { destruct (round64_sign x) as [_ Hsx]. unfold round64 in Hsx.
      by apply Hsx. }
    destruct (Qeq_bool x 0) eqn:Ex.
    { apply Qeq_bool_iff in Ex. apply Qeq_bool_neq in Ey. lra. }
    apply Qeq_bool_neq in Ex, Ey.
    assert (Hyx : Qabs y <= Qabs x) by (rewrite !Qabs_neg; lra).
    pose proof (exponent_mono y x Ey Hyx) as He.
    destruct (Z.eq_dec (exponent x) (exponent y)) as [Heq|Hne].
    { rewrite Heq. by apply round_to_mono. }
    pose proof (exponent_upper y Ey) as Huy.
    pose proof (exponent_lower x Ex ltac:(unfold exponent in *; lia)) as Hlx.
    rewrite Qabs_neg in Huy, Hlx by lra.
    assert (Hgrid : 2 ^ (exponent y + 53) <= 2 ^ (exponent x + 52))
      by (apply pow2_le; lia).
    set (B := inject_Z (-1) * 2 ^ (exponent x + 52)).
    assert (HB : B == - 2 ^ (exponent x + 52)) by (unfold B; ring).
    eapply Qle_trans; [apply (round_to_mono _ x B); lra|].
    eapply Qle_trans; [|apply (round_to_mono _ B y); lra].
    unfold B. rewrite !round_to_multiple by lia. lra.
Qed.

#[global] Instance binary64_proper : Proper (Qeq ==> Qeq) binary64.
Proof.
  intros x y Hxy. unfold binary64. by rewrite (Qred_complete x y Hxy).
Qed.

(** Rounding keeps the order. *)
Lemma binary64_mono (x y : Q) : x <= y → binary64 x <= binary64 y.
Proof.
  intros Hxy. rewrite !binary64_round64. apply round64_mono.
  by rewrite !Qred_correct.
Qed.

Lemma binary64_0 : binary64 0 == 0.
Proof. reflexivity. Qed.

Lemma binary64_sign (q : Q) :
  (0 <= q → 0 <= binary64 q) ∧ (q <= 0 → binary64 q <= 0).
Proof.
  split; intros Hq.
  - rewrite <- binary64_0. by apply binary64_mono.
  - rewrite <- binary64_0. by apply binary64_mono.
Qed.
End Binary64.

Section Floats.
Local Open Scope Q_scope.

#[global] Instance round_to_proper (e : Z) : Proper (Qeq ==> Qeq) (round_to e).
Proof. intros x y Hxy. unfold round_to. by rewrite Hxy. Qed.

Lemma exponent_proper (x y : Q) : ¬ x == 0 → x == y → exponent x = exponent y.
Proof.
  intros Hx Hxy. assert (Hy : ¬ y == 0) by (by rewrite <- Hxy).
  apply Z.le_antisymm; apply exponent_mono; try done; rewrite Hxy;
    apply Qle_refl.
Qed.


End Floats.

(** ** Size normalizer *)

Section Sizes.
Local Open Scope Q_scope.






(** The map of the second branch. *)
#[global] Instance rescale_proper lo hi mn mx :
  Proper (Qeq ==> Qeq) (rescale lo hi mn mx).
Proof.
  intros x y Hxy. unfold rescale, float_add, float_div, float_mul, float_sub.
  by rewrite Hxy.
Qed.



End Sizes.

Section SizesSpec.
Local Open Scope Q_scope.
Context `{HasPhi A}.



Lemma normalize_sizes_cons (lo hi : Q) (e : A) (elements : list A) :
  let mn := array_min (phi_of e) (phi_of <$> elements) in
  let mx := array_max (phi_of e) (phi_of <$> elements) in
  normalize_sizes lo hi (e :: elements)
  = if Qeq_bool mx mn
    then Ok ((λ _, float_div (float_add lo hi) 2)
               <$> (phi_of <$> e :: elements))
    else Ok (rescale lo hi mn mx <$> (phi_of <$> e :: elements)).
Proof. reflexivity. Qed.

End SizesSpec.


(** ** Relation classifier *)

Lemma all_in_subseteq (p q : list nat) : all_in p q = true ↔ p ⊆ q.
Proof.
  unfold all_in. rewrite forallb_forall. split.
  - intros Hall n Hn. apply list_elem_of_In in Hn.
    by apply Hall, bool_decide_eq_true in Hn.
  - intros Hsub n Hn. apply bool_decide_eq_true, Hsub.
    by apply list_elem_of_In.
Qed.

Lemma any_in_overlap (p q : list nat) :
  any_in p q = true ↔ ∃ n, n ∈ p ∧ n ∈ q.
Proof.
  unfold any_in. rewrite existsb_exists. split.
  - intros (n & Hn & Hq). exists n. split; [by apply list_elem_of_In|].
    by apply bool_decide_eq_true in Hq.
  - intros (n & Hn & Hq). exists n. split; [by apply list_elem_of_In|].
    by apply bool_decide_eq_true.
Qed.

Lemma get_edge_color_pair (relation : Relation.t) (m0 m1 : MICE.t) :
  Relation.relata relation = [m0; m1] →
  let p0 := MICE.purview m0 in
  let p1 := MICE.purview m1 in
  let pr := Relation.purview relation in
  get_edge_color relation true
  = if bool_decide (p0 = p1) && bool_decide (p1 = pr) then Ok "fuchsia"
    else if bool_decide (p0 ≠ p1) && (all_in p0 p1 || all_in p1 p0)
    then Ok "indigo"
    else if (bool_decide (p0 = p1) && bool_decide (p1 ≠ pr))
            || (any_in p0 p1 && negb (all_in p0 p1))
    then Ok "cyan"
    else Raise ValueError.
Proof.
  intros Hrel. unfold get_edge_color, Relation.purviews. by rewrite Hrel.
Qed.

(** C3. With colour coding, a 2-relation is isotext (fuchsia) when
    [p0 == p1 == pr], sub/supertext (indigo) when [p0 != p1] and one
    purview is included in the other, paratext (cyan) when
    [p0 == p1 != pr] or the purviews overlap and neither includes the
    other, and any other shape raises [ValueError]; without colour coding
    every edge is teal. *)
Theorem get_edge_color_classifies (relation : Relation.t) (m0 m1 : MICE.t) :
  Relation.relata relation = [m0; m1] →
  let p0 := MICE.purview m0 in
  let p1 := MICE.purview m1 in
  let pr := Relation.purview relation in
  get_edge_color relation false = Ok "teal"
  ∧ (isotext p0 p1 pr → get_edge_color relation true = Ok "fuchsia")
  ∧ (sub_supertext p0 p1 → get_edge_color relation true = Ok "indigo")
  ∧ (paratext p0 p1 pr → get_edge_color relation true = Ok "cyan")
  ∧ (¬ isotext p0 p1 pr → ¬ sub_supertext p0 p1 → ¬ paratext p0 p1 pr →
     get_edge_color relation true = Raise ValueError).
Proof.
  intros Hrel p0 p1 pr. rewrite (get_edge_color_pair _ _ _ Hrel).
  fold p0 p1 pr. unfold isotext, sub_supertext, paratext.
  pose proof (all_in_subseteq p0 p1) as H01.
  pose proof (all_in_subseteq p1 p0) as H10.
  pose proof (any_in_overlap p0 p1) as Hany.
  split; [done|].
  assert (Hsame : p0 = p1 → p0 ⊆ p1) by (by intros ->).
  destruct (all_in p0 p1), (all_in p1 p0), (any_in p0 p1);
    repeat case_bool_decide; simpl;
    repeat match goal with
      | H : true = true ↔ _ |- _ => apply proj1 in H; specialize (H eq_refl)
      | H : false = true ↔ ?P |- _ =>
          assert (¬ P) by (intros ?%H; discriminate); clear H
      end;
    intuition (try congruence).
Qed.

(** ** purview_chunker *)

Lemma index_here `{EqDecision A} (x : A) (l : list A) : index (x :: l) x = Ok 0.
Proof. unfold index. simpl. by rewrite decide_True. Qed.

Lemma index_next `{EqDecision A} (x y : A) (l : list A) (i : nat) :
  x ≠ y → index l x = Ok i → index (y :: l) x = Ok (S i).
Proof.
  unfold index. intros Hne Hi. simpl. rewrite decide_False by done.
  destruct (list_find (λ z, z = x) l) as [[j z]|]; simpl in *; congruence.
Qed.

(** The first relation opens a chunk before the loop and is visited again
    by the loop: being equal to itself it closes that chunk, so the
    first chunk returned is always the first relation alone. *)
Lemma purview_chunker_first_chunk (r : Relation.t) (rs : list Relation.t)
    (chunks : list (list Relation.t)) (indices : list (list nat)) :
  purview_chunker (r :: rs) = Ok (chunks, indices) →
  chunks !! 0 = Some [r] ∧ indices !! 0 = Some [0].
Proof.
  unfold purview_chunker. simpl.
  destruct (getitem (Relation.mechanisms r) 0) as [m|]; simpl; [|done].
  rewrite !bool_decide_eq_true_2 by done.
  rewrite bool_decide_eq_false_2 by (by intros []). simpl.
  rewrite index_here. simpl.
  set (st := Chunker.Build _ _ _ _ _).
  assert (Hst : Chunker.purview_chunked_list st !! 0 = Some [r]
                ∧ Chunker.index_chunk_list st !! 0 = Some [0]) by done.
  generalize dependent st. generalize (r :: rs) at 1 2 as whole.
  induction rs as [|r' rs IH]; intros whole st Hst; simpl.
  - intros [= <- <-]. done.
  - destruct (getitem (Relation.mechanisms r') 0); simpl; [|done].
    destruct (getitem _ 0); simpl; [|done].
    destruct (index _ r') as [i|]; simpl;
      [|by destruct (_ && _)].
    destruct (_ && _); simpl; apply IH; simpl; destruct Hst; split;
      try done; by apply lookup_app_l_Some.
Qed.

(** C2 on the code. On the scenario of the specification (two distinct
    relations sharing their first mechanism and purview, then a third one
    that differs), the chunks returned are [[r1]; [r1; r2]] with the
    indices [[0]; [0; 1]]: the first relation is there twice and the chunk
    of the last one is never returned. *)
Theorem purview_chunker_scenario (r1 r2 r3 : Relation.t) (A B : list nat) :
  Relation.mechanisms r1 !! 0 = Some A →
  Relation.mechanisms r2 !! 0 = Some A →
  Relation.mechanisms r3 !! 0 = Some B →
  Relation.purview r1 = Relation.purview r2 →
  r1 ≠ r2 →
  A ≠ B ∨ Relation.purview r3 ≠ Relation.purview r2 →
  purview_chunker [r1; r2; r3] = Ok ([[r1]; [r1; r2]], [[0]; [0; 1]]).
Proof.
  intros H1 H2 H3 Hp Hne Hdiff.
  assert (r3 ≠ r1 ∧ r3 ≠ r2) as [Hne31 Hne32].
  { split; intros ->; destruct Hdiff; congruence. }
  assert (E1 : index [r1; r2; r3] r1 = Ok 0) by apply index_here.
  assert (E2 : index [r1; r2; r3] r2 = Ok 1)
    by (apply index_next; [done|apply index_here]).
  assert (E3 : index [r1; r2; r3] r3 = Ok 2)
    by (do 2 (apply index_next; [done|]); apply index_here).
  assert (D1 : bool_decide (r1 ≠ r1) = false)
    by (by apply bool_decide_eq_false_2; intros []).
  assert (D2 : bool_decide (A = A) = true) by (by apply bool_decide_eq_true_2).
  assert (D3 : bool_decide (Relation.purview r2 = Relation.purview r1) = true)
    by (by apply bool_decide_eq_true_2).
  assert (D4 : bool_decide (r2 ≠ r1) = true)
    by (by apply bool_decide_eq_true_2).
  assert (D5 : bool_decide (B = A)
               && bool_decide (Relation.purview r3 = Relation.purview r2)
               = false).
  { apply andb_false_iff. destruct Hdiff; [left|right];
      by apply bool_decide_eq_false_2. }
  unfold purview_chunker, getitem. simpl.
  repeat (rewrite ?H1, ?H2, ?H3, ?E1, ?E2, ?E3, ?D1, ?D2, ?D3, ?D4, ?D5,
            ?andb_false_r; simpl).
  done.
Qed.

(** ** Loops and comprehensions in [result] *)

Lemma mapM_Ok {A B} (f : A → result B) (l : list A) (k : list B) :
  mapM f l = Ok k ↔ Forall2 (λ a b, f a = Ok b) l k.
Proof.
  revert k. induction l as [|a l IH]; intros k; simpl.
  - split; [intros [= <-]; constructor|by inversion 1].
  - split.
    + destruct (f a) as [b|e] eqn:Hfa; simpl; [|done].
      destruct (mapM f l) as [k'|e] eqn:Hl; simpl; [|done].
      intros [= <-]. constructor; [done|by apply IH].
    + intros (b & k' & Hb & Hk & ->)%Forall2_cons_inv_l.
      rewrite Hb. simpl. apply IH in Hk as ->. done.
Qed.

Lemma mapM_Ok_length {A B} (f : A → result B) (l : list A) (k : list B) :
  mapM f l = Ok k → length k = length l.
Proof. intros Hk%mapM_Ok. by apply Forall2_length in Hk. Qed.

Lemma mapM_Ok_lookup {A B} (f : A → result B) (l : list A) (k : list B)
    (i : nat) (a : A) :
  mapM f l = Ok k → l !! i = Some a → ∃ b, k !! i = Some b ∧ f a = Ok b.
Proof.
  intros Hk%mapM_Ok Ha.
  destruct (Forall2_lookup_l _ _ _ _ _ Hk Ha) as (b & ? & ?). eauto.
Qed.

Lemma mapM_total {A B} (f : A → result B) (l : list A) :
  (∀ a, a ∈ l → ∃ b, f a = Ok b) → ∃ k, mapM f l = Ok k.
Proof.
  induction l as [|a l IH]; intros Hl; simpl; [by eexists|].
  destruct (Hl a) as [b ->]; [left|]. simpl.
  destruct IH as [k ->]; [|by eexists].
  intros a' Ha'. apply Hl. by right.
Qed.

(** ** Chunks of two *)

Lemma separate_ces_length (ces : list Distinction.t) :
  length (separate_ces ces) = 2 * length ces.
Proof.
  unfold separate_ces. induction ces as [|d ces IH]; [done|].
  rewrite bind_cons, length_app, IH. simpl. lia.
Qed.

Lemma separate_ces_lookup (ces : list Distinction.t) (i : nat)
    (d : Distinction.t) :
  ces !! i = Some d →
  separate_ces ces !! (2 * i) = Some (Distinction.cause d)
  ∧ separate_ces ces !! (2 * i + 1) = Some (Distinction.effect d).
Proof.
  unfold separate_ces. revert i.
  induction ces as [|d' ces IH]; intros i Hi; [done|].
  rewrite bind_cons. destruct i as [|i]; simpl in Hi.
  - by injection Hi as ->.
  - replace (2 * S i) with (S (S (2 * i))) by lia.
    replace (S (S (2 * i)) + 1) with (S (S (2 * i + 1))) by lia.
    simpl. by apply IH.
Qed.

Lemma range_step_even (n : nat) :
  range_step (2 * n) 2 = (λ k, k * 2) <$> seq 0 n.
Proof.
  unfold range_step. do 2 f_equal.
  replace (2 * n + 2 - 1) with (1 + n * 2) by lia.
  rewrite Nat.div_add by done. done.
Qed.

Lemma chunk_list_pairs {A} (l : list A) (n i : nat) (a b : A) :
  length l = 2 * n →
  l !! (2 * i) = Some a → l !! (2 * i + 1) = Some b →
  chunk_list l 2 !! i = Some [a; b].
Proof.
  intros Hlen Ha Hb. unfold chunk_list. rewrite Hlen, range_step_even.
  assert (i < n) by (apply lookup_lt_Some in Hb; lia).
  rewrite !list_lookup_fmap, lookup_seq_lt by done. simpl.
  unfold slice. replace (i * 2 + 2 - i * 2) with 2 by lia.
  f_equal. replace (i * 2) with (2 * i) by lia.
  replace (2 * i + 1) with (S (2 * i)) in Hb by lia.
  by rewrite (drop_S _ a (2 * i)), (drop_S _ b (S (2 * i))).
Qed.

Lemma chunk_list_pairs_length {A} (l : list A) (n : nat) :
  length l = 2 * n → length (chunk_list l 2) = n.
Proof.
  intros Hlen. unfold chunk_list.
  by rewrite Hlen, range_step_even, !length_fmap, length_seq.
Qed.

Lemma chunk_list_pairs_elem {A} (l : list A) (n : nat) (c : list A) :
  length l = 2 * n → c ∈ chunk_list l 2 →
  ∃ i a b, l !! (2 * i) = Some a ∧ l !! (2 * i + 1) = Some b ∧ c = [a; b].
Proof.
  intros Hlen (i & Hi)%list_elem_of_lookup.
  assert (Hin : i < n).
  { apply lookup_lt_Some in Hi. by rewrite (chunk_list_pairs_length l n) in Hi. }
  destruct (lookup_lt_is_Some_2 l (2 * i)) as [a Ha]; [lia|].
  destruct (lookup_lt_is_Some_2 l (2 * i + 1)) as [b Hb]; [lia|].
  exists i, a, b. rewrite (chunk_list_pairs l n i a b) in Hi by done.
  by injection Hi as <-.
Qed.

(** ** Marker sizes *)

Lemma normalize_sizes_length `{HasPhi A} (lo hi : Q) (elements : list A) :
  elements ≠ [] →
  ∃ sizes, normalize_sizes lo hi elements = Ok sizes
           ∧ length sizes = length elements.
Proof.
  destruct elements as [|e elements]; [done|]. intros _.
  rewrite normalize_sizes_cons.
  destruct (Qeq_bool _ _); eexists; (split; [done|]);
    by rewrite !length_fmap.
Qed.

Lemma py_min_pair (a b : Q) :
  ∃ m, py_min [a; b] = Ok m ∧ (m == Qmin a b)%Q ∧ (m = a ∨ m = b).
Proof.
  simpl. destruct (Qlt_le_dec b a) as [Hlt|Hle]; eexists; (split; [done|]).
  - split; [|by right]. symmetry. apply Q.min_r. by apply Qlt_le_weak.
  - split; [|by left]. symmetry. by apply Q.min_l.
Qed.

Lemma plot_ces_marker_sizes get_coords node_labels node_indices ces relations
    max_order cause_effect_offset vertex_size_range order_on_z_axis opts s :
  plot_ces get_coords node_labels node_indices ces relations max_order
           cause_effect_offset vertex_size_range order_on_z_axis opts = Ok s →
  marker_sizes vertex_size_range (separate_ces ces)
  = Ok (purview_sizes s, mechanism_sizes s).
Proof.
  unfold plot_ces. intros Hs.
  repeat match type of Hs with
    | (?m ≫= _) = Ok _ => destruct m as [?|?]; simpl in Hs; [|done]
    end.
  injection Hs as <-. simpl.
  match goal with |- Ok ?p = _ => by destruct p end.
Qed.

(** C10. The purview sizes are the sizes that [normalize_sizes] gives to
    the entries of the separated CES, and the marker size of the
    mechanism of distinction [i] is the smaller of the sizes of its cause
    (position [2i]) and of its effect (position [2i+1]). *)
Theorem mechanism_sizes_pairwise_min (vertex_size_range : Q * Q)
    (ces : list Distinction.t) :
  ces ≠ [] →
  ∃ sizes mechanisms,
    marker_sizes vertex_size_range (separate_ces ces) = Ok (sizes, mechanisms)
    ∧ normalize_sizes vertex_size_range.1 vertex_size_range.2
                      (separate_ces ces) = Ok sizes
    ∧ mapM py_min (chunk_list sizes 2) = Ok mechanisms
    ∧ (∀ get_coords node_labels node_indices relations max_order
         cause_effect_offset order_on_z_axis opts s,
         plot_ces get_coords node_labels node_indices ces relations max_order
                  cause_effect_offset vertex_size_range order_on_z_axis opts
         = Ok s →
         purview_sizes s = sizes ∧ mechanism_sizes s = mechanisms)
    ∧ length sizes = 2 * length ces
    ∧ length mechanisms = length ces
    ∧ ∀ i, i < length ces →
        ∃ c e m,
          sizes !! (2 * i) = Some c
          ∧ sizes !! (2 * i + 1) = Some e
          ∧ mechanisms !! i = Some m
          ∧ (m == Qmin c e)%Q ∧ (m = c ∨ m = e).
Proof.
  intros Hne.
  destruct (normalize_sizes_length vertex_size_range.1 vertex_size_range.2
              (separate_ces ces)) as (sizes & Hsizes & Hlen).
  { intros Hnil. apply (f_equal length) in Hnil.
    rewrite separate_ces_length in Hnil. destruct ces; simpl in *; [done|lia]. }
  rewrite separate_ces_length in Hlen.
  destruct (mapM_total py_min (chunk_list sizes 2)) as [mechanisms Hmech].
  { intros c (i & a & b & _ & _ & ->)%(chunk_list_pairs_elem _ (length ces));
      [|done].
    destruct (py_min_pair a b) as (m & ? & _). eauto. }
  assert (Hmarker : marker_sizes vertex_size_range (separate_ces ces)
                    = Ok (sizes, mechanisms)).
  { unfold marker_sizes. rewrite Hsizes. simpl. by rewrite Hmech. }
  exists sizes, mechanisms. do 3 (split; [done|]). split.
  { intros ????????? Hs%plot_ces_marker_sizes. rewrite Hmarker in Hs.
    by injection Hs as <- <-. }
  split; [done|]. split.
  { rewrite (mapM_Ok_length _ _ _ Hmech).
    by apply chunk_list_pairs_length. }
  intros i Hi.
  destruct (lookup_lt_is_Some_2 sizes (2 * i)) as [c Hc]; [lia|].
  destruct (lookup_lt_is_Some_2 sizes (2 * i + 1)) as [e He]; [lia|].
  pose proof (chunk_list_pairs sizes (length ces) i c e Hlen Hc He) as Hchunk.
  destruct (mapM_Ok_lookup _ _ _ _ _ Hmech Hchunk) as (m & Hm & Hmin).
  destruct (py_min_pair c e) as (m' & Hm' & Heq & Hor).
  exists c, e, m. rewrite Hmin in Hm'. injection Hm' as <-. done.
Qed.

(** ** Feature matrix *)

Lemma index_map_snoc (ces : list MICE.t) (p : MICE.t) :
  index_map (ces ++ [p]) = <[p := length ces]> (index_map ces).
Proof.
  unfold index_map, enumerate. rewrite imap_app, foldl_app. simpl.
  by rewrite Nat.add_0_r.
Qed.

(** The index kept for an entry is the position of its last occurrence. *)
Lemma index_map_lookup (ces : list MICE.t) (p : MICE.t) (i : nat) :
  index_map ces !! p = Some i
  ↔ ces !! i = Some p ∧ ∀ j, i < j → ces !! j ≠ Some p.
Proof.
  revert i. induction ces as [|q ces IH] using rev_ind; intros i.
  - unfold index_map. simpl. rewrite lookup_empty. split; [done|].
    by intros [? _].
  - rewrite index_map_snoc. destruct (decide (q = p)) as [->|Hne].
    + rewrite lookup_insert_eq. split.
      * intros [= <-]. split; [by rewrite list_lookup_middle|].
        intros j Hj. rewrite lookup_ge_None_2; [done|].
        rewrite length_app. simpl. lia.
      * intros [Hi Hlast]. f_equal.
        destruct (decide (i < length ces)) as [Hlt|Hge].
        -- destruct (Hlast (length ces) Hlt). by rewrite list_lookup_middle.
        -- apply lookup_lt_Some in Hi. rewrite length_app in Hi.
           simpl in Hi. lia.
    + rewrite lookup_insert_ne by done. rewrite IH. split.
      * intros [Hi Hlast]. split; [by apply lookup_app_l_Some|].
        intros j Hj. destruct (decide (j < length ces)) as [Hlt|Hge].
        -- rewrite lookup_app_l by done. by apply Hlast.
        -- destruct (decide (j = length ces)) as [->|Hnj].
           ++ rewrite list_lookup_middle by done. congruence.
           ++ rewrite lookup_ge_None_2; [done|].
              rewrite length_app. simpl. lia.
      * intros [Hi Hlast].
        assert (Hlt : i < length ces).
        { pose proof (lookup_lt_Some _ _ _ Hi) as Hlen.
          rewrite length_app in Hlen. simpl in Hlen.
          destruct (decide (i = length ces)) as [->|]; [|lia].
          rewrite list_lookup_middle in Hi by done. congruence. }
        rewrite lookup_app_l in Hi by done. split; [done|].
        intros j Hj Hp. apply (Hlast j Hj). by apply lookup_app_l_Some.
Qed.

Lemma index_map_lookup_None (ces : list MICE.t) (p : MICE.t) :
  index_map ces !! p = None ↔ p ∉ ces.
Proof.
  induction ces as [|q ces IH] using rev_ind.
  - unfold index_map. simpl. rewrite lookup_empty. split; [|done].
    intros _. apply not_elem_of_nil.
  - rewrite index_map_snoc, not_elem_of_app, list_elem_of_singleton.
    destruct (decide (q = p)) as [->|Hne].
    + rewrite lookup_insert_eq. split; [done|]. by intros [_ []].
    + rewrite lookup_insert_ne by done. rewrite IH. split; [|by intros []].
      intros. split; [done|congruence].
Qed.

Lemma index_map_lookup_NoDup (ces : list MICE.t) (p : MICE.t) (i : nat) :
  NoDup ces → index_map ces !! p = Some i ↔ ces !! i = Some p.
Proof.
  intros Hnd. rewrite index_map_lookup. split; [by intros []|].
  intros Hi. split; [done|]. intros j Hj Hp.
  pose proof (NoDup_lookup _ _ _ _ Hnd Hi Hp). lia.
Qed.

Lemma index_map_lt (ces : list MICE.t) (p : MICE.t) (i : nat) :
  index_map ces !! p = Some i → i < length ces.
Proof.
  intros [Hi _]%index_map_lookup. by apply lookup_lt_Some in Hi.
Qed.

(** The loop of [feature_matrix] assigns the columns one after the other:
    the result is the list of the columns of the relations. *)
Lemma feature_matrix_loop (ces : list MICE.t) (relations : list Relation.t)
    (done_ : list (list nat)) (rest : list (list nat)) :
  length rest = length relations →
  for_each
    (λ features '(j, relation),
       indices ← mapM (dict_getitem (index_map ces))
                      (Relation.relata relation);
       let relation_features := assign_ones (length ces) indices in
       Ok (set_column features j relation_features))
    (Matrix (length ces) (done_ ++ rest))
    (imap (λ j r, (length done_ + j, r)) relations)
  = cols ← mapM (relation_column ces) relations;
    Ok (Matrix (length ces) (done_ ++ cols)).
Proof.
  revert done_ rest.
  induction relations as [|relation relations IH]; intros done_ rest Hlen.
  - destruct rest; [reflexivity|by simpl in Hlen].
  - destruct rest as [|c rest]; [by simpl in Hlen|]. rewrite imap_cons.
    change (mapM (relation_column ces) (relation :: relations))
      with (y ← relation_column ces relation;
            k ← mapM (relation_column ces) relations; mret (y :: k)).
    cbn [for_each].
    destruct (relation_column ces relation) as [col|e] eqn:Hcol;
      unfold relation_column in Hcol;
      destruct (mapM _ (Relation.relata relation)) as [indices|e'];
      try discriminate; [|by injection Hcol as ->].
    injection Hcol as <-.
    cbn [mbind result_bind]. unfold set_column. cbn [nrows columns].
    rewrite insert_app_r. cbn [insert list_insert].
    replace (done_ ++ assign_ones (length ces) indices :: rest)
      with ((done_ ++ [assign_ones (length ces) indices]) ++ rest)
      by (by rewrite <- app_assoc).
    erewrite imap_ext; [rewrite IH|].
    + destruct (mapM _ relations); [|reflexivity].
      cbn [mbind result_bind mret result_ret]. by rewrite <- app_assoc.
    + simpl in Hlen. lia.
    + intros j r _. simpl. rewrite length_app. simpl. f_equal. lia.
Qed.

Lemma feature_matrix_columns (ces : list MICE.t)
    (relations : list Relation.t) :
  feature_matrix ces relations
  = cols ← mapM (relation_column ces) relations;
    Ok (Matrix (length ces) cols).
Proof.
  unfold feature_matrix, zeros, enumerate.
  apply (feature_matrix_loop ces relations []
           (replicate (length relations) (replicate (length ces) 0))).
  by rewrite length_replicate.
Qed.

Lemma assign_ones_snoc (N : nat) (indices : list nat) (i : nat) :
  assign_ones N (indices ++ [i]) = <[i := 1]> (assign_ones N indices).
Proof. unfold assign_ones. by rewrite foldl_snoc. Qed.

Lemma assign_ones_length (N : nat) (indices : list nat) :
  length (assign_ones N indices) = N.
Proof.
  induction indices as [|i indices IH] using rev_ind.
  - apply length_replicate.
  - by rewrite assign_ones_snoc, length_insert.
Qed.

Lemma assign_ones_lookup (N : nat) (indices : list nat) (p : nat) :
  p < N →
  assign_ones N indices !! p
  = Some (if bool_decide (p ∈ indices) then 1 else 0).
Proof.
  intros Hp. induction indices as [|i indices IH] using rev_ind.
  - unfold assign_ones. simpl. by rewrite lookup_replicate_2.
  - rewrite assign_ones_snoc. destruct (decide (i = p)) as [->|Hne].
    + rewrite list_lookup_insert_eq by (by rewrite assign_ones_length).
      rewrite bool_decide_eq_true_2; [done|].
      apply elem_of_app. right. left.
    + rewrite list_lookup_insert_ne, IH by done. f_equal.
      rewrite (bool_decide_ext (p ∈ indices ++ [i]) (p ∈ indices)); [done|].
      rewrite elem_of_app, list_elem_of_singleton.
      split; [intros [?|?]; [done|congruence]|by left].
Qed.

Lemma sum_list_insert (v : list nat) (i x y : nat) :
  v !! i = Some x → sum_list (<[i := y]> v) + x = sum_list v + y.
Proof.
  revert i. induction v as [|a v IH]; intros i Hi; [done|].
  destruct i as [|i]; simpl in *.
  - injection Hi as ->. lia.
  - specialize (IH i Hi). lia.
Qed.

Lemma assign_ones_sum (N : nat) (indices : list nat) :
  NoDup indices → (∀ i, i ∈ indices → i < N) →
  sum_list (assign_ones N indices) = length indices.
Proof.
  induction indices as [|i indices IH] using rev_ind; intros Hnd Hlt.
  - unfold assign_ones. simpl. rewrite sum_list_replicate. lia.
  - apply NoDup_app in Hnd as (Hnd & Hfresh & _).
    rewrite assign_ones_snoc, length_app. simpl.
    pose proof (sum_list_insert (assign_ones N indices) i 0 1) as Hsum.
    rewrite IH in Hsum.
    + rewrite <- Hsum; [lia|]. rewrite assign_ones_lookup.
      * rewrite bool_decide_eq_false_2; [done|].
        intros Hi. apply (Hfresh i Hi). left.
      * apply Hlt, elem_of_app. right. left.
    + done.
    + intros j Hj. apply Hlt, elem_of_app. by left.
Qed.

Lemma dict_getitem_Ok (m : gmap MICE.t nat) (relatum : MICE.t) (i : nat) :
  dict_getitem m relatum = Ok i ↔ m !! relatum = Some i.
Proof. unfold dict_getitem. destruct (m !! relatum); naive_solver. Qed.

Lemma dict_getitem_Raise (m : gmap MICE.t nat) (relatum : MICE.t) (e : exn) :
  dict_getitem m relatum = Raise e → e = KeyError.
Proof. unfold dict_getitem. destruct (m !! relatum); by intros [=]. Qed.

(** The indices of the relata of a relation, when they are all found. *)
Lemma relation_column_Ok (ces : list MICE.t) (relation : Relation.t)
    (col : list nat) :
  relation_column ces relation = Ok col ↔
  ∃ indices,
    Forall2 (λ relatum i, index_map ces !! relatum = Some i)
            (Relation.relata relation) indices
    ∧ col = assign_ones (length ces) indices.
Proof.
  unfold relation_column. split.
  - destruct (mapM _ _) as [indices|] eqn:Hind; simpl; [|done].
    intros [= <-]. exists indices. split; [|done].
    apply mapM_Ok in Hind. eapply Forall2_impl; [exact Hind|].
    intros ??. by apply dict_getitem_Ok.
  - intros (indices & Hind & ->).
    assert (mapM (dict_getitem (index_map ces)) (Relation.relata relation)
            = Ok indices) as ->; [|done].
    apply mapM_Ok. eapply Forall2_impl; [exact Hind|].
    intros ??. by apply dict_getitem_Ok.
Qed.

Lemma relation_column_Raise (ces : list MICE.t) (relation : Relation.t)
    (relatum : MICE.t) :
  relatum ∈ Relation.relata relation → relatum ∉ ces →
  relation_column ces relation = Raise KeyError.
Proof.
  unfold relation_column. intros Hin Hnot.
  assert (mapM (dict_getitem (index_map ces)) (Relation.relata relation)
          = Raise KeyError) as ->; [|done].
  induction (Relation.relata relation) as [|m relata IH].
  - by apply elem_of_nil in Hin.
  - change (mapM ?f (m :: relata))
      with (y ← f m; k ← mapM f relata; mret (y :: k)).
    destruct (dict_getitem (index_map ces) m) as [i|e] eqn:Hm.
    + apply dict_getitem_Ok in Hm. apply elem_of_cons in Hin as [->|Hin].
      * apply index_map_lookup_None in Hnot. congruence.
      * cbn [mbind result_bind]. by rewrite IH.
    + unfold dict_getitem in Hm.
      destruct (index_map ces !! m); [done|]. injection Hm as <-.
      reflexivity.
Qed.

Lemma relation_column_total (ces : list MICE.t) (relation : Relation.t) :
  (∀ relatum, relatum ∈ Relation.relata relation → relatum ∈ ces) →
  ∃ indices,
    Forall2 (λ relatum i, index_map ces !! relatum = Some i)
            (Relation.relata relation) indices
    ∧ relation_column ces relation = Ok (assign_ones (length ces) indices).
Proof.
  intros Hall.
  destruct (mapM_total (dict_getitem (index_map ces))
              (Relation.relata relation)) as [indices Hind].
  { intros m Hm%Hall. destruct (index_map ces !! m) as [i|] eqn:Hi.
    - exists i. by apply dict_getitem_Ok.
    - by apply index_map_lookup_None in Hi. }
  exists indices. split.
  - apply mapM_Ok in Hind. eapply Forall2_impl; [exact Hind|].
    intros ??. by apply dict_getitem_Ok.
  - unfold relation_column. by rewrite Hind.
Qed.

Lemma relation_column_exn (ces : list MICE.t) (relation : Relation.t)
    (e : exn) :
  relation_column ces relation = Raise e → e = KeyError.
Proof.
  unfold relation_column.
  induction (Relation.relata relation) as [|m relata IH]; [done|].
  change (mapM ?f (m :: relata))
    with (y ← f m; k ← mapM f relata; mret (y :: k)).
  destruct (dict_getitem (index_map ces) m) as [i|e'] eqn:Hm;
    cbn [mbind result_bind] in *.
  - destruct (mapM _ relata); [done|]. exact IH.
  - intros [= <-]. by apply dict_getitem_Raise in Hm.
Qed.

(** What the cells of a column say, without any assumption on the input. *)
Lemma relation_column_cell (ces : list MICE.t) (relation : Relation.t)
    (col : list nat) (p : nat) :
  relation_column ces relation = Ok col → p < length ces →
  ∃ x, col !! p = Some x ∧ (x = 0 ∨ x = 1)
       ∧ (x = 1 ↔ ∃ relatum, relatum ∈ Relation.relata relation
                              ∧ index_map ces !! relatum = Some p).
Proof.
  intros (indices & Hind & ->)%relation_column_Ok Hp.
  rewrite assign_ones_lookup by done. eexists. split; [done|].
  case_bool_decide as Hin.
  - split; [by right|]. split; [|done]. intros _.
    apply list_elem_of_lookup in Hin as [k Hk].
    destruct (Forall2_lookup_r _ _ _ _ _ Hind Hk) as (m & Hm & Hmi).
    exists m. split; [|done]. by eapply list_elem_of_lookup_2.
  - split; [by left|]. split; [done|]. intros (m & Hm & Hmi).
    destruct Hin. apply list_elem_of_lookup in Hm as [k Hk].
    destruct (Forall2_lookup_l _ _ _ _ _ Hind Hk) as (i & Hi & Hmi').
    assert (i = p) as -> by congruence. by eapply list_elem_of_lookup_2.
Qed.

Lemma relation_column_sum (ces : list MICE.t) (relation : Relation.t)
    (col : list nat) :
  relation_column ces relation = Ok col →
  NoDup (Relation.relata relation) →
  sum_list col = length (Relation.relata relation).
Proof.
  intros (indices & Hind & ->)%relation_column_Ok Hnd.
  rewrite assign_ones_sum.
  - symmetry. by eapply Forall2_length.
  - apply NoDup_alt. intros i j k Hi Hj.
    destruct (Forall2_lookup_r _ _ _ _ _ Hind Hi) as (m & Hm & Hmi).
    destruct (Forall2_lookup_r _ _ _ _ _ Hind Hj) as (m' & Hm' & Hmj).
    apply index_map_lookup in Hmi as [Hmi _].
    apply index_map_lookup in Hmj as [Hmj _].
    assert (m = m') as <- by congruence.
    by eapply NoDup_lookup.
  - intros i (k & Hk)%list_elem_of_lookup.
    destruct (Forall2_lookup_r _ _ _ _ _ Hind Hk) as (m & Hm & Hmi).
    by eapply index_map_lt.
Qed.

Lemma feature_matrix_Ok (ces : list MICE.t) (relations : list Relation.t)
    (features : matrix) :
  feature_matrix ces relations = Ok features ↔
  nrows features = length ces
  ∧ Forall2 (λ relation col, relation_column ces relation = Ok col)
            relations (columns features).
Proof.
  rewrite feature_matrix_columns. split.
  - destruct (mapM _ relations) as [cols|] eqn:Hcols; [|done].
    intros [= <-]. split; [done|]. by apply mapM_Ok.
  - destruct features as [N cols]. simpl. intros [-> Hcols%mapM_Ok].
    by rewrite Hcols.
Qed.

Lemma feature_matrix_shape (ces : list MICE.t) (relations : list Relation.t)
    (features : matrix) :
  feature_matrix ces relations = Ok features →
  nrows features = length ces
  ∧ ncols features = length relations
  ∧ ∀ r, r < ncols features → length (column features r) = length ces.
Proof.
  intros [HN Hcols]%feature_matrix_Ok. split; [done|].
  unfold ncols, column. split; [symmetry; by eapply Forall2_length|].
  intros r Hr. destruct (lookup_lt_is_Some_2 _ _ Hr) as [col Hcol].
  rewrite Hcol. simpl.
  destruct (Forall2_lookup_r _ _ _ _ _ Hcols Hcol) as (relation & _ & Hrc).
  apply relation_column_Ok in Hrc as (indices & _ & ->).
  apply assign_ones_length.
Qed.

Lemma feature_matrix_binary (ces : list MICE.t) (relations : list Relation.t)
    (features : matrix) :
  feature_matrix ces relations = Ok features → binary features.
Proof.
  intros [HN Hcols]%feature_matrix_Ok p r x. unfold cell.
  destruct (columns features !! r) as [col|] eqn:Hcol; [|done]. simpl.
  intros Hx.
  destruct (Forall2_lookup_r _ _ _ _ _ Hcols Hcol) as (relation & _ & Hrc).
  assert (Hp : p < length ces).
  { apply relation_column_Ok in Hrc as (indices & _ & ->).
    apply lookup_lt_Some in Hx. by rewrite assign_ones_length in Hx. }
  destruct (relation_column_cell _ _ _ p Hrc Hp) as (y & Hy & Hbin & _).
  congruence.
Qed.

(** C6. A relation with a relatum that is not an entry of the Separated
    CES makes [feature_matrix] raise [KeyError]: no matrix is returned,
    neither with the relatum left out nor with a cell left at zero. *)
Theorem feature_matrix_missing_relatum (ces : list MICE.t)
    (relations : list Relation.t) (relation : Relation.t)
    (relatum : MICE.t) :
  relation ∈ relations →
  relatum ∈ Relation.relata relation →
  relatum ∉ ces →
  feature_matrix ces relations = Raise KeyError.
Proof.
  intros Hrel Hin Hnot. rewrite feature_matrix_columns.
  assert (mapM (relation_column ces) relations = Raise KeyError) as ->;
    [|done].
  induction relations as [|r relations IH]; [by apply elem_of_nil in Hrel|].
  change (mapM ?f (r :: relations))
    with (y ← f r; k ← mapM f relations; mret (y :: k)).
  destruct (relation_column ces r) as [col|e] eqn:Hcol.
  - cbn [mbind result_bind]. apply elem_of_cons in Hrel as [->|Hrel].
    + rewrite (relation_column_Raise _ _ relatum) in Hcol by done. done.
    + by rewrite IH.
  - by apply relation_column_exn in Hcol as ->.
Qed.

(** C5, as the code has it. For a Separated CES of [N] pairwise distinct
    entries and [M] relations whose relata are pairwise distinct and all
    appear in the CES, [feature_matrix] returns a matrix of [N] rows and
    [M] columns; its cell [(p, r)] is 1 when entry [p] is one of the
    relata of relation [r] and 0 otherwise, and each column sums to the
    number of relata of its relation. *)
Theorem feature_matrix_cells (ces : list MICE.t)
    (relations : list Relation.t) :
  NoDup ces →
  (∀ relation, relation ∈ relations → NoDup (Relation.relata relation)) →
  (∀ relation relatum,
     relation ∈ relations → relatum ∈ Relation.relata relation →
     relatum ∈ ces) →
  ∃ features,
    feature_matrix ces relations = Ok features
    ∧ nrows features = length ces
    ∧ ncols features = length relations
    ∧ (∀ r, r < ncols features → length (column features r) = length ces)
    ∧ (∀ p r entry relation,
         ces !! p = Some entry → relations !! r = Some relation →
         ∃ x, cell features p r = Some x
              ∧ (x = 0 ∨ x = 1)
              ∧ (x = 1 ↔ entry ∈ Relation.relata relation))
    ∧ (∀ r relation,
         relations !! r = Some relation →
         sum_list (column features r) = length (Relation.relata relation)).
Proof.
  intros Hces Hrelata Hall.
  destruct (mapM_total (relation_column ces) relations) as [cols Hcols].
  { intros relation Hrel.
    destruct (relation_column_total ces relation) as (? & _ & ?); eauto. }
  assert (Hfm : feature_matrix ces relations
                = Ok (Matrix (length ces) cols)).
  { rewrite feature_matrix_columns. by rewrite Hcols. }
  exists (Matrix (length ces) cols). split; [done|].
  destruct (feature_matrix_shape _ _ _ Hfm) as (HN & HM & Hlen).
  do 3 (split; [done|]). apply mapM_Ok in Hcols. split.
  - intros p r entry relation Hp Hr. unfold cell. simpl.
    destruct (Forall2_lookup_l _ _ _ _ _ Hcols Hr) as (col & -> & Hcol).
    simpl.
    destruct (relation_column_cell _ _ _ p Hcol) as (x & Hx & Hbin & Hone);
      [by eapply lookup_lt_Some|].
    exists x. do 2 (split; [done|]). rewrite Hone. split.
    + intros (m & Hm & Hmp). apply index_map_lookup_NoDup in Hmp; [|done].
      congruence.
    + intros Hentry. exists entry. split; [done|].
      by apply index_map_lookup_NoDup.
  - intros r relation Hr. unfold column. simpl.
    destruct (Forall2_lookup_l _ _ _ _ _ Hcols Hr) as (col & -> & Hcol).
    simpl. apply (relation_column_sum ces); [done|].
    by eapply Hrelata, list_elem_of_lookup_2.
Qed.

(** C5 as stated fails on a Separated CES with a repeated entry and on a
    relation with a repeated relatum. In the CES [[cA; eA; cA; eA]] the
    index kept for [cA] is 2 and the one kept for [eA] is 3: the relation
    of [cA] and [eA] gets the column [[0; 0; 1; 1]], so cell (0, 0) is 0
    although entry 0 is a relatum; and the relation of [cA] with [cA]
    gets a column that sums to 1 for two relata. *)
Lemma feature_matrix_repeated_entries :
  (∀ relation relatum,
     relation ∈ [Example.r1; Example.twice] →
     relatum ∈ Relation.relata relation →
     relatum ∈ Example.repeated)
  ∧ ∃ features,
      feature_matrix Example.repeated [Example.r1; Example.twice]
      = Ok features
      ∧ Example.repeated !! 0 = Some Example.cA
      ∧ Example.cA ∈ Relation.relata Example.r1
      ∧ cell features 0 0 = Some 0
      ∧ sum_list (column features 1) = 1
      ∧ length (Relation.relata Example.twice) = 2.
Proof.
  split.
  - intros relation relatum Hrel. revert relatum. apply Forall_forall.
    revert relation Hrel. apply Forall_forall.
    apply (bool_decide_eq_true_1 _). vm_compute. reflexivity.
  - eexists. split; [vm_compute; reflexivity|].
    repeat split; try reflexivity. left.
Qed.

(** ** Geometry extraction *)

Lemma enumerate_snoc {A} (l : list A) (x : A) :
  enumerate (l ++ [x]) = enumerate l ++ [(length l, x)].
Proof.
  unfold enumerate. rewrite imap_app. simpl. by rewrite Nat.add_0_r.
Qed.

Lemma enumerate_fst {A} (l : list A) : (enumerate l).*1 = seq 0 (length l).
Proof.
  unfold enumerate. rewrite fmap_imap.
  rewrite (imap_ext _ (λ i _, id i)) by done.
  by rewrite (imap_seq_0 l id), list_fmap_id.
Qed.

Lemma elem_of_enumerate {A} (l : list A) (i : nat) (x : A) :
  (i, x) ∈ enumerate l ↔ l !! i = Some x.
Proof.
  unfold enumerate. rewrite elem_of_lookup_imap. split.
  - by intros (j & y & [= -> ->] & Hy).
  - intros Hx. by exists i, x.
Qed.

Lemma elem_of_nonzero (a : list nat) (i : nat) :
  i ∈ nonzero a ↔ ∃ x, a !! i = Some x ∧ x ≠ 0.
Proof.
  unfold nonzero. rewrite list_elem_of_fmap. split.
  - intros ([j x] & -> & [Hx Hin]%list_elem_of_filter).
    apply elem_of_enumerate in Hin. eauto.
  - intros (x & Hx & Hnz). exists (i, x). split; [done|].
    apply list_elem_of_filter. split; [done|]. by apply elem_of_enumerate.
Qed.

Lemma NoDup_nonzero (a : list nat) : NoDup (nonzero a).
Proof.
  unfold nonzero. apply (sublist_NoDup _ ((enumerate a).*1)).
  - rewrite enumerate_fst. apply NoDup_seq.
  - apply fmap_sublist, sublist_filter.
Qed.

Lemma nonzero_length (a : list nat) :
  (∀ x, x ∈ a → x = 0 ∨ x = 1) → length (nonzero a) = sum_list a.
Proof.
  unfold nonzero. induction a as [|x a IH] using rev_ind; intros Hbin.
  - done.
  - rewrite enumerate_snoc, filter_app, fmap_app, length_app, IH.
    + rewrite sum_list_with_app. f_equal. simpl.
      destruct (Hbin x) as [-> | ->]; [apply elem_of_app; right; left|..];
        by rewrite ?filter_cons_True, ?filter_cons_False by (simpl; lia).
    + intros y Hy. apply Hbin, elem_of_app. by left.
Qed.

Lemma elem_of_columns_summing_to (features : matrix) (k j : nat) :
  j ∈ columns_summing_to features k
  ↔ j < ncols features ∧ sum_list (column features j) = k.
Proof.
  unfold columns_summing_to.
  rewrite list_elem_of_filter, elem_of_seq. intuition lia.
Qed.

Lemma NoDup_columns_summing_to (features : matrix) (k : nat) :
  NoDup (columns_summing_to features k).
Proof. apply NoDup_filter, NoDup_seq. Qed.

Lemma concat_pairs_length {A} (ps : list (list A)) :
  Forall (λ p, length p = 2) ps → length (concat ps) = 2 * length ps.
Proof.
  induction 1 as [|p ps Hp _ IH]; [done|]. simpl.
  rewrite length_app, Hp, IH. lia.
Qed.

Lemma concat_pairs_lookup {A} (ps : list (list A)) (i : nat) (a b : A) :
  Forall (λ p, length p = 2) ps → ps !! i = Some [a; b] →
  concat ps !! (2 * i) = Some a ∧ concat ps !! (2 * i + 1) = Some b.
Proof.
  intros Hps. revert i. induction Hps as [|p ps Hp _ IH]; intros i Hi; [done|].
  destruct i as [|i]; simpl in Hi.
  - injection Hi as ->. done.
  - destruct p as [|x [|y [|]]]; try done.
    replace (2 * S i) with (S (S (2 * i))) by lia.
    replace (S (S (2 * i)) + 1) with (S (S (2 * i + 1))) by lia.
    by apply IH.
Qed.

(** A flat list of pairs is cut back into its pairs. *)
Lemma chunk_list_concat_pairs {A} (ps : list (list A)) :
  Forall (λ p, length p = 2) ps → chunk_list (concat ps) 2 = ps.
Proof.
  intros Hps. pose proof (concat_pairs_length ps Hps) as Hlen.
  apply list_eq. intros i.
  destruct (ps !! i) as [p|] eqn:Hp.
  - assert (length p = 2) as Hp2
      by (eapply Forall_lookup_1 in Hps; [exact Hps|done]).
    destruct p as [|a [|b [|]]]; try done.
    destruct (concat_pairs_lookup ps i a b Hps Hp) as [Ha Hb].
    by apply (chunk_list_pairs _ (length ps)).
  - apply lookup_ge_None_2.
    rewrite (chunk_list_pairs_length _ (length ps)) by done.
    by apply lookup_ge_None_1.
Qed.

Lemma column_lookup (features : matrix) (j : nat) :
  j < ncols features → columns features !! j = Some (column features j).
Proof.
  intros Hj. unfold column.
  by destruct (lookup_lt_is_Some_2 _ _ Hj) as [col ->].
Qed.

(** The vertices of a column of a binary matrix: as many as the column
    sums to, pairwise distinct, and exactly the rows that hold a 1. *)
Lemma relation_vertex_indices_binary (features : matrix) (j : nat) :
  binary features → j < ncols features →
  length (relation_vertex_indices features j) = sum_list (column features j)
  ∧ NoDup (relation_vertex_indices features j)
  ∧ ∀ p, p ∈ relation_vertex_indices features j
         ↔ cell features p j = Some 1.
Proof.
  intros Hbin Hj. pose proof (column_lookup features j Hj) as Hcol.
  unfold relation_vertex_indices.
  assert (Hcell : ∀ p, cell features p j = column features j !! p).
  { intros p. unfold cell. by rewrite Hcol. }
  split; [|split].
  - apply nonzero_length. intros x (p & Hp)%list_elem_of_lookup.
    apply (Hbin p j). by rewrite Hcell.
  - apply NoDup_nonzero.
  - intros p. rewrite elem_of_nonzero, Hcell. split.
    + intros (x & Hx & Hnz). rewrite <- Hcell in Hx.
      destruct (Hbin p j x Hx); [done|congruence].
    + intros Hp. by exists 1.
Qed.

(** C8. From a feature matrix, each column summing to 2 gives one edge,
    the two rows that hold a 1, and each column summing to 3 gives one
    triangle, the three rows that hold a 1; the flat list of end points is
    cut into these edges, in the order of the columns, and the other
    columns give nothing. The vertices are rows of the matrix, that is
    positions of the Separated CES. *)
Theorem geometry_extraction (ces : list MICE.t) (relations : list Relation.t)
    (features : matrix) :
  feature_matrix ces relations = Ok features →
  let edge_columns := columns_summing_to features 2 in
  let triangle_columns := columns_summing_to features 3 in
  (∀ k j, j ∈ columns_summing_to features k
          ↔ j < ncols features ∧ sum_list (column features j) = k)
  ∧ NoDup edge_columns
  ∧ NoDup triangle_columns
  ∧ chunk_list (edges_of features) 2
    = relation_vertex_indices features <$> edge_columns
  ∧ triangles_of features
    = relation_vertex_indices features <$> triangle_columns
  ∧ (∀ j, j ∈ edge_columns →
       ∃ a b, relation_vertex_indices features j = [a; b]
              ∧ a ≠ b ∧ a < length ces ∧ b < length ces
              ∧ ∀ p, cell features p j = Some 1 ↔ p = a ∨ p = b)
  ∧ (∀ j, j ∈ triangle_columns →
       ∃ a b c, relation_vertex_indices features j = [a; b; c]
                ∧ NoDup [a; b; c]
                ∧ a < length ces ∧ b < length ces ∧ c < length ces
                ∧ ∀ p, cell features p j = Some 1 ↔ p = a ∨ p = b ∨ p = c).
Proof.
  intros Hfm edge_columns triangle_columns.
  pose proof (feature_matrix_binary _ _ _ Hfm) as Hbin.
  destruct (feature_matrix_shape _ _ _ Hfm) as (HN & HM & Hlen).
  assert (Hrow : ∀ p j, j < ncols features →
                        cell features p j = Some 1 → p < length ces).
  { intros p j Hj Hp. unfold cell in Hp.
    rewrite column_lookup in Hp by done. simpl in Hp.
    apply lookup_lt_Some in Hp. by rewrite Hlen in Hp. }
  split; [intros k j; apply elem_of_columns_summing_to|].
  split; [apply NoDup_columns_summing_to|].
  split; [apply NoDup_columns_summing_to|].
  split; [|split; [done|split]].
  - unfold edges_of, flatten. apply chunk_list_concat_pairs.
    apply Forall_fmap, Forall_forall.
    intros j [Hj Hsum]%elem_of_columns_summing_to. simpl.
    destruct (relation_vertex_indices_binary features j Hbin Hj) as (-> & _).
    done.
  - intros j [Hj Hsum]%elem_of_columns_summing_to.
    destruct (relation_vertex_indices_binary features j Hbin Hj)
      as (Hl & Hnd & Hin).
    rewrite Hsum in Hl.
    destruct (relation_vertex_indices features j) as [|a [|b [|]]];
      try done.
    exists a, b. split; [done|]. split.
    { apply NoDup_cons_1_1 in Hnd. intros ->. apply Hnd. elem_of_literal. }
    split; [apply (Hrow a j Hj), Hin; elem_of_literal|].
    split; [apply (Hrow b j Hj), Hin; elem_of_literal|].
    intros p. rewrite <- Hin. elem_of_literal.
  - intros j [Hj Hsum]%elem_of_columns_summing_to.
    destruct (relation_vertex_indices_binary features j Hbin Hj)
      as (Hl & Hnd & Hin).
    rewrite Hsum in Hl.
    destruct (relation_vertex_indices features j) as [|a [|b [|c [|]]]];
      try done.
    exists a, b, c. do 2 (split; [done|]).
    split; [apply (Hrow a j Hj), Hin; elem_of_literal|].
    split; [apply (Hrow b j Hj), Hin; elem_of_literal|].
    split; [apply (Hrow c j Hj), Hin; elem_of_literal|].
    intros p. rewrite <- Hin. elem_of_literal.
Qed.

(** ** Embedding adapter *)

Lemma assign_every_other_snoc (start : nat) (src : list (list Q))
    (row : list Q) (coords : list (list Q)) :
  assign_every_other start (src ++ [row]) coords
  = <[start + 2 * length src := row]> (assign_every_other start src coords).
Proof.
  unfold assign_every_other. by rewrite enumerate_snoc, foldl_snoc.
Qed.

Lemma assign_every_other_length (start : nat) (src coords : list (list Q)) :
  length (assign_every_other start src coords) = length coords.
Proof.
  induction src as [|row src IH] using rev_ind; [done|].
  by rewrite assign_every_other_snoc, length_insert.
Qed.

Lemma assign_every_other_lookup (start : nat) (src coords : list (list Q))
    (i : nat) (row : list Q) :
  src !! i = Some row → start + 2 * i < length coords →
  assign_every_other start src coords !! (start + 2 * i) = Some row.
Proof.
  revert i row. induction src as [|r src IH] using rev_ind;
    intros i row Hi Hlt; [done|].
  rewrite assign_every_other_snoc.
  destruct (decide (i = length src)) as [->|Hne].
  - rewrite list_lookup_middle in Hi by done. injection Hi as ->.
    apply list_lookup_insert_eq. by rewrite assign_every_other_length.
  - rewrite list_lookup_insert_ne by lia. apply IH; [|done].
    rewrite lookup_app_l in Hi; [done|].
    apply lookup_lt_Some in Hi. rewrite length_app in Hi. simpl in Hi. lia.
Qed.

Lemma assign_every_other_lookup_ne (start : nat) (src coords : list (list Q))
    (k : nat) :
  (∀ i, k ≠ start + 2 * i) →
  assign_every_other start src coords !! k = coords !! k.
Proof.
  intros Hk. induction src as [|r src IH] using rev_ind; [done|].
  rewrite assign_every_other_snoc, list_lookup_insert_ne; [done|].
  intros Heq. by apply (Hk (length src)).
Qed.

Lemma duplicate_coords_rows (n_components : nat)
    (distinction_coords : list (list Q)) (cause_effect_offset offset : list Q) :
  broadcast n_components cause_effect_offset = Ok offset →
  ∃ coords,
    duplicate_coords n_components distinction_coords cause_effect_offset
    = Ok coords
    ∧ length coords = 2 * length distinction_coords
    ∧ ∀ i point,
        distinction_coords !! i = Some point →
        coords !! (2 * i) = Some point
        ∧ coords !! (2 * i + 1) = Some (zip_with float_add point offset).
Proof.
  intros Hoff. unfold duplicate_coords. rewrite Hoff. eexists.
  split; [reflexivity|]. split.
  - rewrite length_imap, !assign_every_other_length, length_replicate. lia.
  - intros i point Hi.
    assert (Hlt : 2 * i + 1 < length distinction_coords * 2)
      by (apply lookup_lt_Some in Hi; lia).
    assert (Heven : Nat.odd (2 * i) = false)
      by (by rewrite <- Nat.negb_even, Nat.even_mul).
    assert (Hodd : Nat.odd (2 * i + 1) = true)
      by (by rewrite Nat.add_1_r, Nat.odd_succ, Nat.even_mul).
    rewrite !list_lookup_imap, Heven, Hodd. split.
    + rewrite assign_every_other_lookup_ne by lia.
      by rewrite (assign_every_other_lookup 0 _ _ i point)
        by (done || rewrite length_replicate; simpl; lia).
    + replace (2 * i + 1) with (1 + 2 * i) by lia.
      by rewrite (assign_every_other_lookup 1 _ _ i point)
        by (done || rewrite assign_every_other_length, length_replicate; lia).
Qed.


Lemma plot_ces_embedding get_coords node_labels node_indices ces relations
    max_order cause_effect_offset vertex_size_range order_on_z_axis opts s :
  plot_ces get_coords node_labels node_indices ces relations max_order
           cause_effect_offset vertex_size_range order_on_z_axis opts = Ok s →
  ∃ features,
    feature_matrix (separate_ces ces)
      (filter (λ r, length (Relation.relata r) ≤ max_order) relations)
    = Ok features
    ∧ embedding_adapter get_coords order_on_z_axis cause_effect_offset
        (separate_ces ces) features
      = Ok (coords s, z_coords s).
Proof.
  unfold plot_ces. intros Hs.
  destruct (feature_matrix _ _) as [features|]; [|done].
  exists features. split; [done|]. cbn [mbind result_bind] in Hs.
  repeat match type of Hs with
    | (?m ≫= _) = Ok _ => destruct m as [?|?]; simpl in Hs; [|done]
    end.
  injection Hs as <-. simpl.
  match goal with |- Ok ?p = _ => by destruct p end.
Qed.


(** ** Legend tags *)

Lemma string_length_app (a b : string) :
  String.length (a +:+ b) = String.length a + String.length b.
Proof.
  induction a as [|c a IH]; [done|].
  change (String c a +:+ b) with (String c (a +:+ b)). simpl. by rewrite IH.
Qed.

Lemma string_app_inj_r (s a b : string) : a +:+ s = b +:+ s → a = b.
Proof.
  revert b. induction a as [|c a IH]; intros [|c' b] Heq.
  - done.
  - apply (f_equal String.length) in Heq.
    rewrite !string_length_app in Heq. simpl in Heq. lia.
  - apply (f_equal String.length) in Heq.
    rewrite !string_length_app in Heq. simpl in Heq. lia.
  - change (String c a +:+ s = String c' b +:+ s)
      with (String c (a +:+ s) = String c' (b +:+ s)) in Heq.
    injection Heq as -> Heq. f_equal. by apply IH.
Qed.

Lemma tag_inj (prefix suffix a b : string) :
  prefix +:+ a +:+ suffix = prefix +:+ b +:+ suffix → a = b.
Proof. intros Heq%String.app_inj. by apply string_app_inj_r in Heq. Qed.

Lemma node_tag_inj a b : node_tag a = node_tag b → a = b.
Proof. apply tag_inj. Qed.
Lemma mechanism_tag_inj a b : mechanism_tag a = mechanism_tag b → a = b.
Proof. apply tag_inj. Qed.
Lemma compound_purview_tag_inj a b :
  compound_purview_tag a = compound_purview_tag b → a = b.
Proof. apply tag_inj. Qed.
Lemma relation_purview_tag_inj a b :
  relation_purview_tag a = relation_purview_tag b → a = b.
Proof. apply tag_inj. Qed.

Lemma make_label_node (node : nat) (node_labels : nat → string) :
  make_label [node] node_labels = node_labels node.
Proof.
  unfold make_label. simpl. induction (node_labels node) as [|c s IH];
    [done|].
  change (String c s +:+ "") with (String c (s +:+ "")). by rewrite IH.
Qed.

(** ** Loops *)

Lemma for_each_invariant {A St} (P : St → Prop) (body : St → A → result St)
    (l : list A) (s s' : St) :
  (∀ s a s', a ∈ l → P s → body s a = Ok s' → P s') →
  P s → for_each body s l = Ok s' → P s'.
Proof.
  revert s. induction l as [|a l IH]; intros s Hbody Hs; simpl.
  - by intros [= <-].
  - destruct (body s a) as [s1|] eqn:Hs1; [|done]. simpl.
    apply IH.
    + intros s0 b s0' Hb. apply Hbody. by right.
    + eapply Hbody; [left|done..].
Qed.

Lemma for_each_enumerate_invariant {A St} (P : nat → St → Prop)
    (body : St → nat * A → result St) (l : list A) (s s' : St) :
  (∀ r a s s', P r s → body s (r, a) = Ok s' → P (S r) s') →
  P 0 s → for_each body s (enumerate l) = Ok s' → P (length l) s'.
Proof.
  intros Hbody. unfold enumerate.
  assert (Hgen : ∀ k s, P k s →
            for_each body s (imap (λ i x, (k + i, x)) l) = Ok s' →
            P (k + length l) s').
  { induction l as [|a l IH]; intros k s0 Hs0.
    - simpl. intros [= <-]. by rewrite Nat.add_0_r.
    - rewrite imap_cons. simpl. rewrite Nat.add_0_r.
      destruct (body s0 (k, a)) as [s1|] eqn:Hs1; [|done]. simpl.
      intros Hrest. replace (k + S (length l)) with (S k + length l) by lia.
      apply (IH (S k) s1); [by eapply Hbody|].
      erewrite imap_ext; [exact Hrest|].
      intros i x _. simpl. f_equal. lia. }
  intros H0 Hloop. by apply (Hgen 0 s).
Qed.

(** ** The legend invariant *)

Lemma snoc_split {A} (l before after : list A) (t u : A) :
  l ++ [t] = before ++ u :: after →
  (after = [] ∧ before = l ∧ u = t)
  ∨ (∃ after', after = after' ++ [t] ∧ l = before ++ u :: after').
Proof.
  destruct after as [|x after' _] using rev_ind; intros Heq.
  - left. apply app_inj_tail in Heq as [-> ->]. done.
  - right. exists after'. rewrite app_comm_cons, app_assoc in Heq.
    apply app_inj_tail in Heq as [-> ->]. done.
Qed.

Lemma remember_elem `{EqDecision A} (x k : A) (legend : list A) :
  x ∈ Scene.remember k legend ↔ x ∈ legend ∨ x = k.
Proof.
  unfold Scene.remember. case_bool_decide as Hk.
  - by rewrite elem_of_app, list_elem_of_singleton.
  - split; [by left|]. by intros [?| ->].
Qed.

#[local] Set Warnings "-clear-no-such-hyp".

(** The case analysis on the place of a tag, after one more trace. *)
Ltac seen_after_emit :=
  let place := fresh "place" in
  let tag := fresh "tag" in
  intros place tag; destruct place; simpl;
  repeat (setoid_rewrite remember_elem
          || setoid_rewrite elem_of_app
          || setoid_rewrite list_elem_of_singleton);
  first
    [ naive_solver
    | split;
      [ intros (? & [?| ->] & ? & ?); [left; eauto|congruence]
      | intros [(? & ? & ? & ?)|[? _]]; [eauto|discriminate] ] ].

Section Legend.
Variable node_labels : nat → string.
Variable node_indices : list nat.
Hypothesis distinct_labels :
  ∀ n m, n ∈ node_indices → m ∈ node_indices →
         node_labels n = node_labels m → n = m.

Lemma legend_invariant_emits (s s' : Scene.state) (t : trace) :
  legend_invariant node_labels node_indices s →
  emits node_labels node_indices s t s' →
  legend_invariant node_labels node_indices s'.
Proof.
  intros [Hseen Hshown Hnodes] (Hfig & Hshow & Hseen' & Hnodes').
  split; [| |done].
  - intros place tag. rewrite Hseen', Hseen, Hfig. split.
    + intros [(t' & Ht' & Hp & Hg)|[-> ->]].
      * exists t'. split; [|done]. apply elem_of_app. by left.
      * exists t. split; [|done]. apply elem_of_app. right. left.
    + intros (t' & Ht' & Hp & Hg). apply elem_of_app in Ht' as [Ht'|Ht'].
      * left. by exists t'.
      * apply list_elem_of_singleton in Ht' as ->. by right.
  - intros before u after Heq. rewrite Hfig in Heq.
    apply snoc_split in Heq as [(-> & -> & ->)|(after' & -> & Heq)].
    + rewrite Hshow, Hseen. split.
      * intros Hnone t' Ht' [Hp Hg]. apply Hnone. by exists t'.
      * intros Hnone (t' & Ht' & Hp & Hg). by apply (Hnone t' Ht').
    + by apply (Hshown before u after').
Qed.

(** A q-fold trace leaves the catch-all tags as they are. *)
Lemma grouping_invariant_emits (s s' : Scene.state) (t : trace)
    (any2 any3 : Prop) :
  grouping_invariant node_labels node_indices any2 any3 s →
  emits node_labels node_indices s t s' →
  family t ≠ All2Relations → family t ≠ All3Relations →
  grouping_invariant node_labels node_indices any2 any3 s'.
Proof.
  intros (Hinv & H2 & H3) Hemits Hn2 Hn3.
  split; [by eapply legend_invariant_emits|].
  destruct Hemits as (_ & _ & Hseen' & _).
  split; rewrite Hseen'; [rewrite H2|rewrite H3];
    (split; [intros [?|[? _]]; [done|congruence]|by left]).
Qed.

Lemma emits_node (s : Scene.state) (t : trace) (node : nat) :
  legend_invariant node_labels node_indices s →
  node ∈ node_indices →
  family t = NodeQFold →
  legendgroup t = node_tag (make_label [node] node_labels) →
  showlegend t = bool_decide (node ∉ Scene.legend_nodes s) →
  emits node_labels node_indices s t
        (Scene.remember_node node (Scene.add_trace t s)).
Proof.
  intros Hinv Hnode Hp Hg Hshow. split; [done|]. split; [|split].
  - rewrite Hshow, Hp, Hg, bool_decide_eq_true. simpl. split.
    + intros Hnew (n & Hn & Htag). apply node_tag_inj in Htag.
      rewrite !make_label_node in Htag.
      assert (n = node) as ->; [|done].
      apply distinct_labels; [|done..].
      by apply (known_nodes _ _ _ Hinv).
    + intros Hnone Hin. apply Hnone. by exists node.
  - rewrite Hp, Hg. seen_after_emit.
  - simpl. intros n [Hn| ->]%remember_elem; [|done].
    by apply (known_nodes _ _ _ Hinv).
Qed.

Lemma emits_mechanism (s : Scene.state) (t : trace) (label : string) :
  legend_invariant node_labels node_indices s →
  family t = MechanismQFold →
  legendgroup t = mechanism_tag label →
  showlegend t = bool_decide (label ∉ Scene.legend_mechanisms s) →
  emits node_labels node_indices s t
        (Scene.remember_mechanism label (Scene.add_trace t s)).
Proof.
  intros Hinv Hp Hg Hshow. split; [done|]. split; [|split].
  - rewrite Hshow, Hp, Hg, bool_decide_eq_true. simpl. split.
    + by intros Hnew (l & Hl & ->%mechanism_tag_inj).
    + intros Hnone Hin. apply Hnone. by exists label.
  - rewrite Hp, Hg. seen_after_emit.
  - apply (known_nodes _ _ _ Hinv).
Qed.

Lemma emits_compound_purview (s : Scene.state) (t : trace) (label : string) :
  legend_invariant node_labels node_indices s →
  family t = CompoundPurviewQFold →
  legendgroup t = compound_purview_tag label →
  showlegend t = bool_decide (label ∉ Scene.legend_purviews s) →
  emits node_labels node_indices s t
        (Scene.remember_purview label (Scene.add_trace t s)).
Proof.
  intros Hinv Hp Hg Hshow. split; [done|]. split; [|split].
  - rewrite Hshow, Hp, Hg, bool_decide_eq_true. simpl. split.
    + by intros Hnew (l & Hl & ->%compound_purview_tag_inj).
    + intros Hnone Hin. apply Hnone. by exists label.
  - rewrite Hp, Hg. seen_after_emit.
  - apply (known_nodes _ _ _ Hinv).
Qed.

Lemma emits_relation_purview (s : Scene.state) (t : trace) (label : string) :
  legend_invariant node_labels node_indices s →
  family t = RelationPurviewQFold →
  legendgroup t = relation_purview_tag label →
  showlegend t = bool_decide (label ∉ Scene.legend_relation_purviews s) →
  emits node_labels node_indices s t
        (Scene.remember_relation_purview label (Scene.add_trace t s)).
Proof.
  intros Hinv Hp Hg Hshow. split; [done|]. split; [|split].
  - rewrite Hshow, Hp, Hg, bool_decide_eq_true. simpl. split.
    + by intros Hnew (l & Hl & ->%relation_purview_tag_inj).
    + intros Hnone Hin. apply Hnone. by exists label.
  - rewrite Hp, Hg. seen_after_emit.
  - apply (known_nodes _ _ _ Hinv).
Qed.

Lemma emits_mechanism_cause_purview (s : Scene.state) (t : trace)
    (label : string) :
  legend_invariant node_labels node_indices s →
  family t = MechanismCausePurviewQFold →
  legendgroup t = label →
  showlegend t
  = bool_decide (label ∉ Scene.legend_mechanism_cause_purviews s) →
  emits node_labels node_indices s t
        (Scene.remember_mechanism_cause_purview label (Scene.add_trace t s)).
Proof.
  intros Hinv Hp Hg Hshow. split; [done|]. split; [|split].
  - by rewrite Hshow, Hp, Hg, bool_decide_eq_true.
  - rewrite Hp, Hg. seen_after_emit.
  - apply (known_nodes _ _ _ Hinv).
Qed.

Lemma emits_catch_all (s : Scene.state) (t : trace) :
  legend_invariant node_labels node_indices s →
  family t = All2Relations ∨ family t = All3Relations →
  (showlegend t = true
   ↔ ¬ seen node_labels s (family t) (legendgroup t)) →
  emits node_labels node_indices s t (Scene.add_trace t s).
Proof.
  intros Hinv Hp Hshow. split; [done|]. split; [done|]. split.
  - intros place tag.
    destruct place; simpl;
      try (split; [by left|intros [?|[Hq _]]; [done|];
                   destruct Hp; congruence]);
      setoid_rewrite elem_of_app; setoid_rewrite list_elem_of_singleton;
      (split;
       [ intros (t0 & [?| ->] & ? & ?); [left; eauto|by right]
       | intros [(t0 & ? & ? & ?)|[? ->]]; [eauto|by exists t; eauto] ]).
  - apply (known_nodes _ _ _ Hinv).
Qed.

Lemma grouping_invariant_iff (any2 any2' any3 any3' : Prop)
    (s : Scene.state) :
  (any2 ↔ any2') → (any3 ↔ any3') →
  grouping_invariant node_labels node_indices any2 any3 s →
  grouping_invariant node_labels node_indices any2' any3' s.
Proof. unfold grouping_invariant. intros <- <-. done. Qed.

Lemma grouping_invariant_all2 (s : Scene.state) (t : trace) (r : nat)
    (any3 : Prop) :
  grouping_invariant node_labels node_indices (r ≠ 0) any3 s →
  family t = All2Relations →
  legendgroup t = "All 2-Relations" →
  showlegend t = bool_decide (r = 0) →
  grouping_invariant node_labels node_indices (S r ≠ 0) any3
                     (Scene.add_trace t s).
Proof.
  intros (Hinv & H2 & H3) Hp Hg Hshow.
  assert (Hemits : emits node_labels node_indices s t (Scene.add_trace t s)).
  { apply emits_catch_all; [done|by left|].
    rewrite Hshow, Hp, Hg, H2, bool_decide_eq_true. lia. }
  split; [by eapply legend_invariant_emits|].
  destruct Hemits as (_ & _ & Hseen' & _).
  rewrite !Hseen', Hp, Hg. split.
  - split; [lia|]. intros _. by right.
  - rewrite H3. split; [intros [?|[? _]]; [done|discriminate]|by left].
Qed.

Lemma grouping_invariant_all3 (s : Scene.state) (t : trace) (r : nat)
    (any2 : Prop) :
  grouping_invariant node_labels node_indices any2 (r ≠ 0) s →
  family t = All3Relations →
  legendgroup t = "All 3-Relations" →
  showlegend t = bool_decide (r = 0) →
  grouping_invariant node_labels node_indices any2 (S r ≠ 0)
                     (Scene.add_trace t s).
Proof.
  intros (Hinv & H2 & H3) Hp Hg Hshow.
  assert (Hemits : emits node_labels node_indices s t (Scene.add_trace t s)).
  { apply emits_catch_all; [done|by right|].
    rewrite Hshow, Hp, Hg, H3, bool_decide_eq_true. lia. }
  split; [by eapply legend_invariant_emits|].
  destruct Hemits as (_ & _ & Hseen' & _).
  rewrite !Hseen', Hp, Hg. split.
  - rewrite H2. split; [intros [?|[? _]]; [done|discriminate]|by left].
  - split; [lia|]. intros _. by right.
Qed.

(** *** The sections of the loop bodies keep the invariant *)

Section Bodies.
Variable opts : options.
Variable ces : list Distinction.t.
Variable mk : Family → string → bool → result trace.
Variable relation : Relation.t.
Hypothesis mk_builds : builds mk.

Lemma node_qfolds_invariant (any2 any3 : Prop) (s s' : Scene.state) :
  grouping_invariant node_labels node_indices any2 any3 s →
  node_qfolds node_labels node_indices mk relation s = Ok s' →
  grouping_invariant node_labels node_indices any2 any3 s'.
Proof.
  unfold node_qfolds. apply for_each_invariant.
  clear s s'. intros s node s' Hnode Hinv.
  case_bool_decide; [|by intros [= <-]].
  destruct (mk _ _ _) as [t|] eqn:Ht; [|done]. intros [= <-].
  apply mk_builds in Ht as (Hp & Hg & Hshow).
  apply (grouping_invariant_emits s _ t); [done| |by rewrite Hp..].
  apply emits_node; [apply Hinv|done..].
Qed.

Lemma mechanism_qfolds_invariant (any2 any3 : Prop) (s s' : Scene.state) :
  grouping_invariant node_labels node_indices any2 any3 s →
  mechanism_qfolds node_labels ces mk relation s = Ok s' →
  grouping_invariant node_labels node_indices any2 any3 s'.
Proof.
  unfold mechanism_qfolds. apply for_each_invariant.
  clear s s'. intros s mechanism s' _ Hinv.
  case_bool_decide; [|by intros [= <-]].
  destruct (mk _ _ _) as [t|] eqn:Ht; [|done]. intros [= <-].
  apply mk_builds in Ht as (Hp & Hg & Hshow).
  apply (grouping_invariant_emits s _ t); [done| |by rewrite Hp..].
  apply emits_mechanism; [apply Hinv|done..].
Qed.

Lemma compound_purview_qfolds_invariant (any2 any3 : Prop)
    (s s' : Scene.state) :
  grouping_invariant node_labels node_indices any2 any3 s →
  compound_purview_qfolds node_labels mk relation s = Ok s' →
  grouping_invariant node_labels node_indices any2 any3 s'.
Proof.
  unfold compound_purview_qfolds. apply for_each_invariant.
  clear s s'. intros s purview s' _ Hinv.
  destruct (mk _ _ _) as [t|] eqn:Ht; [|done]. intros [= <-].
  apply mk_builds in Ht as (Hp & Hg & Hshow).
  apply (grouping_invariant_emits s _ t); [done| |by rewrite Hp..].
  apply emits_compound_purview; [apply Hinv|done..].
Qed.

Lemma relation_purview_qfold_invariant (any2 any3 : Prop)
    (s s' : Scene.state) :
  grouping_invariant node_labels node_indices any2 any3 s →
  relation_purview_qfold node_labels mk relation s = Ok s' →
  grouping_invariant node_labels node_indices any2 any3 s'.
Proof.
  unfold relation_purview_qfold. intros Hinv.
  destruct (mk _ _ _) as [t|] eqn:Ht; [|done]. intros [= <-].
  apply mk_builds in Ht as (Hp & Hg & Hshow).
  apply (grouping_invariant_emits s _ t); [done| |by rewrite Hp..].
  apply emits_relation_purview; [apply Hinv|done..].
Qed.

Lemma mechanism_cause_purview_qfolds_invariant (any2 any3 : Prop)
    (s s' : Scene.state) :
  grouping_invariant node_labels node_indices any2 any3 s →
  mechanism_cause_purview_qfolds node_labels ces mk relation s = Ok s' →
  grouping_invariant node_labels node_indices any2 any3 s'.
Proof.
  unfold mechanism_cause_purview_qfolds. apply for_each_invariant.
  clear s s'. intros s distinction s' _ Hinv.
  destruct (_ && _); [|by intros [= <-]].
  destruct (mk _ _ _) as [t|] eqn:Ht; [|done]. intros [= <-].
  apply mk_builds in Ht as (Hp & Hg & Hshow).
  apply (grouping_invariant_emits s _ t); [done| |by rewrite Hp..].
  apply emits_mechanism_cause_purview; [apply Hinv|done..].
Qed.

Lemma when_invariant (option : flag)
    (section : Scene.state → result Scene.state) (P : Scene.state → Prop)
    (s s' : Scene.state) :
  (∀ s s', P s → section s = Ok s' → P s') →
  P s → when option section s = Ok s' → P s'.
Proof.
  intros Hsection Hs. unfold when.
  destruct (truthy option); [by apply Hsection|by intros [= <-]].
Qed.
End Bodies.

(** *** The loops keep the invariant *)

Section Stages.
Variable opts : options.
Variable ces : list Distinction.t.

Lemma line_builds xs ys zs sizes relation_color r :
  builds (line opts xs ys zs sizes relation_color r).
Proof.
  intros place tag show t. unfold line.
  destruct (getitem xs r); [|done]. destruct (getitem ys r); [|done].
  destruct (getitem zs r); [|done]. destruct (getitem sizes r); [|done].
  by intros [= <-].
Qed.

Lemma mesh_builds i j k sizes r : builds (mesh opts i j k sizes r).
Proof.
  intros place tag show t. unfold mesh.
  destruct (getitem i r); [|done]. destruct (getitem j r); [|done].
  destruct (getitem k r); [|done]. destruct (getitem sizes r); [|done].
  by intros [= <-].
Qed.

(** One step of a loop body: the section under [when] keeps [P]. *)
Ltac section_step Hs lemma :=
  match type of Hs with
  | (when ?o ?section ?s ≫= _) = Ok _ =>
      let s1 := fresh "s" in
      let H1 := fresh "Hs" in
      destruct (when o section s) as [s1|] eqn:H1; [|done];
      cbn [mbind result_bind] in Hs;
      eapply when_invariant in H1;
      [|intros ??; eapply lemma; eassumption|eassumption]
  end.

Lemma two_relation_traces_invariant xs ys zs sizes (any3 : Prop) (r : nat)
    (relation : Relation.t) (s s' : Scene.state) :
  grouping_invariant node_labels node_indices (r ≠ 0) any3 s →
  two_relation_traces node_labels node_indices opts ces xs ys zs sizes s
                      (r, relation) = Ok s' →
  grouping_invariant node_labels node_indices (S r ≠ 0) any3 s'.
Proof.
  intros Hinv Hs. unfold two_relation_traces in Hs.
  destruct (get_edge_color _ _) as [relation_color|]; [|done].
  cbn [mbind result_bind] in Hs.
  pose proof (line_builds xs ys zs sizes relation_color r) as Hmk.
  section_step Hs node_qfolds_invariant.
  section_step Hs mechanism_qfolds_invariant.
  section_step Hs compound_purview_qfolds_invariant.
  section_step Hs relation_purview_qfold_invariant.
  section_step Hs mechanism_cause_purview_qfolds_invariant.
  destruct (line _ _ _ _ _ _ _ _ _ _) as [t|] eqn:Ht; [|done].
  injection Hs as <-. apply Hmk in Ht as (Hp & Hg & Hshow).
  by apply grouping_invariant_all2.
Qed.

Lemma three_relation_traces_invariant three_relations i j k sizes
    (any2 : Prop) (r : nat) (triangle : list nat) (s s' : Scene.state) :
  grouping_invariant node_labels node_indices any2 (r ≠ 0) s →
  three_relation_traces node_labels node_indices opts ces three_relations
                        i j k sizes s (r, triangle) = Ok s' →
  grouping_invariant node_labels node_indices any2 (S r ≠ 0) s'.
Proof.
  intros Hinv Hs. unfold three_relation_traces in Hs.
  destruct (getitem three_relations r) as [relation|]; [|done].
  cbn [mbind result_bind] in Hs.
  pose proof (mesh_builds i j k sizes r) as Hmk.
  section_step Hs node_qfolds_invariant.
  section_step Hs mechanism_qfolds_invariant.
  section_step Hs compound_purview_qfolds_invariant.
  section_step Hs relation_purview_qfold_invariant.
  destruct (mesh _ _ _ _ _ _ _ _ _) as [t|] eqn:Ht; [|done].
  injection Hs as <-. apply Hmk in Ht as (Hp & Hg & Hshow).
  by apply grouping_invariant_all3.
Qed.

Lemma two_relations_stage_invariant features x y z relations (any3 : Prop)
    (s s' : Scene.state) :
  grouping_invariant node_labels node_indices False any3 s →
  two_relations_stage node_labels node_indices opts ces features x y z
                      relations s = Ok s' →
  ∃ any2, grouping_invariant node_labels node_indices any2 any3 s'.
Proof.
  intros Hinv. unfold two_relations_stage.
  destruct (truthy (show_edges opts)); [|intros [= <-]; eauto].
  case_bool_decide; [|intros [= <-]; eauto].
  destruct (mapM (getitem x) _) as [edges_x|]; [|done].
  destruct (mapM (getitem y) _) as [edges_y|]; [|done].
  destruct (mapM (getitem z) _) as [edges_z|]; [|done].
  cbn [mbind result_bind].
  destruct (Nat.even _); [|done].
  destruct (purview_chunker _); [|done]. cbn [mbind result_bind].
  destruct (normalize_sizes _ _ _) as [sizes|]; [|done].
  cbn [mbind result_bind]. intros Hloop. eexists.
  eapply (for_each_enumerate_invariant
            (λ r, grouping_invariant node_labels node_indices (r ≠ 0) any3))
    in Hloop; [exact Hloop| |].
  - intros r relation s0 s0'. apply two_relation_traces_invariant.
  - eapply grouping_invariant_iff; [| |exact Hinv]; [lia|done].
Qed.

Lemma three_relations_stage_invariant features relations (any2 : Prop)
    (s s' : Scene.state) :
  grouping_invariant node_labels node_indices any2 False s →
  three_relations_stage node_labels node_indices opts ces features
                        relations s = Ok s' →
  ∃ any3, grouping_invariant node_labels node_indices any2 any3 s'.
Proof.
  intros Hinv. unfold three_relations_stage.
  destruct (truthy (show_mesh opts)); [|intros [= <-]; eauto].
  case_bool_decide; [|intros [= <-]; eauto].
  destruct (normalize_sizes _ _ _) as [sizes|]; [|done].
  cbn [mbind result_bind].
  destruct (unzip3 _) as [[[i j] k]|]; [|done].
  cbn [mbind result_bind fst snd]. intros Hloop. eexists.
  eapply (for_each_enumerate_invariant
            (λ r, grouping_invariant node_labels node_indices any2 (r ≠ 0)))
    in Hloop; [exact Hloop| |].
  - intros r triangle s0 s0'. apply three_relation_traces_invariant.
  - eapply grouping_invariant_iff; [| |exact Hinv]; [done|lia].
Qed.

Lemma init_invariant :
  grouping_invariant node_labels node_indices False False Scene.init.
Proof.
  split; [split|].
  - intros place tag. split.
    + destruct place; simpl; try (by intros (? & []%elem_of_nil & _));
        by intros []%elem_of_nil.
    + by intros (? & []%elem_of_nil & _).
  - intros before t after Heq. by destruct before.
  - by intros node []%elem_of_nil.
  - split; (split; [by intros (? & []%elem_of_nil & _)|done]).
Qed.

Lemma relation_stages_shown_once features x y z relations fig :
  relation_stages node_labels node_indices opts ces features x y z relations
  = Ok fig →
  legend_shown_once fig.
Proof.
  unfold relation_stages.
  destruct (two_relations_stage _ _ _ _ _ _ _ _ _ _) as [s2|] eqn:H2;
    [|done].
  cbn [mbind result_bind].
  destruct (three_relations_stage _ _ _ _ _ _ _) as [s3|] eqn:H3; [|done].
  intros [= <-].
  eapply two_relations_stage_invariant in H2 as [any2 Hinv2];
    [|apply init_invariant].
  eapply three_relations_stage_invariant in H3 as [any3 Hinv3];
    [|exact Hinv2].
  apply Hinv3.
Qed.
End Stages.
End Legend.

(** ** The relation stages of plot_ces *)

Lemma plot_ces_relation_stages get_coords node_labels node_indices ces
    relations max_order cause_effect_offset vertex_size_range
    order_on_z_axis opts s :
  plot_ces get_coords node_labels node_indices ces relations max_order
           cause_effect_offset vertex_size_range order_on_z_axis opts = Ok s →
  ∃ features x y,
    feature_matrix (separate_ces ces)
      (filter (λ r, length (Relation.relata r) ≤ max_order) relations)
    = Ok features
    ∧ relation_stages node_labels node_indices opts ces features x y
        (z_coords s)
        (filter (λ r, length (Relation.relata r) ≤ max_order) relations)
      = Ok (relation_traces s).
Proof.
  unfold plot_ces. intros Hs.
  destruct (feature_matrix _ _) as [features|];
    cbn [mbind result_bind] in Hs; [|done].
  destruct (embedding_adapter _ _ _ _ _) as [cz|];
    cbn [mbind result_bind] in Hs; [|done].
  destruct (mapM (λ row, getitem row 0) cz.1) as [x|];
    cbn [mbind result_bind] in Hs; [|done].
  destruct (mapM (λ row, getitem row 1) cz.1) as [y|];
    cbn [mbind result_bind] in Hs; [|done].
  destruct (marker_sizes _ _) as [sizes|];
    cbn [mbind result_bind] in Hs; [|done].
  destruct (relation_stages _ _ _ _ _ _ _ _ _) as [traces|] eqn:Htraces;
    cbn [mbind result_bind] in Hs; [|done].
  injection Hs as <-. by exists features, x, y.
Qed.

(** C1. In the traces that one call of [plot_ces] emits for the
    relations, the legend entry of a trace is shown exactly when no
    earlier trace was emitted by the same q-fold family (or as the same
    catch-all) under the same [legendgroup]: the first trace of a tag
    shows its legend entry, every later one has it suppressed, through the
    loop over the 2-relations and the loop over the 3-relations alike.
    Each call starts from empty legend lists, so its first trace is always
    shown. The labels of the nodes of the subsystem are pairwise distinct:
    a label identifies its node. *)
Theorem legend_entries_shown_once get_coords node_labels node_indices ces
    relations max_order cause_effect_offset vertex_size_range
    order_on_z_axis opts s :
  (∀ n m, n ∈ node_indices → m ∈ node_indices →
          node_labels n = node_labels m → n = m) →
  plot_ces get_coords node_labels node_indices ces relations max_order
           cause_effect_offset vertex_size_range order_on_z_axis opts = Ok s →
  (∀ before t after,
     relation_traces s = before ++ t :: after →
     (showlegend t = true
      ↔ ∀ t', t' ∈ before →
              ¬ (family t' = family t ∧ legendgroup t' = legendgroup t)))
  ∧ (∀ t rest, relation_traces s = t :: rest → showlegend t = true).
Proof.
  intros Hlabels (features & x & y & _ & Hstages)%plot_ces_relation_stages.
  apply relation_stages_shown_once in Hstages; [|done].
  split; [exact Hstages|].
  intros t rest Heq. apply (Hstages [] t rest Heq).
  by intros t' []%elem_of_nil.
Qed.

(** C9. With an empty relation list the feature matrix has no column,
    the geometry extraction finds no edge and no triangle, and the
    relation stages return without a trace: the scene has neither a line
    nor a mesh. *)
Theorem empty_relations_no_primitives node_labels node_indices opts
    (ces : list Distinction.t) (x y z : list Q) :
  ∃ features,
    feature_matrix (separate_ces ces) [] = Ok features
    ∧ edges_of features = []
    ∧ triangles_of features = []
    ∧ relation_stages node_labels node_indices opts ces features x y z []
      = Ok []
    ∧ ∀ get_coords max_order cause_effect_offset vertex_size_range
        order_on_z_axis s,
        plot_ces get_coords node_labels node_indices ces [] max_order
                 cause_effect_offset vertex_size_range order_on_z_axis opts
        = Ok s →
        relation_traces s = [].
Proof.
  assert (Hstages : ∀ x y z,
    relation_stages node_labels node_indices opts ces
      (Matrix (length (separate_ces ces)) []) x y z [] = Ok []).
  { intros x' y' z'. unfold relation_stages, two_relations_stage,
      three_relations_stage.
    by destruct (truthy (show_edges opts)), (truthy (show_mesh opts)). }
  exists (Matrix (length (separate_ces ces)) []).
  do 3 (split; [done|]). split; [apply Hstages|].
  intros get_coords max_order cause_effect_offset vertex_size_range
    order_on_z_axis s (features & x' & y' & Hfm & Hs)%plot_ces_relation_stages.
  rewrite filter_nil in Hfm, Hs. injection Hfm as <-.
  rewrite Hstages in Hs. by injection Hs as <-.
Qed.

(** ** The statements on the small structure *)

(** A decidable proposition about closed values, settled by evaluation. *)
Ltac decide_by_compute :=
  match goal with
  | |- ?P => apply (bool_decide_eq_true_1 P); vm_compute; reflexivity
  end.


Lemma example_distinct_labels (n m : nat) :
  n ∈ Example.node_indices → m ∈ Example.node_indices →
  Example.node_labels n = Example.node_labels m → n = m.
Proof.
  unfold Example.node_indices. intros Hn Hm.
  repeat (apply elem_of_cons in Hn as [->|Hn]);
    try (by apply elem_of_nil in Hn);
    repeat (apply elem_of_cons in Hm as [->|Hm]);
    try (by apply elem_of_nil in Hm); done.
Qed.

Lemma legend_entries_shown_once_witness :
  ∃ s,
    plot_ces Example.get_coords Example.node_labels Example.node_indices
             Example.ces Example.relations 3 Example.cause_effect_offset
             Example.vertex_size_range true Example.opts = Ok s
    ∧ length (relation_traces s) = 33
    ∧ ∀ t rest, relation_traces s = t :: rest → showlegend t = true.
Proof.
  eexists. split; [vm_compute; reflexivity|]. split; [reflexivity|].
  eapply proj2,
    (legend_entries_shown_once Example.get_coords Example.node_labels
       Example.node_indices Example.ces Example.relations 3
       Example.cause_effect_offset Example.vertex_size_range true
       Example.opts);
    [exact example_distinct_labels|vm_compute; reflexivity].
Defined.

Lemma purview_chunker_scenario_witness :
  purview_chunker [Example.r1; Example.r1'; Example.r3]
  = Ok ([[Example.r1]; [Example.r1; Example.r1']], [[0]; [0; 1]]).
Proof.
  apply (purview_chunker_scenario Example.r1 Example.r1' Example.r3 [0] [1]);
    try reflexivity; [discriminate|left; discriminate].
Defined.

Lemma get_edge_color_classifies_witness :
  get_edge_color Example.apart false = Ok "teal"
  ∧ get_edge_color Example.apart true = Ok "cyan".
Proof.
  destruct (get_edge_color_classifies Example.apart Example.cA Example.eB
              eq_refl) as (Hteal & _ & _ & Hcyan & _).
  split; [exact Hteal|]. apply Hcyan. right. split; [|split].
  - exists 1. split; decide_by_compute.
  - intros Hsub. specialize (Hsub 0).
    apply (bool_decide_eq_false_1 (0 ∈ [1; 2])); [vm_compute; reflexivity|].
    apply Hsub. decide_by_compute.
  - intros Hsub. specialize (Hsub 2).
    apply (bool_decide_eq_false_1 (2 ∈ [0; 1])); [vm_compute; reflexivity|].
    apply Hsub. decide_by_compute.
Defined.


Lemma feature_matrix_cells_witness :
  ∃ features,
    feature_matrix (separate_ces Example.ces) Example.relations = Ok features
    ∧ nrows features = 4
    ∧ ncols features = 4.
Proof.
  destruct (feature_matrix_cells (separate_ces Example.ces)
              Example.relations) as (features & Hfm & HN & HM & _).
  - decide_by_compute.
  - apply Forall_forall. decide_by_compute.
  - intros relation relatum Hrel.
    revert relatum. apply Forall_forall. revert relation Hrel.
    apply Forall_forall. decide_by_compute.
  - exists features. split; [exact Hfm|]. split; [exact HN|exact HM].
Defined.

Lemma feature_matrix_missing_relatum_witness :
  feature_matrix [Example.cA; Example.eA] [Example.r1; Example.r2]
  = Raise KeyError.
Proof.
  apply (feature_matrix_missing_relatum _ _ Example.r2 Example.cB).
  - decide_by_compute.
  - decide_by_compute.
  - apply (bool_decide_eq_false_1 (Example.cB ∈ [Example.cA; Example.eA])).
    vm_compute. reflexivity.
Defined.


Lemma geometry_extraction_witness :
  ∃ features,
    feature_matrix (separate_ces Example.ces) Example.relations = Ok features
    ∧ chunk_list (edges_of features) 2
      = relation_vertex_indices features <$> columns_summing_to features 2
    ∧ triangles_of features
      = relation_vertex_indices features <$> columns_summing_to features 3.
Proof.
  eexists. split; [vm_compute; reflexivity|].
  edestruct (geometry_extraction (separate_ces Example.ces) Example.relations)
    as (_ & _ & _ & Hedges & Htriangles & _); [vm_compute; reflexivity|].
  split; [exact Hedges|exact Htriangles].
Defined.

Lemma empty_relations_no_primitives_witness :
  ∃ features,
    feature_matrix (separate_ces Example.ces) [] = Ok features
    ∧ relation_stages Example.node_labels Example.node_indices Example.opts
        Example.ces features [] [] [] [] = Ok [].
Proof.
  destruct (empty_relations_no_primitives Example.node_labels
              Example.node_indices Example.opts Example.ces [] [] [])
    as (features & Hfm & _ & _ & Hstages & _).
  exists features. split; [exact Hfm|exact Hstages].
Defined.

Lemma mechanism_sizes_pairwise_min_witness :
  ∃ sizes mechanisms,
    marker_sizes Example.vertex_size_range (separate_ces Example.ces)
    = Ok (sizes, mechanisms)
    ∧ length mechanisms = 2.
Proof.
  destruct (mechanism_sizes_pairwise_min Example.vertex_size_range
              Example.ces)
    as (sizes & mechanisms & Hm & _ & _ & _ & _ & Hlen & _);
    [discriminate|].
  exists sizes, mechanisms. split; [exact Hm|exact Hlen].
Defined.

(* ===================================================================== *)
(** * Further properties of the code *)
(* ===================================================================== *)

(** ** Sizes stay in their range *)



(** ** chunk_list *)

Lemma chunk_list_nil {A} (n : nat) : 0 < n → chunk_list (@nil A) n = [].
Proof.
  intros Hn. unfold chunk_list, range_step. simpl.
  by rewrite Nat.div_small by lia.
Qed.

Lemma range_step_succ (len n : nat) :
  0 < n → 0 < len →
  range_step len n = 0 :: ((λ k, k + n) <$> range_step (len - n) n).
Proof.
  intros Hn Hlen. unfold range_step.
  assert ((len + n - 1) `div` n = S ((len - n + n - 1) `div` n)) as ->.
  { destruct (decide (n ≤ len)) as [Hle|Hgt].
    - replace (len + n - 1) with ((len - n + n - 1) + 1 * n) by lia.
      rewrite Nat.div_add by lia. lia.
    - replace (len - n + n - 1) with (n - 1) by lia.
      rewrite (Nat.div_small (n - 1)) by lia.
      replace (len + n - 1) with ((len - 1) + 1 * n) by lia.
      rewrite Nat.div_add by lia. rewrite Nat.div_small by lia. done. }
  cbn [seq fmap list_fmap]. f_equal.
  rewrite <- fmap_S_seq, <- !list_fmap_compose.
  apply list_fmap_ext. intros _ k _. simpl. lia.
Qed.

(** The first chunk and the chunks of what follows it. *)
Lemma chunk_list_step {A} (l : list A) (n : nat) :
  0 < n → l ≠ [] →
  chunk_list l n = take n l :: chunk_list (drop n l) n.
Proof.
  intros Hn Hl. unfold chunk_list.
  rewrite (range_step_succ (length l) n);
    [|done|destruct l; [done|simpl; lia]].
  rewrite length_drop. cbn [fmap list_fmap]. f_equal.
  - unfold slice. simpl. by rewrite Nat.sub_0_r.
  - rewrite <- list_fmap_compose. apply list_fmap_ext. intros _ k _. simpl.
    unfold slice. rewrite drop_drop.
    replace (k + n + n - (k + n)) with (k + n - k) by lia.
    by replace (n + k) with (k + n) by lia.
Qed.

Lemma chunk_list_ind {A} (n : nat) (P : list A → Prop) :
  0 < n → P [] → (∀ l, l ≠ [] → P (drop n l) → P l) → ∀ l, P l.
Proof.
  intros Hn Hnil Hstep l. remember (length l) as m eqn:Hm. revert l Hm.
  induction m as [m IH] using lt_wf_ind. intros l ->.
  destruct l as [|a l]; [done|]. apply Hstep; [done|].
  eapply IH; [|reflexivity]. rewrite length_drop. simpl. lia.
Qed.

(** X2. Cutting a list in chunks of [n > 0] elements loses nothing and
    keeps the order: the chunks put end to end are the list. *)
Theorem chunk_list_concat {A} (l : list A) (n : nat) :
  0 < n → concat (chunk_list l n) = l.
Proof.
  intros Hn. pattern l. apply (chunk_list_ind n); [done|..]; clear l.
  - by rewrite chunk_list_nil.
  - intros l Hl IH. rewrite chunk_list_step by done. simpl. rewrite IH.
    apply take_drop.
Qed.

Lemma chunk_list_concat_witness :
  concat (chunk_list [1; 2; 3; 4; 5] 2) = [1; 2; 3; 4; 5].
Proof. apply chunk_list_concat. lia. Defined.

(** X3. With [n > 0] there are as many chunks as [n] goes into the length,
    rounded up; no chunk is empty or longer than [n], and every chunk but
    the last has exactly [n] elements. *)
Theorem chunk_list_sizes {A} (l : list A) (n : nat) :
  0 < n →
  length (chunk_list l n) = (length l + n - 1) `div` n
  ∧ (∀ c, c ∈ chunk_list l n → 0 < length c ≤ n)
  ∧ (∀ i c, chunk_list l n !! i = Some c →
            S i < length (chunk_list l n) → length c = n).
Proof.
  intros Hn. split.
  { unfold chunk_list, range_step. by rewrite !length_fmap, length_seq. }
  pattern l. apply (chunk_list_ind n); [done|..]; clear l.
  - rewrite chunk_list_nil by done. split; [by intros c []%elem_of_nil|done].
  - intros l Hl IH.
    rewrite chunk_list_step by done. destruct IH as [IHsize IHfull]. split.
    + intros c [->|Hc]%elem_of_cons; [|by apply IHsize].
      rewrite length_take. destruct l; simpl in *; [done|lia].
    + intros [|i] c Hc Hi; simpl in *.
      * injection Hc as <-. rewrite length_take.
        destruct (chunk_list (drop n l) n) as [|c' cs] eqn:Hrest;
          [simpl in Hi; lia|].
        assert (Hc' : c' ∈ c' :: cs) by left.
        apply IHsize in Hc'.
        assert (drop n l ≠ []).
        { intros Hnil. rewrite Hnil, chunk_list_nil in Hrest; done. }
        assert (n < length l); [|lia].
        destruct (decide (n < length l)); [done|].
        by rewrite drop_ge in * by lia.
      * apply (IHfull i c Hc). lia.
Qed.

Lemma chunk_list_sizes_witness :
  length (chunk_list [1; 2; 3; 4; 5] 2) = 3.
Proof. apply (chunk_list_sizes [1; 2; 3; 4; 5] 2). lia. Defined.

(** ** Separating causes and effects *)

Lemma separate_snoc {A} (l : list A) (x : A) :
  separate_cause_and_effect_purviews_for (l ++ [x])
  = let '(causes, effects) := separate_cause_and_effect_purviews_for l in
    if Nat.even (length l) then (causes ++ [x], effects)
    else (causes, effects ++ [x]).
Proof.
  unfold separate_cause_and_effect_purviews_for.
  rewrite enumerate_snoc, foldl_snoc. by destruct (foldl _ _ _).
Qed.

Lemma even_length_snoc {A} (l : list A) (x : A) :
  Nat.even (length (l ++ [x])) = negb (Nat.even (length l)).
Proof.
  by rewrite length_app, Nat.add_1_r, Nat.even_succ, <- Nat.negb_even.
Qed.

Lemma separate_lengths {A} (l : list A) :
  length (evens l)
  = length (odds l) + (if Nat.even (length l) then 0 else 1)
  ∧ length (evens l) + length (odds l) = length l.
Proof.
  unfold evens, odds. induction l as [|x l IH] using rev_ind; [done|].
  rewrite even_length_snoc, separate_snoc, length_app.
  destruct (separate_cause_and_effect_purviews_for l) as [causes effects].
  simpl in IH. destruct IH as [IHc IHe].
  destruct (Nat.even (length l)); simpl; rewrite length_app; simpl; lia.
Qed.

Lemma separate_lookup {A} (given_list : list A) (i : nat) :
  (separate_cause_and_effect_purviews_for given_list).1 !! i
  = given_list !! (2 * i)
  ∧ (separate_cause_and_effect_purviews_for given_list).2 !! i
    = given_list !! (2 * i + 1).
Proof.
  induction given_list as [|x l IH] using rev_ind; [done|].
  pose proof (separate_lengths l) as [Hc He]. unfold evens, odds in Hc, He.
  rewrite separate_snoc.
  destruct (separate_cause_and_effect_purviews_for l) as [causes effects].
  cbn [fst snd] in *. destruct IH as [IHc IHe].
  destruct (Nat.even (length l)) eqn:Hpar; cbn [fst snd].
  - assert (length l = 2 * length causes) as Hl by lia. split.
    + destruct (decide (i < length causes)).
      * by rewrite !lookup_app_l by lia.
      * destruct (decide (i = length causes)) as [->|].
        -- rewrite <- Hl. by rewrite !list_lookup_middle.
        -- rewrite !lookup_ge_None_2; [done|..];
             rewrite length_app; simpl; lia.
    + destruct (decide (i < length effects)).
      * by rewrite lookup_app_l by lia.
      * rewrite !lookup_ge_None_2; [done|..];
          rewrite ?length_app; simpl; lia.
  - assert (length l = 2 * length effects + 1) as Hl by lia. split.
    + destruct (decide (i < length causes)).
      * by rewrite lookup_app_l by lia.
      * rewrite !lookup_ge_None_2; [done|..];
          rewrite ?length_app; simpl; lia.
    + destruct (decide (i < length effects)).
      * by rewrite !lookup_app_l by lia.
      * destruct (decide (i = length effects)) as [->|].
        -- rewrite <- Hl. by rewrite !list_lookup_middle.
        -- rewrite !lookup_ge_None_2; [done|..];
             rewrite length_app; simpl; lia.
Qed.

(** X4. [separate_cause_and_effect_purviews_for] returns the entries at
    the even positions and the entries at the odd positions, in order:
    entry [i] of the first list is entry [2i] of the given list and entry
    [i] of the second one is entry [2i+1]. Together the two lists have
    the length of the given list, the first one being as long as the
    second or one entry longer. *)
Theorem separate_cause_and_effect_purviews_for_positions {A}
    (given_list : list A) :
  let causes := (separate_cause_and_effect_purviews_for given_list).1 in
  let effects := (separate_cause_and_effect_purviews_for given_list).2 in
  (∀ i, causes !! i = given_list !! (2 * i)
        ∧ effects !! i = given_list !! (2 * i + 1))
  ∧ length causes + length effects = length given_list
  ∧ length effects ≤ length causes ≤ length effects + 1.
Proof.
  intros causes effects. split; [intros i; apply separate_lookup|].
  pose proof (separate_lengths given_list) as [Hc He].
  unfold evens, odds in Hc, He. fold causes effects in Hc, He.
  destruct (Nat.even (length given_list)); lia.
Qed.

(** X5. On the Separated CES the two lists are the causes and the effects
    of the distinctions, in CES order. *)
Theorem separate_cause_and_effect_of_separated_ces
    (ces : list Distinction.t) :
  separate_cause_and_effect_purviews_for (separate_ces ces)
  = (Distinction.cause <$> ces, Distinction.effect <$> ces).
Proof.
  pose proof (separate_lengths (separate_ces ces)) as [Hc He].
  unfold evens, odds in Hc, He. rewrite separate_ces_length in Hc, He.
  replace (Nat.even (2 * length ces)) with true in Hc
    by (by rewrite Nat.even_mul).
  pose proof (separate_lookup (separate_ces ces)) as Hlookup.
  destruct (separate_cause_and_effect_purviews_for (separate_ces ces))
    as [causes effects]. cbn [fst snd] in *.
  f_equal; apply list_eq; intros i; destruct (Hlookup i) as [Hci Hei];
    rewrite list_lookup_fmap.
  - rewrite Hci. destruct (ces !! i) as [d|] eqn:Hd.
    + by destruct (separate_ces_lookup ces i d Hd) as [-> _].
    + apply lookup_ge_None_2. rewrite separate_ces_length.
      apply lookup_ge_None_1 in Hd. lia.
  - rewrite Hei. destruct (ces !! i) as [d|] eqn:Hd.
    + by destruct (separate_ces_lookup ces i d Hd) as [_ ->].
    + apply lookup_ge_None_2. rewrite separate_ces_length.
      apply lookup_ge_None_1 in Hd. lia.
Qed.

Lemma for_each_app {A St} (body : St → A → result St) (s : St)
    (l1 l2 : list A) :
  for_each body s (l1 ++ l2) = s' ← for_each body s l1; for_each body s' l2.
Proof.
  revert s. induction l1 as [|a l1 IH]; intros s; [done|].
  cbn [app for_each]. destruct (body s a) as [s1|]; [|done].
  cbn [mbind result_bind]. apply IH.
Qed.

Lemma mapM_snoc {A B} (f : A → result B) (l : list A) (x : A) :
  mapM f (l ++ [x]) = k ← mapM f l; y ← f x; Ok (k ++ [y]).
Proof.
  induction l as [|a l IH].
  - cbn. by destruct (f x).
  - change (mapM f ((a :: l) ++ [x]))
      with (b ← f a; k ← mapM f (l ++ [x]); mret (b :: k)).
    change (mapM f (a :: l)) with (b ← f a; k ← mapM f l; mret (b :: k)).
    rewrite IH. destruct (f a) as [b|]; [|done]. cbn [mbind result_bind].
    destruct (mapM f l) as [k|]; [|done]. cbn [mbind result_bind].
    by destruct (f x).
Qed.

Lemma getitem_Ok {A} (l : list A) (i : nat) :
  i < length l → ∃ a, getitem l i = Ok a.
Proof.
  intros Hi. unfold getitem.
  destruct (lookup_lt_is_Some_2 l i Hi) as [a ->]. by exists a.
Qed.

Lemma getitem_Raise {A} (l : list A) (i : nat) :
  length l ≤ i → getitem l i = Raise IndexError.
Proof. intros Hi. unfold getitem. by rewrite lookup_ge_None_2. Qed.

(** X6. [separate_cause_and_effect_for] separates each coordinate as
    [separate_cause_and_effect_purviews_for] separates a list: on points
    of at least two coordinates it returns the [x] and the [y] of the
    points at the even positions, then those of the points at the odd
    positions; a point with fewer than two coordinates makes it raise
    [IndexError]. *)
Theorem separate_cause_and_effect_for_columns (coords : list (list Q)) :
  (Forall (λ row, 2 ≤ length row) coords →
   ∃ x y,
     mapM (λ row, getitem row 0) coords = Ok x
     ∧ mapM (λ row, getitem row 1) coords = Ok y
     ∧ separate_cause_and_effect_for coords
       = Ok ((separate_cause_and_effect_purviews_for x).1,
             (separate_cause_and_effect_purviews_for y).1,
             (separate_cause_and_effect_purviews_for x).2,
             (separate_cause_and_effect_purviews_for y).2))
  ∧ (Exists (λ row, length row < 2) coords →
     separate_cause_and_effect_for coords = Raise IndexError).
Proof.
  unfold separate_cause_and_effect_for.
  induction coords as [|row coords IH] using rev_ind.
  { split; [by exists [], []|by intros ?%Exists_nil]. }
  destruct IH as [IHok IHraise].
  rewrite enumerate_snoc, for_each_app. cbn [for_each]. split.
  - intros [Hcoords [Hrow _]%Forall_cons]%Forall_app.
    destruct (IHok Hcoords) as (x & y & Hx & Hy & ->).
    destruct (getitem_Ok row 0) as [a Ha]; [lia|].
    destruct (getitem_Ok row 1) as [b Hb]; [lia|].
    exists (x ++ [a]), (y ++ [b]).
    rewrite !mapM_snoc, Hx, Hy, Ha, Hb. do 2 (split; [done|]).
    cbn [mbind result_bind]. rewrite !separate_snoc.
    rewrite (mapM_Ok_length _ _ _ Hx), (mapM_Ok_length _ _ _ Hy).
    destruct (separate_cause_and_effect_purviews_for x),
      (separate_cause_and_effect_purviews_for y).
    rewrite Ha. cbn [mbind result_bind]. rewrite Hb. cbn [mbind result_bind].
    by destruct (Nat.even (length coords)).
  - intros [Hbad|Hbad]%Exists_app.
    + by rewrite (IHraise Hbad).
    + apply Exists_cons in Hbad as [Hrow|[]%Exists_nil].
      destruct (for_each _ _ (enumerate coords)) as [[[[cx cy] ex] ey]|] eqn:Hs.
      * cbn [mbind result_bind].
        destruct (decide (length row = 0)).
        -- by rewrite (getitem_Raise row 0) by lia.
        -- destruct (getitem_Ok row 0) as [a ->]; [lia|].
           by rewrite (getitem_Raise row 1) by lia.
      * (* an earlier point already raised: it was a short one *)
        destruct (decide (Exists (λ row, length row < 2) coords))
          as [Hex|Hall].
        -- cbn [mbind result_bind]. exact (IHraise Hex).
        -- apply not_Exists_Forall in Hall; [|intros ?; apply _].
           destruct IHok as (? & ? & _ & _ & Hok).
           { eapply Forall_impl; [exact Hall|]. simpl. lia. }
           congruence.
Qed.

Lemma separate_cause_and_effect_for_columns_witness :
  separate_cause_and_effect_for [[1; 2]; [3; 4]; [5; 6]]%Q
  = Ok ([1; 5], [2; 6], [3], [4])%Q
  ∧ separate_cause_and_effect_for [[1; 2]; [3]]%Q = Raise IndexError.
Proof.
  split.
  - destruct (proj1 (separate_cause_and_effect_for_columns
                       [[1; 2]; [3; 4]; [5; 6]]%Q))
      as (x & y & Hx & Hy & ->).
    + repeat constructor.
    + injection Hx as <-. injection Hy as <-. reflexivity.
  - apply (proj2 (separate_cause_and_effect_for_columns [[1; 2]; [3]]%Q)).
    right. left. simpl. lia.
Defined.

(** ** The colour of an edge *)

Lemma get_edge_color_first_two (relation : Relation.t) (m0 m1 : MICE.t)
    (rest : list MICE.t) :
  Relation.relata relation = m0 :: m1 :: rest →
  let p0 := MICE.purview m0 in
  let p1 := MICE.purview m1 in
  let pr := Relation.purview relation in
  get_edge_color relation true
  = if bool_decide (p0 = p1) && bool_decide (p1 = pr) then Ok "fuchsia"
    else if bool_decide (p0 ≠ p1) && (all_in p0 p1 || all_in p1 p0)
    then Ok "indigo"
    else if (bool_decide (p0 = p1) && bool_decide (p1 ≠ pr))
            || (any_in p0 p1 && negb (all_in p0 p1))
    then Ok "cyan"
    else Raise ValueError.
Proof.
  intros Hrel. unfold get_edge_color, Relation.purviews. by rewrite Hrel.
Qed.

Lemma any_in_comm (p q : list nat) : any_in p q = any_in q p.
Proof.
  apply eq_true_iff_eq. rewrite !any_in_overlap.
  split; intros (n & ? & ?); by exists n.
Qed.

(** X7. The colour of an edge does not depend on the order of its two
    relata: two relations with the same purview whose first two relata
    are exchanged get the same colour, or both raise the same exception. *)
Theorem get_edge_color_symmetric (relation relation' : Relation.t)
    (m0 m1 : MICE.t) (rest rest' : list MICE.t)
    (colorcode_2_relations : bool) :
  Relation.relata relation = m0 :: m1 :: rest →
  Relation.relata relation' = m1 :: m0 :: rest' →
  Relation.purview relation = Relation.purview relation' →
  get_edge_color relation colorcode_2_relations
  = get_edge_color relation' colorcode_2_relations.
Proof.
  intros Hrel Hrel' Hpr. destruct colorcode_2_relations; [|done].
  rewrite (get_edge_color_first_two _ _ _ _ Hrel),
    (get_edge_color_first_two _ _ _ _ Hrel'), <- Hpr.
  rewrite (any_in_comm (MICE.purview m1)).
  set (p0 := MICE.purview m0). set (p1 := MICE.purview m1).
  set (pr := Relation.purview relation).
  destruct (decide (p0 = p1)) as [->|Hne].
  - rewrite !bool_decide_eq_true_2 by done.
    rewrite !(bool_decide_eq_false_2 (p1 ≠ p1)) by (by intros []).
    by repeat case_bool_decide.
  - rewrite !(bool_decide_eq_false_2 (p0 = p1)) by done.
    rewrite !(bool_decide_eq_false_2 (p1 = p0)) by done.
    rewrite !(bool_decide_eq_true_2 (p0 ≠ p1)) by done.
    rewrite !(bool_decide_eq_true_2 (p1 ≠ p0)) by done.
    by destruct (all_in p0 p1), (all_in p1 p0), (any_in p0 p1).
Qed.

Lemma get_edge_color_symmetric_witness :
  get_edge_color Example.r2 true
  = get_edge_color
      (Relation.Build [Example.cB; Example.cA] [1] (1 # 10)) true.
Proof.
  by apply (get_edge_color_symmetric Example.r2 _ Example.cA Example.cB [] []).
Defined.

(** X8. With colour coding, a relation with fewer than two relata makes
    [get_edge_color] raise [IndexError]. With two relata or more it
    raises [ValueError] exactly when the purviews of the first two relata
    are both non-empty and have no node in common, and returns one of the
    three colours otherwise; nothing else is raised. *)
Theorem get_edge_color_errors (relation : Relation.t) :
  (length (Relation.relata relation) < 2 →
   get_edge_color relation true = Raise IndexError)
  ∧ ∀ m0 m1 rest,
      Relation.relata relation = m0 :: m1 :: rest →
      let p0 := MICE.purview m0 in
      let p1 := MICE.purview m1 in
      (get_edge_color relation true = Raise ValueError
       ↔ p0 ≠ [] ∧ p1 ≠ [] ∧ ∀ n, n ∈ p0 → n ∉ p1)
      ∧ (get_edge_color relation true = Raise ValueError
         ∨ get_edge_color relation true = Ok "fuchsia"
         ∨ get_edge_color relation true = Ok "indigo"
         ∨ get_edge_color relation true = Ok "cyan").
Proof.
  split.
  - unfold get_edge_color, Relation.purviews.
    destruct (Relation.relata relation) as [|m0 [|m1 rest]]; simpl;
      [done|done|lia].
  - intros m0 m1 rest Hrel p0 p1.
    rewrite (get_edge_color_first_two _ _ _ _ Hrel). fold p0 p1.
    clearbody p0 p1.
    pose proof (all_in_subseteq p0 p1) as H01.
    pose proof (all_in_subseteq p1 p0) as H10.
    pose proof (any_in_overlap p0 p1) as Hany.
    assert (Hnil : ∀ p q : list nat, p ⊆ q → p ≠ [] → ∃ n, n ∈ p ∧ n ∈ q).
    { intros [|n p] q Hsub Hne; [done|].
      exists n. split; [left|apply Hsub; left]. }
    assert (Hempty : ∀ q : list nat, [] ⊆ q) by (intros q n []%elem_of_nil).
    split.
    + destruct (decide (p0 = p1)) as [Heq|Hne].
      * rewrite (bool_decide_eq_true_2 (p0 = p1)) by done.
        rewrite (bool_decide_eq_false_2 (p0 ≠ p1)) by (by intros []).
        repeat case_bool_decide; simpl; try done; (split; [done|]).
        all: intros (Hp0 & _ & Hdisj); exfalso.
        all: destruct p0 as [|n p0']; [done|].
        all: apply (Hdisj n); [left|rewrite <- Heq; left].
      * rewrite (bool_decide_eq_false_2 (p0 = p1)) by done.
        rewrite (bool_decide_eq_true_2 (p0 ≠ p1)) by done. simpl.
        destruct (all_in p0 p1) eqn:E01; simpl.
        { split; [done|]. intros (Hp0 & _ & Hdisj). exfalso.
          destruct (Hnil p0 p1) as (n & ? & ?); [by apply H01|done|].
          by apply (Hdisj n). }
        destruct (all_in p1 p0) eqn:E10; simpl.
        { split; [done|]. intros (_ & Hp1 & Hdisj). exfalso.
          destruct (Hnil p1 p0) as (n & ? & ?); [by apply H10|done|].
          by apply (Hdisj n). }
        destruct (any_in p0 p1) eqn:Eany; simpl.
        { split; [done|]. intros (_ & _ & Hdisj). exfalso.
          destruct (proj1 Hany eq_refl) as (n & ? & ?). by apply (Hdisj n). }
        split; [|done]. intros _. split; [|split].
        -- intros ->. destruct H01 as [_ H01]. by discriminate H01.
        -- intros ->. destruct H10 as [_ H10]. by discriminate H10.
        -- intros n Hn0 Hn1. destruct Hany as [_ Hany].
           discriminate Hany. by exists n.
    + repeat (match goal with |- context [if ?b then _ else _] =>
                destruct b end; auto).
Qed.

Lemma get_edge_color_errors_witness :
  get_edge_color (Relation.Build [Example.cA] [0] 1) true = Raise IndexError
  ∧ get_edge_color
      (Relation.Build [Example.cA; MICE.Build [1] [2] EFFECT 1] [0] 1) true
    = Raise ValueError.
Proof.
  split.
  - apply (proj1 (get_edge_color_errors _)). simpl. lia.
  - apply (proj1 (proj2 (get_edge_color_errors
      (Relation.Build [Example.cA; MICE.Build [1] [2] EFFECT 1] [0] 1))
      Example.cA (MICE.Build [1] [2] EFFECT 1) [] eq_refl)).
    split; [done|]. split; [done|]. intros n Hn Hn'.
    apply list_elem_of_singleton in Hn' as ->.
    revert Hn. apply (bool_decide_eq_false_1 (2 ∈ [0; 1])).
    vm_compute. reflexivity.
Defined.

(** ** purview_chunker on any list *)

Lemma index_elem `{EqDecision A} (l : list A) (x : A) :
  x ∈ l →
  ∃ i, index l x = Ok i ∧ l !! i = Some x ∧ ∀ j, j < i → l !! j ≠ Some x.
Proof.
  intros Hx. unfold index.
  destruct (list_find (λ y, y = x) l) as [[i y]|] eqn:Hfind.
  - apply list_find_Some in Hfind as (Hi & -> & Hfirst).
    exists i. split; [done|]. split; [done|].
    intros j Hj Hlook. by apply (Hfirst j x).
  - apply list_find_None in Hfind.
    rewrite Forall_forall in Hfind. by destruct (Hfind x Hx).
Qed.

Lemma mechanisms_getitem (r : Relation.t) :
  Relation.relata r ≠ [] → ∃ m, getitem (Relation.mechanisms r) 0 = Ok m.
Proof.
  unfold Relation.mechanisms. destruct (Relation.relata r); [done|].
  intros _. by eexists.
Qed.

Lemma mechanisms_getitem_Raise (r : Relation.t) :
  Relation.relata r = [] →
  getitem (Relation.mechanisms r) 0 = Raise IndexError.
Proof. unfold Relation.mechanisms. by intros ->. Qed.



(** X10. [purview_chunker] raises [IndexError] on the empty list, and on
    a list that holds a relation without relata. *)
Theorem purview_chunker_index_error (relations_list : list Relation.t) :
  relations_list = [] ∨ Exists (λ r, Relation.relata r = []) relations_list →
  purview_chunker relations_list = Raise IndexError.
Proof.
  intros [->|Hbad]; [done|].
  destruct relations_list as [|r0 rs]; [by apply Exists_nil in Hbad|].
  unfold purview_chunker.
  change (getitem (r0 :: rs) 0) with (Ok r0). cbn [mbind result_bind].
  match goal with |- context [for_each ?b _ _] => set (body := b) end.
  assert (Hloop : ∀ rest st,
            rest ⊆ r0 :: rs → Exists (λ r, Relation.relata r = []) rest →
            for_each body st rest = Raise IndexError).
  { induction rest as [|r rest IH]; intros st Hsub Hex;
      [by apply Exists_nil in Hex|].
    assert (Hr : r ∈ r0 :: rs) by (apply Hsub; left).
    destruct (index_elem (r0 :: rs) r Hr) as (i & Hi & _).
    assert (Hbody : body st r = Raise IndexError
                    ∨ (Relation.relata r ≠ [] ∧ ∃ st', body st r = Ok st')).
    { unfold body. cbv beta. rewrite Hi.
      destruct (decide (Relation.relata r = [])) as [Hnil|Hne].
      { left. by rewrite (mechanisms_getitem_Raise r Hnil). }
      destruct (mechanisms_getitem r Hne) as [m ->].
      cbn [mbind result_bind].
      destruct (decide (Relation.relata (Chunker.previous_relation st) = []))
        as [Hnil'|Hne'].
      { left. by rewrite (mechanisms_getitem_Raise _ Hnil'). }
      destruct (mechanisms_getitem _ Hne') as [m' ->].
      right. split; [done|].
      cbn [mbind result_bind]. destruct (_ && _); by eexists. }
    cbn [for_each]. destruct Hbody as [->|(Hne & st' & ->)]; [done|].
    cbn [mbind result_bind]. apply IH.
    - intros x Hx. apply Hsub. by right.
    - by apply Exists_cons in Hex as [?|?]. }
  rewrite Hloop; [done|done|done].
Qed.

Lemma purview_chunker_index_error_witness :
  purview_chunker [Example.r1; Relation.Build [] [0] 1] = Raise IndexError.
Proof.
  apply purview_chunker_index_error. right. right. by left.
Defined.

(** ** The feature matrix on any input *)

Lemma sum_list_indicator {A} (P : A → Prop) `{∀ x, Decision (P x)}
    (l : list A) :
  sum_list ((λ x, if bool_decide (P x) then 1 else 0) <$> l)
  = length (filter P l).
Proof.
  induction l as [|x l IH]; [done|]. cbn [fmap list_fmap sum_list sum_list_with].
  rewrite filter_cons. case_bool_decide.
  - rewrite decide_True by done. simpl. by f_equal.
  - by rewrite decide_False by done.
Qed.

Lemma assign_ones_indicator (N : nat) (indices : list nat) :
  assign_ones N indices
  = (λ p, if bool_decide (p ∈ indices) then 1 else 0) <$> seq 0 N.
Proof.
  apply list_eq. intros p. rewrite list_lookup_fmap.
  destruct (decide (p < N)) as [Hp|Hp].
  - by rewrite assign_ones_lookup, lookup_seq_lt by done.
  - rewrite lookup_seq_ge by lia. apply lookup_ge_None_2.
    rewrite assign_ones_length. lia.
Qed.

(** A vector of ones at the given indices sums to the number of distinct
    indices. *)
Lemma assign_ones_sum_distinct (N : nat) (indices : list nat) :
  (∀ i, i ∈ indices → i < N) →
  sum_list (assign_ones N indices) = length (remove_dups indices).
Proof.
  intros Hlt. rewrite assign_ones_indicator, sum_list_indicator.
  apply Permutation_length, NoDup_Permutation.
  - apply NoDup_filter, NoDup_seq.
  - apply NoDup_remove_dups.
  - intros p. rewrite list_elem_of_filter, elem_of_seq, elem_of_remove_dups.
    split; [by intros []|]. intros Hp. split; [done|].
    specialize (Hlt p Hp). lia.
Qed.

Lemma index_map_indices (ces relata : list MICE.t) (indices : list nat) :
  Forall2 (λ relatum i, index_map ces !! relatum = Some i) relata indices →
  length (remove_dups indices) = length (remove_dups relata).
Proof.
  intros Hind.
  set (f := λ m, default 0 (index_map ces !! m)).
  assert (Hf : indices = f <$> relata).
  { induction Hind as [|m i relata indices Hm _ IH]; [done|].
    cbn [fmap list_fmap]. unfold f at 1. rewrite Hm. simpl. by f_equal. }
  assert (Hfound : ∀ m, m ∈ relata → ces !! f m = Some m).
  { intros m (k & Hk)%list_elem_of_lookup.
    destruct (Forall2_lookup_l _ _ _ _ _ Hind Hk) as (i & _ & Hi).
    unfold f. rewrite Hi. simpl. by apply index_map_lookup in Hi as [? _]. }
  rewrite <- (length_fmap f (remove_dups relata)), Hf.
  apply Permutation_length, NoDup_Permutation.
  - apply NoDup_remove_dups.
  - apply NoDup_fmap_2_strong; [|apply NoDup_remove_dups].
    intros m m' Hm Hm' Heq.
    apply (proj1 (elem_of_remove_dups _ _)), Hfound in Hm.
    apply (proj1 (elem_of_remove_dups _ _)), Hfound in Hm'.
    rewrite Heq in Hm. congruence.
  - intros i. rewrite elem_of_remove_dups, !list_elem_of_fmap.
    split; intros (m & -> & Hm); exists m; split; try done;
      by apply elem_of_remove_dups.
Qed.

(** X11. The matrix that [feature_matrix] returns, whatever the input:
    cell [(p, r)] is 1 exactly when entry [p] is a relatum of relation
    [r] and no later entry of the CES is equal to it, and 0 otherwise;
    column [r] sums to the number of distinct relata of relation [r]. *)
Theorem feature_matrix_any_input (ces : list MICE.t)
    (relations : list Relation.t) (features : matrix) :
  feature_matrix ces relations = Ok features →
  (∀ p r entry relation,
     ces !! p = Some entry → relations !! r = Some relation →
     ∃ x, cell features p r = Some x
          ∧ (x = 0 ∨ x = 1)
          ∧ (x = 1 ↔ entry ∈ Relation.relata relation
                     ∧ ∀ q, p < q → ces !! q ≠ Some entry))
  ∧ (∀ r relation,
       relations !! r = Some relation →
       sum_list (column features r)
       = length (remove_dups (Relation.relata relation))).
Proof.
  intros [HN Hcols]%feature_matrix_Ok. split.
  - intros p r entry relation Hp Hr. unfold cell.
    destruct (Forall2_lookup_l _ _ _ _ _ Hcols Hr) as (col & -> & Hcol).
    cbn [mbind option_bind].
    destruct (relation_column_cell _ _ _ p Hcol) as (x & Hx & Hbin & Hone);
      [by eapply lookup_lt_Some|].
    exists x. do 2 (split; [done|]). rewrite Hone. split.
    + intros (m & Hm & [Hmp Hlast]%index_map_lookup).
      assert (m = entry) as -> by congruence. done.
    + intros [Hentry Hlast]. exists entry. split; [done|].
      by apply index_map_lookup.
  - intros r relation Hr. unfold column.
    destruct (Forall2_lookup_l _ _ _ _ _ Hcols Hr) as (col & -> & Hcol).
    apply relation_column_Ok in Hcol as (indices & Hind & ->).
    cbn [default from_option id].
    rewrite assign_ones_sum_distinct.
    + by apply (index_map_indices ces).
    + intros i (k & Hk)%list_elem_of_lookup.
      destruct (Forall2_lookup_r _ _ _ _ _ Hind Hk) as (m & _ & Hmi).
      by eapply index_map_lt.
Qed.

Lemma feature_matrix_any_input_witness :
  ∃ features,
    feature_matrix Example.repeated [Example.r1; Example.twice] = Ok features
    ∧ sum_list (column features 1) = 1.
Proof.
  eexists. split; [vm_compute; reflexivity|].
  apply (proj2 (feature_matrix_any_input Example.repeated
                  [Example.r1; Example.twice] _ eq_refl) 1 Example.twice).
  reflexivity.
Defined.

(** X12. [feature_matrix] returns a matrix exactly when every relatum of
    every relation is an entry of the CES it is given, and raises
    [KeyError] otherwise: it raises nothing else. *)
Theorem feature_matrix_returns_iff (ces : list MICE.t)
    (relations : list Relation.t) :
  ((∃ features, feature_matrix ces relations = Ok features)
   ↔ ∀ relation relatum,
       relation ∈ relations → relatum ∈ Relation.relata relation →
       relatum ∈ ces)
  ∧ ∀ e, feature_matrix ces relations = Raise e → e = KeyError.
Proof.
  split; [split|].
  - intros [features [_ Hcols]%feature_matrix_Ok] relation relatum
      (r & Hr)%list_elem_of_lookup Hrelatum.
    destruct (Forall2_lookup_l _ _ _ _ _ Hcols Hr) as (col & _ & Hcol).
    destruct (decide (relatum ∈ ces)) as [|Hnot]; [done|].
    by rewrite (relation_column_Raise _ _ relatum) in Hcol.
  - intros Hall.
    destruct (mapM_total (relation_column ces) relations) as [cols Hcols].
    { intros relation Hrel.
      destruct (relation_column_total ces relation) as (? & _ & ?); eauto. }
    exists (Matrix (length ces) cols).
    rewrite feature_matrix_columns. by rewrite Hcols.
  - intros e. rewrite feature_matrix_columns.
    induction relations as [|r relations IH]; [done|].
    change (mapM ?f (r :: relations))
      with (y ← f r; k ← mapM f relations; mret (y :: k)).
    destruct (relation_column ces r) as [col|e'] eqn:Hcol;
      cbn [mbind result_bind].
    + destruct (mapM _ relations); [done|]. exact IH.
    + intros [= <-]. by apply relation_column_exn in Hcol.
Qed.

(** ** Edges, triangles and the relations they stand for *)

Lemma filter_positions {A} (P : A → Prop) `{∀ x, Decision (P x)}
    (Q : nat → Prop) `{∀ j, Decision (Q j)} (l : list A) :
  (∀ j x, l !! j = Some x → (Q j ↔ P x)) →
  Forall2 (λ j x, l !! j = Some x) (filter Q (seq 0 (length l))) (filter P l).
Proof.
  induction l as [|x l IH] using rev_ind; intros HQP; [constructor|].
  rewrite length_app, Nat.add_1_r, seq_S, !filter_app. apply Forall2_app.
  - eapply Forall2_impl; [apply IH|].
    + intros j y Hy. apply HQP. by apply lookup_app_l_Some.
    + intros j y Hy. by apply lookup_app_l_Some.
  - specialize (HQP (length l) x (list_lookup_middle _ _ _ _ eq_refl)).
    cbn [Nat.add]. rewrite !filter_cons, !filter_nil.
    destruct (decide (P x)) as [HP|HP].
    + rewrite decide_True by (by apply HQP).
      constructor; [by apply list_lookup_middle|constructor].
    + rewrite decide_False by (by rewrite HQP). constructor.
Qed.

(** X13. When no relation lists a relatum twice, the columns of the
    feature matrix that sum to [k] are, in order, the columns of the
    relations with [k] relata: the edge of rank [r] is the edge of the
    2-relation of rank [r], and the triangle of rank [r] that of the
    3-relation of rank [r], as the loops of [plot_ces] take them. *)
Theorem columns_summing_to_relations (ces : list MICE.t)
    (relations : list Relation.t) (features : matrix) (k : nat) :
  (∀ relation, relation ∈ relations → NoDup (Relation.relata relation)) →
  feature_matrix ces relations = Ok features →
  Forall2 (λ j relation, relations !! j = Some relation)
          (columns_summing_to features k)
          (filter (λ r, length (Relation.relata r) = k) relations).
Proof.
  intros Hnd Hfm.
  destruct (feature_matrix_shape _ _ _ Hfm) as (_ & HM & _).
  apply feature_matrix_Ok in Hfm as [_ Hcols].
  unfold columns_summing_to. rewrite HM.
  apply (filter_positions (λ r, length (Relation.relata r) = k)
           (λ j, sum_list (column features j) = k)).
  intros j relation Hj. unfold column.
  destruct (Forall2_lookup_l _ _ _ _ _ Hcols Hj) as (col & -> & Hcol).
  cbn [default from_option id].
  rewrite (relation_column_sum ces relation col Hcol); [done|].
  by eapply Hnd, list_elem_of_lookup_2.
Qed.

Lemma columns_summing_to_relations_witness :
  ∃ features,
    feature_matrix (separate_ces Example.ces) Example.relations = Ok features
    ∧ Forall2 (λ j relation, Example.relations !! j = Some relation)
              (columns_summing_to features 2)
              [Example.r1; Example.r2; Example.r3].
Proof.
  eexists. split; [vm_compute; reflexivity|].
  apply (columns_summing_to_relations (separate_ces Example.ces)
           Example.relations _ 2); [|reflexivity].
  apply Forall_forall. apply (bool_decide_eq_true_1 _).
  vm_compute. reflexivity.
Defined.

Lemma nonzero_snoc (v : list nat) (x : nat) :
  nonzero (v ++ [x])
  = nonzero v ++ (if decide (x ≠ 0) then [length v] else []).
Proof.
  unfold nonzero. rewrite enumerate_snoc, filter_app, fmap_app.
  f_equal. rewrite filter_cons, filter_nil. cbn [snd].
  by destruct (decide (x ≠ 0)).
Qed.

(** X14. [relation_vertex_indices] lists the rows of a column that hold a
    value other than zero in increasing order: the end points of an edge
    and the corners of a triangle come in the order of the Separated CES,
    whatever the order of the relata in the relation. *)
Theorem relation_vertex_indices_increasing (features : matrix)
    (j i i' a b : nat) :
  i < i' →
  relation_vertex_indices features j !! i = Some a →
  relation_vertex_indices features j !! i' = Some b →
  a < b.
Proof.
  unfold relation_vertex_indices. generalize (column features j) as v.
  intros v. revert i i' a b.
  induction v as [|x v IH] using rev_ind; intros i i' a b Hlt; [done|].
  rewrite nonzero_snoc. intros Ha Hb.
  assert (Hbound : ∀ k c, nonzero v !! k = Some c → c < length v).
  { intros k c Hc. apply list_elem_of_lookup_2, elem_of_nonzero in Hc
      as (y & Hy & _). by eapply lookup_lt_Some. }
  destruct (decide (i' < length (nonzero v))) as [Hi'|Hi'].
  - rewrite lookup_app_l in Ha, Hb by lia. exact (IH i i' a b Hlt Ha Hb).
  - rewrite (lookup_app_r _ _ i') in Hb by lia.
    destruct (decide (x ≠ 0)); [|done].
    apply list_lookup_singleton_Some in Hb as [Hi'0 <-].
    rewrite lookup_app_l in Ha by lia. by eapply Hbound.
Qed.

Lemma relation_vertex_indices_increasing_witness :
  relation_vertex_indices (Matrix 3 [[1; 1; 0]; [0; 1; 1]]) 1 = [1; 2]
  ∧ 1 < 2.
Proof.
  split; [reflexivity|].
  apply (relation_vertex_indices_increasing
           (Matrix 3 [[1; 1; 0]; [0; 1; 1]]) 1 0 1 1 2);
    [lia|reflexivity|reflexivity].
Defined.

(** ** The traces of the relation stages *)

Lemma extends_add (T : trace → Prop) (s0 s s' : Scene.state) (t : trace) :
  extends T s0 s → T t → Scene.fig s' = Scene.fig s ++ [t] →
  extends T s0 s'.
Proof.
  intros (ts & Hts & HT) Ht Hfig. exists (ts ++ [t]). split.
  - by rewrite Hfig, Hts, app_assoc.
  - apply Forall_app. by repeat constructor.
Qed.

Section Emitted.
Variable node_labels : nat → string.
Variable node_indices : list nat.
Variable opts : options.
Variable ces : list Distinction.t.

Section EmittedSections.
Variable T : trace → Prop.
Variable mk : Family → string → bool → result trace.
Variable relation : Relation.t.
Variable s0 : Scene.state.

Lemma node_qfolds_extends (s s' : Scene.state) :
  (∀ tag show t, mk NodeQFold tag show = Ok t → T t) →
  extends T s0 s →
  node_qfolds node_labels node_indices mk relation s = Ok s' →
  extends T s0 s'.
Proof.
  intros Hmk. unfold node_qfolds. apply for_each_invariant.
  clear s s'. intros s node s' _ Hext.
  case_bool_decide; [|by intros [= <-]].
  destruct (mk _ _ _) as [t|] eqn:Ht; [|done]. intros [= <-].
  eapply extends_add; [done|by eapply Hmk|done].
Qed.

Lemma mechanism_qfolds_extends (s s' : Scene.state) :
  (∀ tag show t, mk MechanismQFold tag show = Ok t → T t) →
  extends T s0 s →
  mechanism_qfolds node_labels ces mk relation s = Ok s' →
  extends T s0 s'.
Proof.
  intros Hmk. unfold mechanism_qfolds. apply for_each_invariant.
  clear s s'. intros s mechanism s' _ Hext.
  case_bool_decide; [|by intros [= <-]].
  destruct (mk _ _ _) as [t|] eqn:Ht; [|done]. intros [= <-].
  eapply extends_add; [done|by eapply Hmk|done].
Qed.

Lemma compound_purview_qfolds_extends (s s' : Scene.state) :
  (∀ tag show t, mk CompoundPurviewQFold tag show = Ok t → T t) →
  extends T s0 s →
  compound_purview_qfolds node_labels mk relation s = Ok s' →
  extends T s0 s'.
Proof.
  intros Hmk. unfold compound_purview_qfolds. apply for_each_invariant.
  clear s s'. intros s purview s' _ Hext.
  destruct (mk _ _ _) as [t|] eqn:Ht; [|done]. intros [= <-].
  eapply extends_add; [done|by eapply Hmk|done].
Qed.

Lemma relation_purview_qfold_extends (s s' : Scene.state) :
  (∀ tag show t, mk RelationPurviewQFold tag show = Ok t → T t) →
  extends T s0 s →
  relation_purview_qfold node_labels mk relation s = Ok s' →
  extends T s0 s'.
Proof.
  intros Hmk Hext. unfold relation_purview_qfold.
  destruct (mk _ _ _) as [t|] eqn:Ht; [|done]. intros [= <-].
  eapply extends_add; [done|by eapply Hmk|done].
Qed.

Lemma mechanism_cause_purview_qfolds_extends (s s' : Scene.state) :
  (∀ tag show t, mk MechanismCausePurviewQFold tag show = Ok t → T t) →
  extends T s0 s →
  mechanism_cause_purview_qfolds node_labels ces mk relation s = Ok s' →
  extends T s0 s'.
Proof.
  intros Hmk. unfold mechanism_cause_purview_qfolds.
  apply for_each_invariant.
  clear s s'. intros s distinction s' _ Hext.
  destruct (_ && _); [|by intros [= <-]].
  destruct (mk _ _ _) as [t|] eqn:Ht; [|done]. intros [= <-].
  eapply extends_add; [done|by eapply Hmk|done].
Qed.
End EmittedSections.

Lemma line_trace xs ys zs sizes relation_color r place tag show t :
  line opts xs ys zs sizes relation_color r place tag show = Ok t →
  family t = place ∧ legendgroup t = tag ∧ showlegend t = show
  ∧ visible t = show_edges opts ∧ is_line t.
Proof.
  unfold line.
  destruct (getitem xs r); [|done]. destruct (getitem ys r); [|done].
  destruct (getitem zs r); [|done]. destruct (getitem sizes r); [|done].
  by intros [= <-].
Qed.

Lemma mesh_trace i j k sizes r place tag show t :
  mesh opts i j k sizes r place tag show = Ok t →
  family t = place ∧ legendgroup t = tag ∧ showlegend t = show
  ∧ visible t = match place with
                | CompoundPurviewQFold | RelationPurviewQFold =>
                    show_edges opts
                | _ => show_mesh opts
                end
  ∧ is_mesh t.
Proof.
  unfold mesh.
  destruct (getitem i r); [|done]. destruct (getitem j r); [|done].
  destruct (getitem k r); [|done]. destruct (getitem sizes r); [|done].
  by intros [= <-].
Qed.

(** One section of a loop body, under its option. *)
Ltac section_extends Hs lemma :=
  match type of Hs with
  | (when ?o ?section ?s ≫= _) = Ok _ =>
      let s1 := fresh "s" in
      let H1 := fresh "Hs" in
      destruct (when o section s) as [s1|] eqn:H1; [|done];
      cbn [mbind result_bind] in Hs;
      eapply when_invariant in H1;
      [|intros ??; eapply lemma; eassumption|eassumption]
  end.

Lemma two_relation_traces_extends xs ys zs sizes (r : nat)
    (relation : Relation.t) (s0 s s' : Scene.state) :
  extends (λ t, edge_trace opts t ∧ is_qfold t) s0 s →
  two_relation_traces node_labels node_indices opts ces xs ys zs sizes s
                      (r, relation) = Ok s' →
  ∃ ts t, Scene.fig s' = Scene.fig s0 ++ ts ++ [t]
          ∧ Forall (λ t, edge_trace opts t ∧ is_qfold t) ts
          ∧ edge_trace opts t ∧ family t = All2Relations.
Proof.
  intros Hext Hs. unfold two_relation_traces in Hs.
  destruct (get_edge_color _ _) as [relation_color|]; [|done].
  cbn [mbind result_bind] in Hs.
  set (T := λ t, edge_trace opts t ∧ is_qfold t).
  assert (Hmk : ∀ place tag show t,
            place ≠ All2Relations → place ≠ All3Relations →
            line opts xs ys zs sizes relation_color r place tag show = Ok t →
            T t).
  { intros place tag show t H2 H3 (Hp & _ & _ & Hv & Hl)%line_trace.
    unfold T, edge_trace, is_qfold. by rewrite Hp. }
  fold T in Hext.
  assert (Hq : ∀ place, place ≠ All2Relations → place ≠ All3Relations →
            ∀ tag show t,
              line opts xs ys zs sizes relation_color r place tag show = Ok t →
              T t) by (intros place ?? tag show t; by apply Hmk).
  pose proof (Hq NodeQFold ltac:(done) ltac:(done)) as Hnode.
  pose proof (Hq MechanismQFold ltac:(done) ltac:(done)) as Hmech.
  pose proof (Hq CompoundPurviewQFold ltac:(done) ltac:(done)) as Hcomp.
  pose proof (Hq RelationPurviewQFold ltac:(done) ltac:(done)) as Hrel.
  pose proof (Hq MechanismCausePurviewQFold ltac:(done) ltac:(done)) as Hmcp.
  clear Hq Hmk.
  section_extends Hs node_qfolds_extends.
  section_extends Hs mechanism_qfolds_extends.
  section_extends Hs compound_purview_qfolds_extends.
  section_extends Hs relation_purview_qfold_extends.
  section_extends Hs mechanism_cause_purview_qfolds_extends.
  destruct (line _ _ _ _ _ _ _ _ _ _) as [t|] eqn:Ht; [|done].
  injection Hs as <-. apply line_trace in Ht as (Hp & _ & _ & Hv & Hl).
  cbv beta in *.
  match goal with H : extends T s0 ?s5 |- context [Scene.add_trace t ?s5] =>
    destruct H as (ts & Hts & HT) end.
  exists ts, t. split; [cbn; by rewrite Hts, app_assoc|].
  split; [done|]. unfold edge_trace. by rewrite Hp.
Qed.

Lemma two_relation_traces_group xs ys zs sizes (r : nat)
    (relation : Relation.t) (s s' : Scene.state) :
  two_relation_traces node_labels node_indices opts ces xs ys zs sizes s
                      (r, relation) = Ok s' →
  ∃ group, Scene.fig s' = Scene.fig s ++ group
           ∧ relation_group (edge_trace opts) All2Relations group.
Proof.
  intros (ts & t & Hfig & Hts & Ht)%(two_relation_traces_extends _ _ _ _ _ _ s).
  - exists (ts ++ [t]). split; [done|]. by exists ts, t.
  - exists []. by rewrite app_nil_r.
Qed.

Lemma three_relation_traces_extends three_relations i j k sizes (r : nat)
    (triangle : list nat) (s0 s s' : Scene.state) :
  extends (λ t, triangle_trace opts t ∧ is_qfold t) s0 s →
  three_relation_traces node_labels node_indices opts ces three_relations
                        i j k sizes s (r, triangle) = Ok s' →
  ∃ ts t, Scene.fig s' = Scene.fig s0 ++ ts ++ [t]
          ∧ Forall (λ t, triangle_trace opts t ∧ is_qfold t) ts
          ∧ triangle_trace opts t ∧ family t = All3Relations.
Proof.
  intros Hext Hs. unfold three_relation_traces in Hs.
  destruct (getitem three_relations r) as [relation|]; [|done].
  cbn [mbind result_bind] in Hs.
  set (T := λ t, triangle_trace opts t ∧ is_qfold t).
  assert (Hq : ∀ place,
            place ≠ All2Relations → place ≠ All3Relations →
            place ≠ MechanismCausePurviewQFold →
            ∀ tag show t,
              mesh opts i j k sizes r place tag show = Ok t → T t).
  { intros place H2 H3 Hm tag show t (Hp & _ & _ & Hv & Hl)%mesh_trace.
    unfold T, triangle_trace, is_qfold. by rewrite Hp. }
  fold T in Hext.
  pose proof (Hq NodeQFold ltac:(done) ltac:(done) ltac:(done)) as Hnode.
  pose proof (Hq MechanismQFold ltac:(done) ltac:(done) ltac:(done))
    as Hmech.
  pose proof (Hq CompoundPurviewQFold ltac:(done) ltac:(done) ltac:(done))
    as Hcomp.
  pose proof (Hq RelationPurviewQFold ltac:(done) ltac:(done) ltac:(done))
    as Hrel.
  clear Hq.
  section_extends Hs node_qfolds_extends.
  section_extends Hs mechanism_qfolds_extends.
  section_extends Hs compound_purview_qfolds_extends.
  section_extends Hs relation_purview_qfold_extends.
  destruct (mesh _ _ _ _ _ _ _ _ _) as [t|] eqn:Ht; [|done].
  injection Hs as <-. apply mesh_trace in Ht as (Hp & _ & _ & Hv & Hl).
  cbv beta in *.
  match goal with H : extends T s0 ?s5 |- context [Scene.add_trace t ?s5] =>
    destruct H as (ts & Hts & HT) end.
  exists ts, t. split; [cbn; by rewrite Hts, app_assoc|].
  split; [done|]. unfold triangle_trace. by rewrite Hp.
Qed.

Lemma three_relation_traces_group three_relations i j k sizes (r : nat)
    (triangle : list nat) (s s' : Scene.state) :
  three_relation_traces node_labels node_indices opts ces three_relations
                        i j k sizes s (r, triangle) = Ok s' →
  ∃ group, Scene.fig s' = Scene.fig s ++ group
           ∧ relation_group (triangle_trace opts) All3Relations group.
Proof.
  intros (ts & t & Hfig & Hts & Ht)%(three_relation_traces_extends
                                       _ _ _ _ _ _ _ s).
  - exists (ts ++ [t]). split; [done|]. by exists ts, t.
  - exists []. by rewrite app_nil_r.
Qed.

Lemma two_relations_stage_groups features x y z relations
    (s s' : Scene.state) :
  two_relations_stage node_labels node_indices opts ces features x y z
                      relations s = Ok s' →
  ∃ groups,
    Scene.fig s' = Scene.fig s ++ concat groups
    ∧ Forall (relation_group (edge_trace opts) All2Relations) groups
    ∧ length groups
      = (if truthy (show_edges opts) && bool_decide (edges_of features ≠ [])
         then length (filter (λ r, length (Relation.relata r) = 2) relations)
         else 0).
Proof.
  unfold two_relations_stage.
  destruct (truthy (show_edges opts));
    [|intros [= <-]; exists []; by rewrite app_nil_r].
  case_bool_decide; [|intros [= <-]; exists []; by rewrite app_nil_r].
  destruct (mapM (getitem x) _) as [edges_x|]; [|done].
  destruct (mapM (getitem y) _) as [edges_y|]; [|done].
  destruct (mapM (getitem z) _) as [edges_z|]; [|done].
  cbn [mbind result_bind].
  destruct (Nat.even _); [|done].
  destruct (purview_chunker _); [|done]. cbn [mbind result_bind].
  destruct (normalize_sizes _ _ _) as [sizes|]; [|done].
  cbn [mbind result_bind andb]. intros Hloop.
  eapply (for_each_enumerate_invariant
            (λ r st, ∃ groups,
               Scene.fig st = Scene.fig s ++ concat groups
               ∧ Forall (relation_group (edge_trace opts) All2Relations)
                        groups
               ∧ length groups = r))
    in Hloop; [exact Hloop| |].
  - intros r relation st st' (groups & Hfig & Hgroups & Hlen)
      (group & Hfig' & Hgroup)%two_relation_traces_group.
    exists (groups ++ [group]). split; [|split].
    + rewrite Hfig', Hfig, concat_app. cbn. by rewrite app_nil_r, app_assoc.
    + apply Forall_app. by repeat constructor.
    + rewrite length_app. simpl. lia.
  - exists []. by rewrite app_nil_r.
Qed.

Lemma three_relations_stage_groups features relations (s s' : Scene.state) :
  three_relations_stage node_labels node_indices opts ces features
                        relations s = Ok s' →
  ∃ groups,
    Scene.fig s' = Scene.fig s ++ concat groups
    ∧ Forall (relation_group (triangle_trace opts) All3Relations) groups
    ∧ length groups
      = (if truthy (show_mesh opts) then length (triangles_of features)
         else 0).
Proof.
  unfold three_relations_stage.
  destruct (truthy (show_mesh opts));
    [|intros [= <-]; exists []; by rewrite app_nil_r].
  case_bool_decide as Htri.
  2:{ intros [= <-]. exists []. rewrite app_nil_r.
      do 2 (split; [done|]).
      by destruct (triangles_of features). }
  destruct (normalize_sizes _ _ _) as [sizes|]; [|done].
  cbn [mbind result_bind].
  destruct (unzip3 _) as [[[i j] k]|]; [|done].
  cbn [mbind result_bind fst snd]. intros Hloop.
  eapply (for_each_enumerate_invariant
            (λ r st, ∃ groups,
               Scene.fig st = Scene.fig s ++ concat groups
               ∧ Forall (relation_group (triangle_trace opts) All3Relations)
                        groups
               ∧ length groups = r))
    in Hloop; [exact Hloop| |].
  - intros r triangle st st' (groups & Hfig & Hgroups & Hlen)
      (group & Hfig' & Hgroup)%three_relation_traces_group.
    exists (groups ++ [group]). split; [|split].
    + rewrite Hfig', Hfig, concat_app. cbn. by rewrite app_nil_r, app_assoc.
    + apply Forall_app. by repeat constructor.
    + rewrite length_app. simpl. lia.
  - exists []. by rewrite app_nil_r.
Qed.

(** The figure of the relation stages: a group of lines for each
    2-relation, then a group of meshes for each triangle. *)
Lemma relation_stages_groups features x y z relations fig :
  relation_stages node_labels node_indices opts ces features x y z relations
  = Ok fig →
  ∃ groups2 groups3,
    fig = concat groups2 ++ concat groups3
    ∧ Forall (relation_group (edge_trace opts) All2Relations) groups2
    ∧ Forall (relation_group (triangle_trace opts) All3Relations) groups3
    ∧ length groups2
      = (if truthy (show_edges opts) && bool_decide (edges_of features ≠ [])
         then length (filter (λ r, length (Relation.relata r) = 2) relations)
         else 0)
    ∧ length groups3
      = (if truthy (show_mesh opts) then length (triangles_of features)
         else 0).
Proof.
  unfold relation_stages.
  destruct (two_relations_stage _ _ _ _ _ _ _ _ _ _) as [s2|] eqn:H2;
    [|done].
  cbn [mbind result_bind].
  destruct (three_relations_stage _ _ _ _ _ _ _) as [s3|] eqn:H3; [|done].
  intros [= <-].
  apply two_relations_stage_groups in H2 as (groups2 & Hfig2 & Hg2 & Hl2).
  apply three_relations_stage_groups in H3 as (groups3 & Hfig3 & Hg3 & Hl3).
  exists groups2, groups3. by rewrite Hfig3, Hfig2.
Qed.
End Emitted.

Lemma relation_group_Forall (T : trace → Prop) (place : Family)
    (group : list trace) :
  relation_group T place group → Forall T group.
Proof.
  intros (ts & t & -> & Hts & Ht & _). apply Forall_app. split.
  - eapply Forall_impl; [exact Hts|]. by intros ? [].
  - by repeat constructor.
Qed.

Lemma relation_groups_Forall (T : trace → Prop) (place : Family)
    (groups : list (list trace)) :
  Forall (relation_group T place) groups → Forall T (concat groups).
Proof.
  induction 1 as [|group groups Hgroup _ IH]; [constructor|].
  cbn. apply Forall_app. split; [|done].
  by eapply relation_group_Forall.
Qed.

(** A group holds one trace of its own catch-all family and none of the
    other one. *)
Lemma relation_groups_count (T : trace → Prop) (place q : Family)
    (groups : list (list trace)) :
  q = All2Relations ∨ q = All3Relations →
  Forall (relation_group T place) groups →
  length (filter (λ t, family t = q) (concat groups))
  = if decide (place = q) then length groups else 0.
Proof.
  intros Hq. induction 1 as [|group groups Hgroup _ IH].
  { by destruct (decide (place = q)). }
  cbn. rewrite filter_app, length_app, IH.
  destruct Hgroup as (ts & t & -> & Hts & _ & Ht).
  rewrite filter_app, length_app.
  assert (filter (λ t, family t = q) ts = []) as ->.
  { clear -Hq Hts. induction Hts as [|u ts [_ [H2 H3]] _ IH]; [done|].
    rewrite filter_cons, decide_False; [done|]. by destruct Hq as [-> | ->]. }
  rewrite filter_cons, filter_nil, Ht.
  destruct (decide (place = q)); simpl; lia.
Qed.

(** A column of the feature matrix sums to at most the number of relata
    of its relation. *)
Lemma assign_ones_sum_le (N : nat) (indices : list nat) :
  (∀ i, i ∈ indices → i < N) →
  sum_list (assign_ones N indices) ≤ length indices.
Proof.
  induction indices as [|i indices IH] using rev_ind; intros Hlt.
  - unfold assign_ones. simpl. rewrite sum_list_replicate. lia.
  - rewrite assign_ones_snoc, length_app. simpl.
    destruct (lookup_lt_is_Some_2 (assign_ones N indices) i) as [x Hx].
    { rewrite assign_ones_length. apply Hlt, elem_of_app. right. left. }
    pose proof (sum_list_insert _ i x 1 Hx) as Hsum.
    assert (sum_list (assign_ones N indices) ≤ length indices).
    { apply IH. intros j Hj. apply Hlt, elem_of_app. by left. }
    lia.
Qed.

Lemma feature_matrix_column_sum_le (ces : list MICE.t)
    (relations : list Relation.t) (features : matrix) (j : nat)
    (relation : Relation.t) :
  feature_matrix ces relations = Ok features →
  relations !! j = Some relation →
  sum_list (column features j) ≤ length (Relation.relata relation).
Proof.
  intros [_ Hcols]%feature_matrix_Ok Hj. unfold column.
  destruct (Forall2_lookup_l _ _ _ _ _ Hcols Hj) as (col & -> & Hcol).
  apply relation_column_Ok in Hcol as (indices & Hind & ->).
  cbn [default from_option id].
  rewrite (Forall2_length _ _ _ Hind). apply assign_ones_sum_le.
  intros i (k & Hk)%list_elem_of_lookup.
  destruct (Forall2_lookup_r _ _ _ _ _ Hind Hk) as (m & _ & Hmi).
  by eapply index_map_lt.
Qed.

Lemma columns_summing_to_above (ces : list MICE.t)
    (relations : list Relation.t) (features : matrix) (k : nat) :
  feature_matrix ces relations = Ok features →
  Forall (λ r, length (Relation.relata r) < k) relations →
  columns_summing_to features k = [].
Proof.
  intros Hfm Hrel.
  destruct (feature_matrix_shape _ _ _ Hfm) as (_ & HM & _).
  destruct (columns_summing_to features k) as [|j js] eqn:Hcols; [done|].
  assert (Hj : j ∈ columns_summing_to features k)
    by (rewrite Hcols; left).
  apply elem_of_columns_summing_to in Hj as [Hj Hsum].
  rewrite HM in Hj.
  destruct (lookup_lt_is_Some_2 relations j Hj) as [relation Hr].
  pose proof (feature_matrix_column_sum_le _ _ _ _ _ Hfm Hr) as Hle.
  rewrite Forall_forall in Hrel.
  specialize (Hrel relation (list_elem_of_lookup_2 _ _ _ Hr)). lia.
Qed.

(** X15. The relation traces of [plot_ces] are the lines of the
    2-relations followed by the meshes of the 3-relations. Every line has
    [show_edges] as its visibility. A mesh has [show_mesh], except the
    meshes of the compound purview and relation purview q-folds, which
    take [show_edges]; no mesh belongs to a mechanism and cause purview
    q-fold. There is no line when [show_edges] is [False] and no mesh
    when [show_mesh] is [False]. *)
Theorem relation_traces_visibility get_coords node_labels node_indices ces
    relations max_order cause_effect_offset vertex_size_range
    order_on_z_axis opts s :
  plot_ces get_coords node_labels node_indices ces relations max_order
           cause_effect_offset vertex_size_range order_on_z_axis opts = Ok s →
  ∃ lines meshes,
    relation_traces s = lines ++ meshes
    ∧ Forall (λ t, is_line t ∧ visible t = show_edges opts
                   ∧ family t ≠ All3Relations) lines
    ∧ Forall (λ t, is_mesh t
                   ∧ family t ≠ All2Relations
                   ∧ family t ≠ MechanismCausePurviewQFold
                   ∧ visible t
                     = match family t with
                       | CompoundPurviewQFold | RelationPurviewQFold =>
                           show_edges opts
                       | _ => show_mesh opts
                       end) meshes
    ∧ (show_edges opts = Hidden → lines = [])
    ∧ (show_mesh opts = Hidden → meshes = []).
Proof.
  intros (features & x & y & _ & Hstages)%plot_ces_relation_stages.
  apply relation_stages_groups in Hstages
    as (groups2 & groups3 & -> & Hg2 & Hg3 & Hl2 & Hl3).
  exists (concat groups2), (concat groups3). split; [done|].
  split; [by eapply relation_groups_Forall|].
  split; [by eapply relation_groups_Forall|]. split.
  - intros Hhidden. rewrite Hhidden in Hl2. simpl in Hl2.
    by apply nil_length_inv in Hl2 as ->.
  - intros Hhidden. rewrite Hhidden in Hl3. simpl in Hl3.
    by apply nil_length_inv in Hl3 as ->.
Qed.

(** X16. [plot_ces] emits one catch-all line, in the group
    [All 2-Relations], for each relation with two relata that passes the
    [max_order] filter, when [show_edges] is not [False] and the feature
    matrix has an edge, and none otherwise; it emits one catch-all mesh,
    in the group [All 3-Relations], for each triangle of the feature
    matrix when [show_mesh] is not [False], and none otherwise. *)
Theorem relation_traces_catch_all_counts get_coords node_labels node_indices
    ces relations max_order cause_effect_offset vertex_size_range
    order_on_z_axis opts s :
  plot_ces get_coords node_labels node_indices ces relations max_order
           cause_effect_offset vertex_size_range order_on_z_axis opts = Ok s →
  let selected :=
    filter (λ r, length (Relation.relata r) ≤ max_order) relations in
  ∃ features,
    feature_matrix (separate_ces ces) selected = Ok features
    ∧ length (filter (λ t, family t = All2Relations) (relation_traces s))
      = (if truthy (show_edges opts) && bool_decide (edges_of features ≠ [])
         then length (filter (λ r, length (Relation.relata r) = 2) selected)
         else 0)
    ∧ length (filter (λ t, family t = All3Relations) (relation_traces s))
      = (if truthy (show_mesh opts) then length (triangles_of features)
         else 0).
Proof.
  intros (features & x & y & Hfm & Hstages)%plot_ces_relation_stages selected.
  exists features. split; [done|].
  apply relation_stages_groups in Hstages
    as (groups2 & groups3 & -> & Hg2 & Hg3 & Hl2 & Hl3).
  rewrite !filter_app, !length_app.
  rewrite
    (relation_groups_count (edge_trace opts) All2Relations All2Relations
       groups2),
    (relation_groups_count (triangle_trace opts) All3Relations All2Relations
       groups3),
    (relation_groups_count (edge_trace opts) All2Relations All3Relations
       groups2),
    (relation_groups_count (triangle_trace opts) All3Relations All3Relations
       groups3);
    auto.
  repeat case_decide; try done. fold selected in Hl2.
  rewrite <- Hl2, <- Hl3. lia.
Qed.

(** X17. The [max_order] filter of [plot_ces]: with [max_order] below 3
    no mesh is emitted, every relation trace is a line, and with
    [max_order] below 2 no relation trace is emitted at all. *)
Theorem max_order_limits_traces get_coords node_labels node_indices ces
    relations max_order cause_effect_offset vertex_size_range
    order_on_z_axis opts s :
  plot_ces get_coords node_labels node_indices ces relations max_order
           cause_effect_offset vertex_size_range order_on_z_axis opts = Ok s →
  (max_order < 3 → Forall is_line (relation_traces s))
  ∧ (max_order < 2 → relation_traces s = []).
Proof.
  intros (features & x & y & Hfm & Hstages)%plot_ces_relation_stages.
  apply relation_stages_groups in Hstages
    as (groups2 & groups3 & -> & Hg2 & Hg3 & Hl2 & Hl3).
  assert (Hnone : ∀ k, max_order < k → columns_summing_to features k = []).
  { intros k Hk. apply (columns_summing_to_above _ _ _ _ Hfm).
    apply Forall_forall. intros r [Hr _]%list_elem_of_filter. lia. }
  assert (Hmesh : max_order < 3 → groups3 = []).
  { intros Hk. apply nil_length_inv. rewrite Hl3.
    unfold triangles_of. rewrite (Hnone 3 Hk).
    by destruct (truthy (show_mesh opts)). }
  split.
  - intros Hk. rewrite (Hmesh Hk). cbn. rewrite app_nil_r.
    apply relation_groups_Forall in Hg2.
    eapply Forall_impl; [exact Hg2|]. by intros t [].
  - intros Hk. rewrite (Hmesh ltac:(lia)).
    assert (groups2 = []) as ->; [|done].
    apply nil_length_inv. rewrite Hl2.
    unfold edges_of. rewrite (Hnone 2 Hk).
    change (flatten (relation_vertex_indices features <$> []))
      with (@nil nat).
    rewrite (bool_decide_eq_false_2 ([] ≠ [])) by (by intros []).
    by rewrite andb_false_r.
Qed.

Lemma relation_traces_visibility_witness :
  ∃ s,
    plot_ces Example.get_coords Example.node_labels Example.node_indices
             Example.ces Example.relations 3 Example.cause_effect_offset
             Example.vertex_size_range true Example.opts = Ok s
    ∧ ∃ lines meshes,
        relation_traces s = lines ++ meshes
        ∧ Forall is_line lines ∧ Forall is_mesh meshes.
Proof.
  eexists. split; [vm_compute; reflexivity|].
  edestruct
    (relation_traces_visibility Example.get_coords Example.node_labels
       Example.node_indices Example.ces Example.relations 3
       Example.cause_effect_offset Example.vertex_size_range true
       Example.opts)
    as (lines & meshes & Heq & Hlines & Hmeshes & _);
    [vm_compute; reflexivity|].
  exists lines, meshes. split; [exact Heq|].
  split; (eapply Forall_impl; [eassumption|]); by intros t [].
Defined.

Lemma relation_traces_catch_all_counts_witness :
  ∃ s,
    plot_ces Example.get_coords Example.node_labels Example.node_indices
             Example.ces Example.relations 3 Example.cause_effect_offset
             Example.vertex_size_range true Example.opts = Ok s
    ∧ length (filter (λ t, family t = All2Relations) (relation_traces s)) = 3
    ∧ length (filter (λ t, family t = All3Relations) (relation_traces s)) = 1.
Proof.
  eexists. split; [vm_compute; reflexivity|].
  edestruct
    (relation_traces_catch_all_counts Example.get_coords Example.node_labels
       Example.node_indices Example.ces Example.relations 3
       Example.cause_effect_offset Example.vertex_size_range true
       Example.opts)
    as (features & Hfm & H2 & H3); [vm_compute; reflexivity|].
  vm_compute in Hfm. injection Hfm as <-.
  split; [rewrite H2|rewrite H3]; vm_compute; reflexivity.
Defined.

Lemma max_order_limits_traces_witness :
  ∃ s,
    plot_ces Example.get_coords Example.node_labels Example.node_indices
             Example.ces Example.relations 2 Example.cause_effect_offset
             Example.vertex_size_range true Example.opts = Ok s
    ∧ Forall is_line (relation_traces s).
Proof.
  eexists. split; [vm_compute; reflexivity|].
  refine
    (proj1
       (max_order_limits_traces Example.get_coords Example.node_labels
          Example.node_indices Example.ces Example.relations 2
          Example.cause_effect_offset Example.vertex_size_range true
          Example.opts _ _) _); [vm_compute; reflexivity|lia].
Defined.

(** ** The embedding: collapsed features, offset, mechanism positions *)

(** X18. The rows that [plot_ces] hands to the embedding: one row for
    each distinction, and in it, for each relation, the number of the
    purviews of the distinction (its cause, its effect) that the feature
    matrix marks as relata of the relation. *)
Theorem collapse_adds_cause_and_effect (ces : list Distinction.t)
    (relations : list Relation.t) (features : matrix) :
  feature_matrix (separate_ces ces) relations = Ok features →
  nrows (collapse features) = length ces
  ∧ ncols (collapse features) = length relations
  ∧ ∀ i r, i < length ces → r < length relations →
      ∃ c e,
        cell features (2 * i) r = Some c
        ∧ cell features (2 * i + 1) r = Some e
        ∧ cell (collapse features) i r = Some (c + e).
Proof.
  intros Hfm. destruct (feature_matrix_shape _ _ _ Hfm) as (HN & HM & Hlen).
  rewrite separate_ces_length in HN, Hlen. split; [|split].
  - unfold collapse. cbn [nrows]. rewrite HN, Nat.mul_comm.
    by apply Nat.div_mul.
  - unfold collapse, ncols. cbn [columns]. by rewrite length_fmap.
  - intros i r Hi Hr. rewrite <- HM in Hr.
    pose proof (column_lookup features r Hr) as Hcol.
    specialize (Hlen r Hr).
    destruct (lookup_lt_is_Some_2 (column features r) (2 * i)) as [c Hc];
      [lia|].
    destruct (lookup_lt_is_Some_2 (column features r) (2 * i + 1))
      as [e He]; [lia|].
    exists c, e. unfold cell, collapse. cbn [columns].
    rewrite list_lookup_fmap, Hcol. cbn [mbind option_bind fmap option_fmap
      option_map].
    do 2 (split; [done|]).
    rewrite lookup_zip_with. unfold evens, odds.
    destruct (separate_lookup (column features r) i) as [-> ->].
    by rewrite Hc, He.
Qed.

Lemma collapse_adds_cause_and_effect_witness :
  ∃ features,
    feature_matrix (separate_ces Example.ces) Example.relations = Ok features
    ∧ nrows (collapse features) = 2.
Proof.
  eexists. split; [vm_compute; reflexivity|].
  apply (collapse_adds_cause_and_effect Example.ces Example.relations).
  vm_compute. reflexivity.
Defined.

Lemma broadcast_Ok (dim : nat) (v offset : list Q) :
  0 < dim → broadcast dim v = Ok offset →
  length offset = dim ∧ offset !! 0 = v !! 0
  ∧ (length v = dim ∨ length v = 1).
Proof.
  intros Hdim. unfold broadcast. case_bool_decide as Hlen.
  - intros [= <-]. auto.
  - destruct v as [|c [|]]; try done. intros [= <-].
    rewrite length_replicate. split; [done|]. split; [|by right].
    destruct dim; [lia|done].
Qed.

Lemma broadcast_Raise (dim : nat) (v : list Q) :
  length v ≠ dim → length v ≠ 1 → broadcast dim v = Raise ValueError.
Proof.
  intros Hdim Hone. unfold broadcast.
  rewrite bool_decide_eq_false_2 by done. by destruct v as [|c [|]].
Qed.

Lemma half_step_between (c o : Q) :
  is_float c → is_float o →
  ((0 <= o → c <= float_add c (float_div o 2) <= float_add c o)
   ∧ (o <= 0 → float_add c o <= float_add c (float_div o 2) <= c))%Q.
Proof.
  unfold is_float, float_add, float_div. intros Hc Ho.
  assert (Hhalf : ∀ a b : Q, (a <= b → binary64 a <= binary64 b)%Q)
    by apply binary64_mono.
  split; intros Hsign.
  - assert (0 <= binary64 (o / 2))%Q.
    { apply binary64_sign. apply Qle_shift_div_l; [reflexivity|lra]. }
    assert (binary64 (o / 2) <= o)%Q.
    { rewrite <- Ho at 2. apply binary64_mono.
      apply Qle_shift_div_r; [reflexivity|lra]. }
    split.
    + apply Qle_trans with (binary64 c); [rewrite Hc; apply Qle_refl|].
      apply binary64_mono. lra.
    + apply binary64_mono. lra.
  - assert (binary64 (o / 2) <= 0)%Q.
    { apply binary64_sign. apply Qle_shift_div_r; [reflexivity|lra]. }
    assert (o <= binary64 (o / 2))%Q.
    { rewrite <- Ho at 1. apply binary64_mono.
      apply Qle_shift_div_l; [reflexivity|lra]. }
    split.
    + apply binary64_mono. lra.
    + apply Qle_trans with (binary64 c); [|rewrite Hc; apply Qle_refl].
      apply binary64_mono. lra.
Qed.

(** X19. The mechanism of a distinction is drawn between its cause and
    its effect along [x]: the positions computed at lines 453-458 from
    the duplicated coordinates are, for distinction [i], the [x] of the
    cause moved by half the first component of the offset, the effect
    being moved by the whole of it; this lies between [x[2i]] and
    [x[2i+1]] when the coordinates and the offset are floats. The [y] and
    the [z] are those of the cause. *)
Theorem mechanism_between_cause_and_effect (n_components : nat)
    (distinction_coords : list (list Q)) (cause_effect_offset : list Q)
    (coords : list (list Q)) (x y z : list Q) :
  0 < n_components →
  Forall (λ point, length point = n_components) distinction_coords →
  (∀ point c, point ∈ distinction_coords → point !! 0 = Some c →
              is_float c) →
  (∀ o, cause_effect_offset !! 0 = Some o → is_float o) →
  duplicate_coords n_components distinction_coords cause_effect_offset
  = Ok coords →
  mapM (λ row, getitem row 0) coords = Ok x →
  ∃ xm,
    mechanism_positions cause_effect_offset x y z
    = Ok (xm, (separate_cause_and_effect_purviews_for y).1,
              (separate_cause_and_effect_purviews_for z).1)
    ∧ length xm = length distinction_coords
    ∧ ∀ i, i < length distinction_coords →
        ∃ c e m o,
          x !! (2 * i) = Some c ∧ x !! (2 * i + 1) = Some e
          ∧ xm !! i = Some m
          ∧ cause_effect_offset !! 0 = Some o
          ∧ e = float_add c o
          ∧ m = float_add c (float_div o 2)
          ∧ ((c <= m <= e)%Q ∨ (e <= m <= c)%Q).
Proof.
  intros Hdim Hpoints Hfloats Hfloat Hcoords Hx.
  destruct (broadcast n_components cause_effect_offset) as [offset|] eqn:Hoff;
    [|unfold duplicate_coords in Hcoords; by rewrite Hoff in Hcoords].
  destruct (broadcast_Ok _ _ _ Hdim Hoff) as (Hofflen & Hoff0 & _).
  destruct (lookup_lt_is_Some_2 offset 0) as [o Ho]; [lia|].
  assert (Ho' : cause_effect_offset !! 0 = Some o) by (by rewrite <- Hoff0).
  assert (Hgetitem : getitem cause_effect_offset 0 = Ok o).
  { unfold getitem. by rewrite Ho'. }
  destruct (duplicate_coords_rows _ distinction_coords _ _ Hoff)
    as (coords' & Hcoords' & Hlen & Hrows).
  assert (coords' = coords) as -> by congruence.
  pose proof (mapM_Ok_length _ _ _ Hx) as Hxlen.
  pose proof (separate_lengths x) as [Hparity Hsum].
  assert (Heven : Nat.even (length x) = true).
  { rewrite Hxlen, Hlen. by rewrite Nat.even_mul. }
  rewrite Heven in Hparity.
  assert (Hevens : length (evens x) = length distinction_coords) by lia.
  destruct (mapM_total
              (λ c, o ← getitem cause_effect_offset 0;
                    Ok (float_add c (float_div o 2)))
              (evens x)) as [xm Hxm].
  { intros c _. rewrite Hgetitem. by eexists. }
  exists xm. split; [|split].
  - unfold mechanism_positions. by rewrite Hxm.
  - by rewrite (mapM_Ok_length _ _ _ Hxm).
  - intros i Hi.
    destruct (lookup_lt_is_Some_2 distinction_coords i Hi) as [point Hpoint].
    destruct (Hrows i point Hpoint) as [Hcause Heffect].
    assert (Hplen : length point = n_components)
      by (by eapply Forall_lookup_1 in Hpoints).
    destruct (lookup_lt_is_Some_2 point 0) as [c Hc]; [lia|].
    destruct (mapM_Ok_lookup _ _ _ _ _ Hx Hcause) as (c' & Hxc & Hc').
    unfold getitem in Hc'. rewrite Hc in Hc'. injection Hc' as <-.
    destruct (mapM_Ok_lookup _ _ _ _ _ Hx Heffect) as (e & Hxe & He).
    unfold getitem in He. rewrite lookup_zip_with, Hc, Ho in He.
    cbn [mbind option_bind] in He. injection He as <-.
    assert (Hci : evens x !! i = Some c).
    { unfold evens. by destruct (separate_lookup x i) as [-> _]. }
    destruct (mapM_Ok_lookup _ _ _ _ _ Hxm Hci) as (m & Hm & Hmc).
    rewrite Hgetitem in Hmc. cbn [mbind result_bind] in Hmc.
    injection Hmc as <-.
    exists c, (float_add c o), (float_add c (float_div o 2)), o.
    do 6 (split; [done|]).
    assert (Hfc : is_float c)
      by (eapply Hfloats; [by eapply list_elem_of_lookup_2|done]).
    destruct (half_step_between c o Hfc (Hfloat o Ho')) as [Hpos Hneg].
    destruct (Qlt_le_dec o 0) as [Hlt|Hge]; [right|left].
    + apply Hneg. by apply Qlt_le_weak.
    + by apply Hpos.
Qed.

(** The position is not the mean of the two in general: with the cause
    at [1.7] and the default offset [0.3] the effect is at [2.0], the
    mechanism at [1.8499999999999999], and the mean of the two is
    [1.8500000000000001]. *)
Lemma half_step_not_the_mean :
  float_add (binary64 (17 # 10)) (float_div (binary64 (3 # 10)) 2)
  = (8331659310635417 # 4503599627370496)%Q
  ∧ float_add (binary64 (17 # 10)) (binary64 (3 # 10)) = 2%Q
  ∧ float_div (float_add (binary64 (17 # 10)) 2) 2
    = (4165829655317709 # 2251799813685248)%Q.
Proof. repeat split; vm_compute; reflexivity. Qed.

Lemma mechanism_between_cause_and_effect_witness :
  ∃ xm,
    mechanism_positions [1; 0]%Q [0; 1; 5; 6]%Q [0; 0; 7; 7]%Q [2; 2; 3; 3]%Q
    = Ok (xm, [0; 7]%Q, [2; 3]%Q)
    ∧ length xm = 2.
Proof.
  destruct (mechanism_between_cause_and_effect 2 [[0; 0]; [5; 7]]%Q
              [1; 0]%Q [[0; 0]; [1; 0]; [5; 7]; [6; 7]]%Q
              [0; 1; 5; 6]%Q [0; 0; 7; 7]%Q [2; 2; 3; 3]%Q)
    as (xm & Hxm & Hlen & _).
  - lia.
  - by repeat constructor.
  - intros point c Hpoint Hc.
    repeat (apply elem_of_cons in Hpoint as [->|Hpoint]);
      [| |by apply elem_of_nil in Hpoint];
      injection Hc as <-; vm_compute; reflexivity.
  - intros o [= <-]. vm_compute. reflexivity.
  - vm_compute. reflexivity.
  - vm_compute. reflexivity.
  - exists xm. split; [exact Hxm|exact Hlen].
Defined.

(** X20. The cause-effect offset must fit the coordinates. When the
    mechanism order drives [z] only its first two components are used,
    and an empty offset raises [ValueError]; otherwise an offset with
    neither three components nor one raises [ValueError]. *)
Theorem embedding_adapter_offset_error
    (get_coords : matrix → nat → list (list Q)) (order_on_z_axis : bool)
    (cause_effect_offset : list Q) (separated_ces : list MICE.t)
    (features : matrix) :
  (if order_on_z_axis then cause_effect_offset = []
   else length cause_effect_offset ≠ 3 ∧ length cause_effect_offset ≠ 1) →
  embedding_adapter get_coords order_on_z_axis cause_effect_offset
                    separated_ces features
  = Raise ValueError.
Proof.
  unfold embedding_adapter, duplicate_coords.
  destruct order_on_z_axis.
  - intros ->. done.
  - intros [H3 H1]. by rewrite broadcast_Raise.
Qed.

Lemma embedding_adapter_offset_error_witness :
  embedding_adapter Example.get_coords false [3 # 10; 0]%Q
                    (separate_ces Example.ces) (Matrix 4 [])
  = Raise ValueError.
Proof.
  apply (embedding_adapter_offset_error Example.get_coords false).
  split; simpl; lia.
Defined.

(** ** Legend groups, the empty CES, the corners of the triangles *)

(** X21. The legend groups of the node, mechanism, compound purview and
    relation purview q-folds and of the two catch-all traces never share
    a name, whatever the labels; a mechanism and cause purview q-fold can
    share its name only with a mechanism q-fold. *)
Theorem legend_groups_apart (a b m p : string) :
  node_tag a ≠ mechanism_tag b
  ∧ node_tag a ≠ compound_purview_tag b
  ∧ node_tag a ≠ relation_purview_tag b
  ∧ mechanism_tag a ≠ compound_purview_tag b
  ∧ mechanism_tag a ≠ relation_purview_tag b
  ∧ compound_purview_tag a ≠ relation_purview_tag b
  ∧ mechanism_cause_purview_tag m p ≠ node_tag a
  ∧ mechanism_cause_purview_tag m p ≠ compound_purview_tag a
  ∧ mechanism_cause_purview_tag m p ≠ relation_purview_tag a
  ∧ Forall (λ tag, tag ≠ "All 2-Relations" ∧ tag ≠ "All 3-Relations")
           [node_tag a; mechanism_tag a; compound_purview_tag a;
            relation_purview_tag a; mechanism_cause_purview_tag m p].
Proof.
  unfold node_tag, mechanism_tag, compound_purview_tag, relation_purview_tag,
    mechanism_cause_purview_tag.
  repeat split; try (intros H; discriminate H);
    repeat constructor; intros H; discriminate H.
Qed.

(** X22. [plot_ces] returns no scene for an empty CES: when nothing
    fails before, [normalize_sizes] raises on the empty Separated CES. *)
Theorem plot_ces_empty_ces get_coords node_labels node_indices relations
    max_order cause_effect_offset vertex_size_range order_on_z_axis opts :
  ∃ e,
    plot_ces get_coords node_labels node_indices [] relations max_order
             cause_effect_offset vertex_size_range order_on_z_axis opts
    = Raise e.
Proof.
  unfold plot_ces.
  destruct (feature_matrix _ _) as [features|e]; [|by exists e].
  cbn [mbind result_bind].
  destruct (embedding_adapter _ _ _ _ _) as [cz|e]; [|by exists e].
  cbn [mbind result_bind].
  destruct (mapM (λ row, getitem row 0) cz.1) as [x|e]; [|by exists e].
  cbn [mbind result_bind].
  destruct (mapM (λ row, getitem row 1) cz.1) as [y|e]; [|by exists e].
  cbn [mbind result_bind]. by exists ValueError.
Qed.

(** X23. The corners of the triangles, unpacked into [i, j, k] from the
    zipped triangles: for a non-empty list of triangles of three vertices
    each,
    the three lists hold, at the rank of each triangle, its first, second
    and third vertex; an empty list cannot be unpacked. *)
Theorem unzip3_corners (triangles : list (list nat)) :
  unzip3 [] = Raise ValueError
  ∧ (triangles ≠ [] → Forall (λ t, length t = 3) triangles →
     ∃ i j k,
       unzip3 triangles = Ok (i, j, k)
       ∧ ∀ r a b c,
           triangles !! r = Some [a; b; c] →
           i !! r = Some a ∧ j !! r = Some b ∧ k !! r = Some c).
Proof.
  split; [done|]. intros Hne Hthree.
  assert (Hget : ∀ n, n < 3 →
            ∃ v, mapM (λ t : list nat, getitem t n) triangles = Ok v).
  { intros n Hn. apply mapM_total. intros t Ht.
    rewrite Forall_forall in Hthree. apply getitem_Ok.
    rewrite (Hthree t Ht). done. }
  destruct (Hget 0) as [i Hi]; [lia|]. destruct (Hget 1) as [j Hj]; [lia|].
  destruct (Hget 2) as [k Hk]; [lia|].
  exists i, j, k. split.
  - unfold unzip3. destruct triangles as [|t ts]; [done|].
    apply Forall_cons in Hthree as [Ht Hts].
    rewrite bool_decide_eq_true_2.
    + by rewrite Hi, Hj, Hk.
    + rewrite Ht. clear -Hts. induction Hts as [|u ts Hu _ IH]; [done|].
      cbn. rewrite Hu. cbn in IH. rewrite IH. done.
  - intros r a b c Hr.
    destruct (mapM_Ok_lookup _ _ _ _ _ Hi Hr) as (a' & -> & [= <-]).
    destruct (mapM_Ok_lookup _ _ _ _ _ Hj Hr) as (b' & -> & [= <-]).
    destruct (mapM_Ok_lookup _ _ _ _ _ Hk Hr) as (c' & -> & [= <-]).
    done.
Qed.

Lemma unzip3_corners_witness :
  ∃ i j k, unzip3 [[0; 2; 3]; [1; 2; 3]] = Ok (i, j, k)
           ∧ i !! 1 = Some 1 ∧ j !! 1 = Some 2 ∧ k !! 1 = Some 3.
Proof.
  destruct (proj2 (unzip3_corners [[0; 2; 3]; [1; 2; 3]]))
    as (i & j & k & Hijk & Hcorners); [done|by repeat constructor|].
  exists i, j, k. split; [exact Hijk|]. by apply Hcorners.
Defined.

(** ** all_edges and all_triangles *)

Lemma combinations_one {A} (l : list A) :
  combinations 1 l = (λ x, [x]) <$> l.
Proof.
  induction l as [|x l IH]; [done|]. cbn [combinations].
  rewrite IH. by destruct l.
Qed.

Lemma elem_of_all_edges {A} (vertices : list A) (a b : A) :
  [a; b] ∈ all_edges vertices
  ↔ ∃ i j, i < j ∧ vertices !! i = Some a ∧ vertices !! j = Some b.
Proof.
  unfold all_edges. induction vertices as [|x l IH].
  { split; [by intros []%elem_of_nil|by intros (? & ? & _ & [=] & _)]. }
  cbn [combinations]. rewrite elem_of_app, IH, combinations_one. split.
  - intros [(c & [= <- <-] & (y & [= <-] & Hy)%list_elem_of_fmap)
            %list_elem_of_fmap|(i & j & Hij & Hi & Hj)].
    + apply list_elem_of_lookup in Hy as [j Hj].
      exists 0, (S j). split; [lia|done].
    + exists (S i), (S j). split; [lia|done].
  - intros (i & j & Hij & Hi & Hj). destruct j as [|j]; [lia|].
    destruct i as [|i].
    + left. injection Hi as ->. apply list_elem_of_fmap.
      exists [b]. split; [done|]. apply list_elem_of_fmap.
      exists b. split; [done|]. by eapply list_elem_of_lookup_2.
    + right. exists i, j. split; [lia|done].
Qed.

Lemma all_edges_pairs {A} (vertices : list A) (e : list A) :
  e ∈ all_edges vertices → ∃ a b, e = [a; b].
Proof.
  unfold all_edges. induction vertices as [|x l IH];
    [by intros []%elem_of_nil|].
  cbn [combinations]. rewrite elem_of_app, combinations_one.
  intros [(c & -> & (y & -> & _)%list_elem_of_fmap)%list_elem_of_fmap|He];
    [by exists x, y|by apply IH].
Qed.

Lemma all_edges_length {A} (vertices : list A) :
  2 * length (all_edges vertices) = length vertices * (length vertices - 1).
Proof.
  unfold all_edges. induction vertices as [|x l IH]; [done|].
  cbn [combinations]. rewrite length_app, !length_fmap, combinations_one,
    length_fmap.
  cbn [length]. destruct l as [|y l]; [done|]. cbn [length] in *. nia.
Qed.

(** X24. [all_edges] lists the pairs of vertices, the first one before
    the second in the given order, each pair of positions once: there
    are [n (n - 1) / 2] of them for [n] vertices. *)
Theorem all_edges_pairs_in_order {A} (vertices : list A) :
  (∀ e, e ∈ all_edges vertices → ∃ a b, e = [a; b])
  ∧ (∀ a b, [a; b] ∈ all_edges vertices
            ↔ ∃ i j, i < j ∧ vertices !! i = Some a ∧ vertices !! j = Some b)
  ∧ 2 * length (all_edges vertices)
    = length vertices * (length vertices - 1).
Proof.
  split; [apply all_edges_pairs|].
  split; [apply elem_of_all_edges|apply all_edges_length].
Qed.

(** X25. [all_triangles] lists the triples of vertices in the given
    order, each triple of positions once: there are
    [n (n - 1) (n - 2) / 6] of them for [n] vertices. *)
Theorem all_triangles_triples_in_order {A} (vertices : list A) :
  (∀ a b c, [a; b; c] ∈ all_triangles vertices
            ↔ ∃ i j k, i < j < k ∧ vertices !! i = Some a
                       ∧ vertices !! j = Some b ∧ vertices !! k = Some c)
  ∧ 6 * length (all_triangles vertices)
    = length vertices * (length vertices - 1) * (length vertices - 2).
Proof.
  unfold all_triangles. split.
  - induction vertices as [|x l IH]; intros a b c.
    { split; [by intros []%elem_of_nil|by intros (? & ? & ? & _ & [=] & _)]. }
    cbn [combinations]. rewrite elem_of_app, IH. split.
    + intros [(e & [= <- <-] & (i & j & Hij & Hi & Hj)%elem_of_all_edges)
              %list_elem_of_fmap|(i & j & k & Hijk & Hi & Hj & Hk)].
      * exists 0, (S i), (S j). split; [lia|done].
      * exists (S i), (S j), (S k). split; [lia|done].
    + intros (i & j & k & Hijk & Hi & Hj & Hk).
      destruct j as [|j]; [lia|]. destruct k as [|k]; [lia|].
      destruct i as [|i].
      * left. injection Hi as ->. apply list_elem_of_fmap.
        exists [b; c]. split; [done|]. apply elem_of_all_edges.
        exists j, k. split; [lia|done].
      * right. exists i, j, k. split; [lia|done].
  - induction vertices as [|x l IH]; [done|].
    cbn [combinations]. rewrite length_app, length_fmap.
    pose proof (all_edges_length l) as Hedges. unfold all_edges in Hedges.
    cbn [length]. destruct l as [|y [|z l]]; [done|done|].
    cbn [length] in *. nia.
Qed.
